(** * A verified model of the platformer's movement and collision core

    The development embeds [plat.py]: the tile map with its loader and
    point queries, the swept collision resolver [Map.move_box], the player
    kinematics [Game.physics], the camera [Game.move_camera], the lap timer
    [Game.logic], the input handling and the tick loop of [main], the timer
    text [format_time_exact] and the tile sprites of [render_map].

    Python floats are IEEE 754 binary64 numbers; they are modelled by the
    primitive floats of the standard library, whose operations are specified
    by [SpecFloat].  Python integers are unbounded and are modelled by [Z].
    The integer literals that the program mixes into float arithmetic
    (0, 1, -8, 8, -21, 64, 170, 500) are all exactly representable, so a
    coordinate holding such an integer is modelled by the float of the same
    value.  Exceptions are modelled by an error monad. *)

From Stdlib Require Import ZArith List Bool Lia String Ascii.
From Stdlib Require Import QArith Qabs Qpower Lqa Qround.
From Stdlib Require Import Floats.
From Stdlib Require Import DecimalString.
From stdpp Require Import functions.
From stdpp Require Import base gmap list.

Set Default Proof Using "Type".

(** ** Python run-time model *)

(** The exceptions the modelled code can raise. *)
Inductive exn :=
| ValueError
| OverflowError
| ZeroDivisionError
| IndexError
| RuntimeError.

Inductive result (A : Type) :=
| Ok (a : A)
| Raise (e : exn).
Arguments Ok {A} a.
Arguments Raise {A} e.

Definition bind {A B} (m : result A) (f : A -> result B) : result B :=
  match m with
  | Ok a => f a
  | Raise e => Raise e
  end.

Notation "'let*' x ':=' m 'in' f" := (bind m (fun x => f))
  (at level 10, x pattern, m at level 100, f at level 200).

Definition is_ok {A} (m : result A) : Prop := exists a, m = Ok a.

(** Magnitude of a finite float [m * 2^e] rounded to an integer,
    ties going to the even neighbour. *)
Definition round_half_even (m : positive) (e : Z) : Z :=
  match e with
  | Zneg k =>
      let q := Z.shiftr (Zpos m) (Zpos k) in
      let r := Z.land (Zpos m) (Z.ones (Zpos k)) in
      match Z.compare (2 * r) (Z.shiftl 1 (Zpos k)) with
      | Lt => q
      | Gt => q + 1
      | Eq => if Z.even q then q else q + 1
      end
  | _ => Z.shiftl (Zpos m) e
  end%Z.

(** Magnitude of a finite float [m * 2^e] with its fraction dropped. *)
Definition truncate (m : positive) (e : Z) : Z :=
  match e with
  | Zneg k => Z.shiftr (Zpos m) (Zpos k)
  | _ => Z.shiftl (Zpos m) e
  end.

(** [round(x)] with one argument: the nearest integer, half to even;
    [ValueError] on NaN and [OverflowError] on an infinity. *)
Definition py_round (f : float) : result Z :=
  match Prim2SF f with
  | S754_nan => Raise ValueError
  | S754_infinity _ => Raise OverflowError
  | S754_zero _ => Ok 0%Z
  | S754_finite s m e => Ok (cond_Zopp s (round_half_even m e))
  end.

(** [int(x)] of a float: truncation towards zero, same exceptions. *)
Definition py_int (f : float) : result Z :=
  match Prim2SF f with
  | S754_nan => Raise ValueError
  | S754_infinity _ => Raise OverflowError
  | S754_zero _ => Ok 0%Z
  | S754_finite s m e => Ok (cond_Zopp s (truncate m e))
  end.

(** [float(n)] of an integer, also the implicit conversion of an integer
    operand in mixed arithmetic: the nearest float, [OverflowError] when
    out of range. *)
Definition py_float (n : Z) : result float :=
  match binary_normalize prec emax n 0 false with
  | S754_infinity _ => Raise OverflowError
  | f => Ok (SF2Prim f)
  end.

(** [a / b] on floats. *)
Definition py_truediv (a b : float) : result float :=
  if (b =? 0)%float then Raise ZeroDivisionError else Ok (a / b)%float.

(** [math.sqrt]: a domain error on negative arguments. *)
Definition py_sqrt (a : float) : result float :=
  if (a <? 0)%float then Raise ValueError else Ok (sqrt a).

(** [max(a, b)] and [min(a, b)] keep the first argument unless the second
    is strictly greater (smaller). *)
Definition py_max (a b : float) : float := if (a <? b)%float then b else a.
Definition py_min (a b : float) : float := if (b <? a)%float then b else a.

(** [l[i]] with Python's negative indices. *)
Definition py_index {A} (l : list A) (i : Z) : result A :=
  let n := Z.of_nat (length l) in
  let j := (if i <? 0 then n + i else i)%Z in
  if (j <? 0)%Z then Raise IndexError
  else match l !! Z.to_nat j with
       | Some a => Ok a
       | None => Raise IndexError
       end.

(** An integer as the operand of a true division. *)
Definition Z2SF (n : Z) : spec_float :=
  match n with
  | Z0 => S754_zero false
  | Zpos p => S754_finite false p 0
  | Zneg p => S754_finite true p 0
  end.

(** [a / b] on two integers: the float nearest to the exact quotient;
    [ZeroDivisionError] on a zero divisor, [OverflowError] when the
    quotient is too large for a float. *)
Definition py_int_truediv (a b : Z) : result float :=
  if (b =? 0)%Z then Raise ZeroDivisionError
  else match SFdiv prec emax (Z2SF a) (Z2SF b) with
       | S754_infinity _ => Raise OverflowError
       | f => Ok (SF2Prim f)
       end.

(** [a % b] on two integers: the remainder has the sign of the divisor. *)
Definition py_mod (a b : Z) : result Z :=
  if (b =? 0)%Z then Raise ZeroDivisionError else Ok (a mod b)%Z.

(** The decimal digits of the magnitude of an integer. *)
Definition decimal (n : Z) : string :=
  NilZero.string_of_uint (N.to_uint (Z.abs_N n)).

Fixpoint zeros (n : nat) : string :=
  match n with
  | O => EmptyString
  | S n' => String "0" (zeros n')
  end.

(** The format specification [02] on an integer: the sign of a negative
    number, then the digits, zeros between them up to a total width of
    two. *)
Definition format_02 (n : Z) : string :=
  let digits := decimal n in
  if (n <? 0)%Z
  then String "-" (zeros (1 - String.length digits) ++ digits)
  else (zeros (2 - String.length digits) ++ digits)%string.

(** ** Points and vectors *)

Module Point2d.
Record t := mk { x : float; y : float }.

Definition sub (self other : t) : t := mk (x self - x other) (y self - y other).
Definition add (self other : t) : t := mk (x self + x other) (y self + y other).
Definition mul (self : t) (scalar : float) : t := mk (x self * scalar) (y self * scalar).
Definition len (self : t) : result float :=
  py_sqrt (x self * x self + y self * y self).
End Point2d.

Abbreviation Vector2d := Point2d.mk.

Module Input.
Inductive t := NONE | LEFT | RIGHT | JUMP | RESTART | QUIT.
End Input.

#[global] Instance Input_eq_dec : EqDecision Input.t.
Proof. solve_decision. Defined.

(** The event types and key codes of SDL that the program looks at. *)
Definition SDL_QUIT : Z := 256.
Definition SDL_KEYDOWN : Z := 768.
Definition SDL_KEYUP : Z := 769.

Definition SDLK_a : Z := 97.
Definition SDLK_d : Z := 100.
Definition SDLK_SPACE : Z := 32.
Definition SDLK_r : Z := 114.
Definition SDLK_q : Z := 113.

(** An event as [handle_input] reads it: [event.type] and, for key
    events, [event.key.keysym.sym]. *)
Module Event.
Record t := mk { type : Z; sym : Z }.
End Event.

Definition to_input (key : Z) : Input.t :=
  if (key =? SDLK_a)%Z then Input.LEFT
  else if (key =? SDLK_d)%Z then Input.RIGHT
  else if (key =? SDLK_SPACE)%Z then Input.JUMP
  else if (key =? SDLK_r)%Z then Input.RESTART
  else if (key =? SDLK_q)%Z then Input.QUIT
  else Input.NONE.

Module Collision.
Inductive t := X | Y | CORNER.

#[global] Instance eq_dec : EqDecision t.
Proof. solve_decision. Defined.

#[global] Instance countable : Countable t.
Proof.
  refine (inj_countable'
            (fun c => match c with X => 0 | Y => 1 | CORNER => 2 end)
            (fun n => match n with 0 => X | 1 => Y | _ => CORNER end) _).
  intros []; reflexivity.
Defined.
End Collision.

Definition TILE_SIZE := Point2d.mk 64 64.
Definition PLAYER_SIZE := Point2d.mk 64 64.
Definition WINDOW_SIZE := Point2d.mk 1280 720.

Definition AIR : Z := 0.
Definition START : Z := 78.
Definition FINISH : Z := 110.

(** ** Text primitives used by the map loader *)

Definition newline : ascii := "010"%char.
Definition space : ascii := " "%char.

Definition is_empty (s : string) : bool :=
  match s with
  | EmptyString => true
  | String _ _ => false
  end.

(** [file.readlines()] on the decoded text: every line keeps its
    terminating newline, the last line may lack one. *)
Fixpoint readlines (s : string) : list string :=
  match s with
  | EmptyString => []
  | String c rest =>
      if Ascii.eqb c newline then String c EmptyString :: readlines rest
      else match readlines rest with
           | [] => [String c EmptyString]
           | l :: ls => String c l :: ls
           end
  end.

(** [s.split(sep)] with a one-character separator: empty pieces are kept. *)
Fixpoint split (sep : ascii) (s : string) : list string :=
  match s with
  | EmptyString => [EmptyString]
  | String c rest =>
      if Ascii.eqb c sep then EmptyString :: split sep rest
      else match split sep rest with
           | [] => [String c EmptyString]
           | w :: ws => String c w :: ws
           end
  end.

(** The characters that [int] strips as white space around the number.
    A character of the text stands for the code point of its number:
    tab to carriage return (9 to 13) and the blank (32), and of the code
    points from 128 on the next-line control (133) and the no-break
    space (160).  The separators 28 to 31 are not stripped by [int]. *)
Definition is_space (c : ascii) : bool :=
  let n := nat_of_ascii c in
  ((9 <=? n) && (n <=? 13) || (n =? 32) || (n =? 133) || (n =? 160))%nat.

Fixpoint lstrip (s : string) : string :=
  match s with
  | EmptyString => EmptyString
  | String c rest => if is_space c then lstrip rest else s
  end.

Fixpoint rstrip (s : string) : string :=
  match s with
  | EmptyString => EmptyString
  | String c rest =>
      let r := rstrip rest in
      if is_space c && is_empty r then EmptyString else String c r
  end.

Definition digit_of (c : ascii) : option Z :=
  let n := nat_of_ascii c in
  if ((48 <=? n) && (n <=? 57))%nat then Some (Z.of_nat n - 48)%Z else None.

(** Decimal digits, single underscores allowed between two digits. *)
Fixpoint digits_value (acc : Z) (prev_digit : bool) (s : string) : option Z :=
  match s with
  | EmptyString => if prev_digit then Some acc else None
  | String c rest =>
      match digit_of c with
      | Some d => digits_value (10 * acc + d) true rest
      | None =>
          if Ascii.eqb c "_" && prev_digit then digits_value acc false rest
          else None
      end
  end.

(** The number of digit characters of a literal, underscores left out. *)
Fixpoint count_digits (s : string) : nat :=
  match s with
  | EmptyString => 0%nat
  | String c rest =>
      ((match digit_of c with Some _ => 1 | None => 0 end) + count_digits rest)%nat
  end.

(** The interpreter's default limit on the digits of a decimal literal
    that [int] converts (CPython 3.11 and later). *)
Definition MAX_STR_DIGITS : nat := 4300.

(** [int(word)] in base ten: surrounding white space, an optional sign,
    then the digits; [ValueError] otherwise, also for a literal of more
    than [MAX_STR_DIGITS] digits. *)
Definition py_int_of_str (word : string) : result Z :=
  let body := rstrip (lstrip word) in
  let '(negative, digits) :=
    match body with
    | String "-" rest => (true, rest)
    | String "+" rest => (false, rest)
    | _ => (false, body)
    end in
  match digits_value 0 false digits with
  | Some v =>
      if (MAX_STR_DIGITS <? count_digits digits)%nat then Raise ValueError
      else Ok (if negative : bool then (- v)%Z else v)
  | None => Raise ValueError
  end.

(** ** The tile map *)

Module Map.
Record t := mk { tiles : list Z; width : Z; height : Z }.

(** The inner loop of the loader over the words of one line: appends
    the values to [tiles] and counts them. *)
Fixpoint scan_words (words : list string) (tiles : list Z) (width : Z)
  : result (list Z * Z) :=
  match words with
  | [] => Ok (tiles, width)
  | word :: rest =>
      if is_empty word then scan_words rest tiles width
      else
        let* value := py_int_of_str word in
        scan_words rest (tiles ++ [value]) (width + 1)%Z
  end.

(** The outer loop of the loader over the lines of the file. *)
Fixpoint scan_lines (lines : list string) (self : t) : result t :=
  match lines with
  | [] => Ok self
  | line :: rest =>
      let* (tiles', width') := scan_words (split space line) (tiles self) 0 in
      if (width self >? 0)%Z && negb (width self =? width')%Z
      then Raise RuntimeError
      else scan_lines rest (mk tiles' width' (height self + 1)%Z)
  end.

(** [Map.__init__] on the text of the map file. *)
Definition __init__ (text : string) : result t :=
  scan_lines (readlines text) (mk [] 0 0).

Definition __get_tile (self : t) (x y : Z) : result Z :=
  let* fx := py_float x in
  let* qx := py_int (fx / Point2d.x TILE_SIZE) in
  let nx := Z.min (Z.max qx 0) (width self - 1) in
  let* fy := py_float y in
  let* qy := py_int (fy / Point2d.y TILE_SIZE) in
  let ny := Z.min (Z.max qy 0) (height self - 1) in
  let pos := (ny * width self + nx)%Z in
  py_index (tiles self) pos.

Definition get_tile (self : t) (pos : Point2d.t) : result Z :=
  let* x := py_round (Point2d.x pos) in
  let* y := py_round (Point2d.y pos) in
  __get_tile self x y.

Definition __is_solid (self : t) (x y : Z) : result bool :=
  let* tile := __get_tile self x y in
  Ok (negb ((tile =? AIR) || (tile =? START) || (tile =? FINISH))%Z).

Definition is_solid (self : t) (pos : Point2d.t) : result bool :=
  let* x := py_round (Point2d.x pos) in
  let* y := py_round (Point2d.y pos) in
  __is_solid self x y.

(** Python's short-circuit [or] on fallible operands. *)
Definition or_else (a b : result bool) : result bool :=
  let* v := a in if v : bool then Ok true else b.

Definition on_ground (self : t) (pos size : Point2d.t) : result bool :=
  let size := Point2d.mul size 0.5 in
  or_else
    (is_solid self (Point2d.mk (Point2d.x pos - Point2d.x size)
                               (Point2d.y pos + Point2d.y size + 1)))
    (is_solid self (Point2d.mk (Point2d.x pos + Point2d.x size)
                               (Point2d.y pos + Point2d.y size + 1))).

Definition test_box (self : t) (pos size : Point2d.t) : result bool :=
  let size := Point2d.mul size 0.5 in
  or_else
    (is_solid self (Point2d.mk (Point2d.x pos - Point2d.x size)
                               (Point2d.y pos - Point2d.y size)))
    (or_else
       (is_solid self (Point2d.mk (Point2d.x pos + Point2d.x size)
                                  (Point2d.y pos - Point2d.y size)))
       (or_else
          (is_solid self (Point2d.mk (Point2d.x pos - Point2d.x size)
                                     (Point2d.y pos + Point2d.y size)))
          (is_solid self (Point2d.mk (Point2d.x pos + Point2d.x size)
                                     (Point2d.y pos + Point2d.y size))))).

(** The variables the loop of [move_box] carries from one sub-step to
    the next. *)
Record state := State {
  result_of : gset Collision.t;
  pos_of : Point2d.t;
  vel_of : Point2d.t
}.

(** The candidate position a sub-step tries. *)
Definition candidate (fraction : float) (st : state) : Point2d.t :=
  Point2d.add (pos_of st) (Point2d.mul (vel_of st) fraction).

(** One iteration of the loop of [move_box]. *)
Definition sub_step (self : t) (size : Point2d.t) (fraction : float)
    (st : state) : result state :=
  let '(State result pos vel) := st in
  let new_pos := candidate fraction st in
  let* blocked := test_box self new_pos size in
  if blocked : bool then
    let* hit_y := test_box self (Point2d.mk (Point2d.x pos) (Point2d.y new_pos)) size in
    let '(State result new_pos vel) :=
      if hit_y : bool
      then State (result ∪ {[Collision.Y]})
                 (Point2d.mk (Point2d.x new_pos) (Point2d.y pos))
                 (Point2d.mk (Point2d.x vel) 0)
      else State result new_pos vel in
    let* hit_x := test_box self (Point2d.mk (Point2d.x new_pos) (Point2d.y pos)) size in
    let '(State result new_pos vel) :=
      if hit_x : bool
      then State (result ∪ {[Collision.X]})
                 (Point2d.mk (Point2d.x pos) (Point2d.y new_pos))
                 (Point2d.mk 0 (Point2d.y vel))
      else State result new_pos vel in
    if hit_y || hit_x
    then Ok (State result new_pos vel)
    else Ok (State (result ∪ {[Collision.CORNER]}) pos (Vector2d 0 0))
  else Ok (State result new_pos vel).

(** The loop [for i in range(0, maximum + 1)], [n] iterations left. *)
Fixpoint sub_steps (self : t) (size : Point2d.t) (fraction : float)
    (n : nat) (st : state) : result state :=
  match n with
  | O => Ok st
  | S n' =>
      let* st' := sub_step self size fraction st in
      sub_steps self size fraction n' st'
  end.

Definition move_box (self : t) (pos vel size : Point2d.t) : result state :=
  let* distance := Point2d.len vel in
  let* maximum := py_int distance in
  let result : gset Collision.t := ∅ in
  if (distance <? 0)%float then Ok (State result pos vel)
  else
    let* denominator := py_float (maximum + 1) in
    let* fraction := py_truediv 1 denominator in
    sub_steps self size fraction (Z.to_nat (maximum + 1)) (State result pos vel).
End Map.

(** ** Player and lap timer *)

Module Time.
Record t := mk { begin : Z; finish : Z; best : Z }.

Definition __init__ : t := mk (-1) (-1) (-1).
End Time.

Module Player.
Record t := mk { time : Time.t; pos : Point2d.t; vel : Point2d.t }.

Definition restart (self : t) : t :=
  mk (Time.mk (-1) (-1) (Time.best (time self)))
     (Point2d.mk 170 500)
     (Vector2d 0 0).

Definition __init__ : t :=
  restart (mk Time.__init__ (Point2d.mk 0 0) (Point2d.mk 0 0)).
End Player.

(** ** The game: kinematics, camera and lap logic *)

Module Game.
Record t := mk {
  inputs : Input.t -> bool;
  player : Player.t;
  map : Map.t;
  camera : Point2d.t
}.

Definition physics (self : t) : result t :=
  let player :=
    if inputs self Input.RESTART then Player.restart (player self)
    else player self in
  let* ground := Map.on_ground (map self) (Player.pos player) PLAYER_SIZE in
  let vel := Player.vel player in
  let vel :=
    if inputs self Input.JUMP && ground
    then Point2d.mk (Point2d.x vel) (-21)
    else vel in
  let direction :=
    ((if inputs self Input.RIGHT then 1 else 0)
     - (if inputs self Input.LEFT then 1 else 0))%Z in
  let vel := Point2d.mk (Point2d.x vel) (Point2d.y vel + 0.75) in
  let* direction := py_float direction in
  let vel :=
    if ground : bool
    then Point2d.mk (0.5 * Point2d.x vel + 4 * direction) (Point2d.y vel)
    else Point2d.mk (0x1.e666666666666p-1 * Point2d.x vel + 2 * direction)
                    (Point2d.y vel) in
  let vel := Point2d.mk (py_min (py_max (Point2d.x vel) (-8)) 8) (Point2d.y vel) in
  let* st := Map.move_box (map self) (Player.pos player) vel PLAYER_SIZE in
  Ok (mk (inputs self)
         (Player.mk (Player.time player) (Map.pos_of st) (Map.vel_of st))
         (map self) (camera self)).

Definition move_camera (self : t) : t :=
  let half_win := (Point2d.x WINDOW_SIZE / 2)%float in
  let left_area := (Point2d.x (Player.pos (player self)) - half_win - 100)%float in
  let right_area := (Point2d.x (Player.pos (player self)) - half_win + 100)%float in
  mk (inputs self) (player self) (map self)
     (Point2d.mk (py_min (py_max (Point2d.x (camera self)) left_area) right_area)
                 (Point2d.y (camera self))).

(** The transition of the lap timer on the tile under the player. *)
Definition lap (player_time : Time.t) (player_tile tick : Z) : Time.t :=
  if (player_tile =? START)%Z then
    Time.mk tick (Time.finish player_time) (Time.best player_time)
  else if (player_tile =? FINISH)%Z then
    if (Time.begin player_time >=? 0)%Z then
      let finish := (tick - Time.begin player_time)%Z in
      if (Time.best player_time <? 0)%Z || (finish <? Time.best player_time)%Z
      then Time.mk (-1) finish finish
      else Time.mk (-1) finish (Time.best player_time)
    else player_time
  else player_time.

Definition logic (self : t) (tick : Z) : result t :=
  let* player_tile := Map.get_tile (map self) (Player.pos (player self)) in
  Ok (mk (inputs self)
         (Player.mk (lap (Player.time (player self)) player_tile tick)
                    (Player.pos (player self)) (Player.vel (player self)))
         (map self) (camera self)).

(** One turn of the inner loop of [main] for the tick [tick]. *)
Definition tick (self : t) (tick : Z) : result t :=
  let* self := physics self in
  logic (move_camera self) tick.

(** [Game.__init__] on the text of the map file: no key held, the player
    at the restart position, the camera at the origin. *)
Definition __init__ (map_text : string) : result t :=
  let* map := Map.__init__ map_text in
  Ok (mk (fun _ => false) Player.__init__ map (Vector2d 0 0)).

(** The body of the loop of [handle_input] for one event. *)
Definition handle_event (inputs : Input.t -> bool) (event : Event.t)
  : Input.t -> bool :=
  if (Event.type event =? SDL_QUIT)%Z then <[Input.QUIT := true]> inputs
  else if (Event.type event =? SDL_KEYDOWN)%Z
  then <[to_input (Event.sym event) := true]> inputs
  else if (Event.type event =? SDL_KEYUP)%Z
  then <[to_input (Event.sym event) := false]> inputs
  else inputs.

(** [handle_input] on the events that [sdl2.ext.get_events] returned. *)
Definition handle_input (self : t) (events : list Event.t) : t :=
  mk (fold_left handle_event events (inputs self))
     (player self) (map self) (camera self).
End Game.

(** ** The game loop *)

(** The loop [for tick in range(last_tick + 1, new_tick + 1)] of [main],
    [n] ticks left, the next one being [tick]. *)
Fixpoint run_ticks (n : nat) (tick : Z) (game : Game.t) : result Game.t :=
  match n with
  | O => Ok game
  | S n' =>
      let* game := Game.tick game tick in
      run_ticks n' (tick + 1)%Z game
  end.

(** One turn of the loop of [main] up to the call of [render], for the
    events and the tick number that the turn reads from its environment. *)
Definition frame (game : Game.t) (last_tick : Z) (events : list Event.t)
    (new_tick : Z) : result Game.t :=
  let game := Game.handle_input game events in
  run_ticks (Z.to_nat (new_tick - last_tick)) (last_tick + 1)%Z game.

(** The loop of [main] over the successive turns' events and tick
    numbers; it returns the game and [last_tick] when QUIT is set or the
    turns are used up. *)
Fixpoint main_loop (frames : list (list Event.t * Z)) (game : Game.t)
    (last_tick : Z) : result (Game.t * Z) :=
  match frames with
  | [] => Ok (game, last_tick)
  | (events, new_tick) :: rest =>
      if Game.inputs game Input.QUIT then Ok (game, last_tick)
      else
        let* game := frame game last_tick events new_tick in
        main_loop rest game new_tick
  end.

(** ** The timer text and the tile sprites *)

Definition format_time (ticks : Z) : result string :=
  let* seconds := py_int_truediv ticks 50 in
  let* seconds := py_int seconds in
  let* minutes := py_int_truediv seconds 60 in
  let* mins := py_int minutes in
  let* seconds := py_int_truediv ticks 50 in
  let* seconds := py_int seconds in
  let* secs := py_mod seconds 60 in
  Ok (format_02 mins ++ ":" ++ format_02 secs)%string.

Definition format_time_exact (ticks : Z) : result string :=
  let* ticks_left := py_mod ticks 50 in
  let cents := (ticks_left * 2)%Z in
  let* time := format_time ticks in
  Ok (time ++ ":" ++ format_02 cents)%string.

Module Rect.
Record t := mk { x : Z; y : Z; w : Z; h : Z }.
End Rect.

Definition TILES_PER_ROW : Z := 16.

(** The sides of a tile as the integers that [TILE_SIZE] holds. *)
Definition TILE_WIDTH : Z := 64.
Definition TILE_HEIGHT : Z := 64.

(** The body of the loop of [render_map] for tile [tile_nr] at index [i]:
    the clip and destination rectangles passed to [renderer.copy], nothing
    for tile 0. *)
Definition render_tile (map : Map.t) (camera : Point2d.t) (i tile_nr : Z)
  : result (option (Rect.t * Rect.t)) :=
  if (tile_nr =? 0)%Z then Ok None
  else
    let* column := py_mod tile_nr TILES_PER_ROW in
    let clip_x := (column * TILE_WIDTH)%Z in
    let* row := py_int_truediv tile_nr TILES_PER_ROW in
    let* row := py_int row in
    let clip_y := (row * TILE_HEIGHT)%Z in
    let* column := py_mod i (Map.width map) in
    let* camera_x := py_int (Point2d.x camera) in
    let dest_x := (column * TILE_WIDTH - camera_x)%Z in
    let* row := py_int_truediv i (Map.width map) in
    let* row := py_int row in
    let* camera_y := py_int (Point2d.y camera) in
    let dest_y := (row * TILE_HEIGHT - camera_y)%Z in
    Ok (Some (Rect.mk clip_x clip_y TILE_WIDTH TILE_HEIGHT,
              Rect.mk dest_x dest_y TILE_WIDTH TILE_HEIGHT)).

(** The loop of [render_map] over [enumerate(map.tiles)] from index [i]
    on; the result lists the copies in the order they are issued. *)
Fixpoint render_tiles (map : Map.t) (camera : Point2d.t) (i : Z)
    (tiles : list Z) : result (list (Rect.t * Rect.t)) :=
  match tiles with
  | [] => Ok []
  | tile_nr :: rest =>
      let* copy := render_tile map camera i tile_nr in
      let* copies := render_tiles map camera (i + 1)%Z rest in
      Ok (match copy with
          | Some c => c :: copies
          | None => copies
          end)
  end.

Definition render_map (map : Map.t) (camera : Point2d.t)
  : result (list (Rect.t * Rect.t)) :=
  render_tiles map camera 0 (Map.tiles map).

(** ** A small map used for the worked examples *)

Definition demo_text : string :=
  ("0 0 0 0 0 0" ++ String newline
   "0 0 0 0 0 0" ++ String newline
   "0 78 5 0 110 0" ++ String newline
   "1 1 1 1 1 1" ++ String newline "")%string.

Definition demo_map : Map.t :=
  Map.mk [0; 0; 0; 0; 0; 0;
          0; 0; 0; 0; 0; 0;
          0; 78; 5; 0; 110; 0;
          1; 1; 1; 1; 1; 1]%Z 6 4.

(** * Properties *)

(** ** The error monad *)

Lemma bind_ok {A B} (m : result A) (f : A -> result B) (b : B) :
  bind m f = Ok b -> exists a, m = Ok a /\ f a = Ok b.
Proof. destruct m as [a|e]; simpl; [eauto | discriminate]. Qed.

Ltac bind_inv H :=
  let a := fresh "v" in
  let Ha := fresh "E" in
  apply bind_ok in H; destruct H as (a & Ha & H).

(** ** Velocity components are only ever zeroed by the resolver *)

Lemma elem_of_add_ne (r : gset Collision.t) a b :
  a <> b -> a ∈ r ∪ {[b]} -> a ∈ r.
Proof.
  intros Hne [H|H]%elem_of_union; [assumption|].
  apply elem_of_singleton in H. contradiction.
Qed.

Section Resolver.
Variables (self : Map.t) (size : Point2d.t) (fraction : float).

(** What one sub-step can do to the state, branch by branch. *)
Lemma sub_step_cases st st' :
  Map.sub_step self size fraction st = Ok st' ->
  let c := Map.candidate fraction st in
  let p := Map.pos_of st in
  let v := Map.vel_of st in
  let r := Map.result_of st in
  (Map.test_box self c size = Ok false /\ st' = Map.State r c v)
  \/ (Map.test_box self c size = Ok true /\
      exists hit_y hit_x,
        Map.test_box self (Point2d.mk (Point2d.x p) (Point2d.y c)) size = Ok hit_y /\
        Map.test_box self (Point2d.mk (Point2d.x c) (Point2d.y p)) size = Ok hit_x /\
        st' = match hit_y, hit_x with
              | true, true =>
                  Map.State (r ∪ {[Collision.Y]} ∪ {[Collision.X]}) p
                            (Point2d.mk 0 0)
              | true, false =>
                  Map.State (r ∪ {[Collision.Y]})
                            (Point2d.mk (Point2d.x c) (Point2d.y p))
                            (Point2d.mk (Point2d.x v) 0)
              | false, true =>
                  Map.State (r ∪ {[Collision.X]})
                            (Point2d.mk (Point2d.x p) (Point2d.y c))
                            (Point2d.mk 0 (Point2d.y v))
              | false, false =>
                  Map.State (r ∪ {[Collision.CORNER]}) p (Point2d.mk 0 0)
              end).
Proof.
  destruct st as [r [px py] [vx vy]]. unfold Map.sub_step. cbn zeta.
  intros H. bind_inv H. rewrite E. destruct v.
  - right. split; [reflexivity|].
    bind_inv H. cbn [Map.pos_of Point2d.x Point2d.y] in *.
    exists v. destruct v; cbn [Point2d.x Point2d.y] in H; bind_inv H;
      exists v; cbn [Map.vel_of Map.result_of Map.pos_of Point2d.x Point2d.y];
      (split; [assumption|]); (split; [assumption|]);
      destruct v; simpl in H; injection H as <-; reflexivity.
  - left. split; [reflexivity|]. simpl in H. injection H as <-. reflexivity.
Qed.

(** A recorded axis has a zero velocity component. *)
Definition zeroed (st : Map.state) : Prop :=
  (Collision.X ∈ Map.result_of st -> Point2d.x (Map.vel_of st) = 0%float)
  /\ (Collision.Y ∈ Map.result_of st -> Point2d.y (Map.vel_of st) = 0%float).

Lemma sub_step_zeroed st st' :
  Map.sub_step self size fraction st = Ok st' -> zeroed st -> zeroed st'.
Proof.
  intros H [Hx Hy]. apply sub_step_cases in H. cbn zeta in H.
  destruct H as [[_ ->] | [_ (hy & hx & _ & _ & ->)]].
  - split; assumption.
  - destruct hy, hx; split; cbn [Map.result_of Map.vel_of Point2d.x Point2d.y];
      intros Hin; try reflexivity.
    + apply Hx. eapply elem_of_add_ne; [|eassumption]. discriminate.
    + apply Hy. eapply elem_of_add_ne; [|eassumption]. discriminate.
Qed.

Lemma sub_steps_zeroed n st st' :
  Map.sub_steps self size fraction n st = Ok st' -> zeroed st -> zeroed st'.
Proof.
  revert st. induction n as [|n IH]; intros st H Hz; simpl in H.
  - congruence.
  - bind_inv H. eapply IH; [eassumption|]. eapply sub_step_zeroed; eassumption.
Qed.
End Resolver.

Lemma move_box_inv self pos vel size st :
  Map.move_box self pos vel size = Ok st ->
  st = Map.State ∅ pos vel
  \/ exists fraction n,
       Map.sub_steps self size fraction n (Map.State ∅ pos vel) = Ok st.
Proof.
  unfold Map.move_box. intros H. bind_inv H. bind_inv H.
  destruct (v <? 0)%float.
  - left. congruence.
  - right. bind_inv H. bind_inv H. eauto.
Qed.

(** C1: whenever [move_box] returns with axis X (resp. Y) in the set of
    axes hit, the X (resp. Y) component of the returned velocity is exactly
    zero, whichever sub-step recorded the hit. *)
Theorem move_box_zeroes_hit_axes self pos vel size st :
  Map.move_box self pos vel size = Ok st ->
  (Collision.X ∈ Map.result_of st -> Point2d.x (Map.vel_of st) = 0%float)
  /\ (Collision.Y ∈ Map.result_of st -> Point2d.y (Map.vel_of st) = 0%float).
Proof.
  intros H. apply move_box_inv in H. destruct H as [-> | (fraction & n & H)].
  - split; simpl; intros []%elem_of_empty.
  - eapply sub_steps_zeroed; [eassumption|].
    split; simpl; intros []%elem_of_empty.
Qed.

Lemma move_box_zeroes_hit_axes_witness :
  exists st,
    Map.move_box demo_map (Point2d.mk 100 150) (Vector2d 3 20) PLAYER_SIZE = Ok st
    /\ Collision.Y ∈ Map.result_of st
    /\ Point2d.y (Map.vel_of st) = 0%float.
Proof.
  eexists.
  assert (E : Map.move_box demo_map (Point2d.mk 100 150) (Vector2d 3 20)
                PLAYER_SIZE = Ok _) by (vm_compute; reflexivity).
  split; [exact E|].
  assert (Hin : Collision.Y ∈ (∅ ∪ {[Collision.Y]} : gset Collision.t))
    by (apply elem_of_union_r, elem_of_singleton; reflexivity).
  split; [exact Hin|].
  exact (proj2 (move_box_zeroes_hit_axes _ _ _ _ _ E) Hin).
Defined.

(** ** The corner case *)

(** A map with one solid tile, at column 2 of row 2. *)
Definition corner_map : Map.t :=
  Map.mk [0; 0; 0; 0;
          0; 0; 0; 0;
          0; 0; 1; 0;
          0; 0; 0; 0]%Z 4 4.

Lemma sub_step_corner self size fraction st :
  let c := Map.candidate fraction st in
  let p := Map.pos_of st in
  Map.test_box self c size = Ok true ->
  Map.test_box self (Point2d.mk (Point2d.x p) (Point2d.y c)) size = Ok false ->
  Map.test_box self (Point2d.mk (Point2d.x c) (Point2d.y p)) size = Ok false ->
  Map.sub_step self size fraction st
  = Ok (Map.State (Map.result_of st ∪ {[Collision.CORNER]}) p (Vector2d 0 0)).
Proof.
  destruct st as [r p v]. cbn zeta. cbn [Map.pos_of Map.result_of].
  intros Hc Hy Hx. unfold Map.sub_step.
  rewrite Hc. cbn [bind]. rewrite Hy. cbn [bind]. rewrite Hx. reflexivity.
Qed.

(** C2: a sub-step whose candidate overlaps solid while neither
    single-axis probe does records CORNER, keeps the position and sets the
    velocity to (0,0); and there is a call of [move_box] that returns
    exactly the set {CORNER}, the input position and the velocity (0,0). *)
Theorem corner_discards_motion :
  (forall self size fraction st,
      Map.test_box self (Map.candidate fraction st) size = Ok true ->
      Map.test_box self
        (Point2d.mk (Point2d.x (Map.pos_of st))
                    (Point2d.y (Map.candidate fraction st))) size = Ok false ->
      Map.test_box self
        (Point2d.mk (Point2d.x (Map.candidate fraction st))
                    (Point2d.y (Map.pos_of st))) size = Ok false ->
      exists st',
        Map.sub_step self size fraction st = Ok st'
        /\ Collision.CORNER ∈ Map.result_of st'
        /\ Map.pos_of st' = Map.pos_of st
        /\ Map.vel_of st' = Vector2d 0 0)
  /\ exists self pos vel size,
      Map.move_box self pos vel size
      = Ok (Map.State {[Collision.CORNER]} pos (Vector2d 0 0)).
Proof.
  split.
  - intros self size fraction st Hc Hy Hx. eexists.
    split; [apply sub_step_corner; assumption|].
    cbn [Map.result_of Map.pos_of Map.vel_of].
    split; [|split; reflexivity].
    apply elem_of_union_r, elem_of_singleton. reflexivity.
  - exists corner_map, (Point2d.mk 95 95), (Vector2d 1 1), PLAYER_SIZE.
    vm_compute. reflexivity.
Qed.

Lemma corner_discards_motion_witness :
  exists st',
    Map.sub_step corner_map PLAYER_SIZE 0.5
      (Map.State ∅ (Point2d.mk 95 95) (Vector2d 1 1)) = Ok st'
    /\ Collision.CORNER ∈ Map.result_of st'
    /\ Map.pos_of st' = Point2d.mk 95 95
    /\ Map.vel_of st' = Vector2d 0 0.
Proof.
  apply (proj1 corner_discards_motion corner_map PLAYER_SIZE 0.5%float
           (Map.State ∅ (Point2d.mk 95 95) (Vector2d 1 1)));
    vm_compute; reflexivity.
Defined.

(** ** Order facts on floats *)

Lemma SFcompare_antisym a b :
  SFcompare b a = option_map CompOpp (SFcompare a b).
Proof.
  destruct a as [sa|sa| |sa ma ea], b as [sb|sb| |sb mb eb]; simpl;
    try reflexivity; try (destruct sa; reflexivity);
    try (destruct sb; reflexivity); try (destruct sa, sb; reflexivity).
  destruct sa, sb; try reflexivity;
    rewrite (Z.compare_antisym ea eb);
    destruct (ea ?= eb)%Z; simpl; try reflexivity;
    rewrite (Pos.compare_cont_antisym ma mb Eq); simpl;
    destruct (Pos.compare_cont Eq ma mb); reflexivity.
Qed.

Definition is_nan (f : float) : Prop := Prim2SF f = S754_nan.

Lemma SFcompare_some a b :
  a <> S754_nan -> b <> S754_nan -> exists c, SFcompare a b = Some c.
Proof.
  destruct a, b; simpl; intros Ha Hb; try contradiction; eauto.
Qed.

(** On numbers, "not less than" is "greater or equal". *)
Lemma ltb_false_leb (a b : float) :
  ~ is_nan a -> ~ is_nan b -> (a <? b)%float = false -> (b <=? a)%float = true.
Proof.
  unfold is_nan. intros Ha Hb. rewrite ltb_spec, leb_spec. unfold SFltb, SFleb.
  rewrite (SFcompare_antisym (Prim2SF a) (Prim2SF b)).
  destruct (SFcompare_some _ _ Ha Hb) as [c ->]. destruct c; simpl; congruence.
Qed.

Lemma ltb_nan_l (a b : float) : is_nan a -> (a <? b)%float = false.
Proof. unfold is_nan. intros H. rewrite ltb_spec, H. reflexivity. Qed.

(** ** Kinematics: the horizontal speed clamp *)

Definition in_clamp (v : float) : Prop :=
  (-8 <=? v)%float = true /\ (v <=? 8)%float = true.

Lemma clamp_bounds v :
  let c := py_min (py_max v (-8)) 8 in is_nan c \/ in_clamp c.
Proof.
  cbn zeta. unfold py_max, py_min.
  destruct (v <? -8)%float eqn:E1.
  - right. vm_compute. split; reflexivity.
  - destruct (8 <? v)%float eqn:E2.
    + right. vm_compute. split; reflexivity.
    + assert (Hc : forall c : float, Prim2SF c <> S754_nan -> ~ is_nan c)
        by (intros c Hc; exact Hc).
      destruct (Prim2SF v) eqn:Ev; [right|right|left; exact Ev|right];
        (split; apply ltb_false_leb; try assumption; apply Hc;
         solve [rewrite Ev; discriminate | vm_compute; discriminate]).
Qed.

(** A NaN component makes the length NaN, and [int] rejects it. *)
Lemma move_box_nan_x self pos vel size :
  is_nan (Point2d.x vel) ->
  Map.move_box self pos vel size = Raise ValueError.
Proof.
  intros Hx. unfold Map.move_box, Point2d.len, py_sqrt.
  assert (Hs : is_nan (Point2d.x vel * Point2d.x vel + Point2d.y vel * Point2d.y vel)).
  { unfold is_nan in *. rewrite add_spec, mul_spec, Hx. reflexivity. }
  rewrite (ltb_nan_l _ _ Hs). cbn [bind].
  assert (Hq : is_nan (sqrt (Point2d.x vel * Point2d.x vel
                             + Point2d.y vel * Point2d.y vel))).
  { unfold is_nan in *. rewrite sqrt_spec, Hs. reflexivity. }
  unfold py_int. rewrite Hq. reflexivity.
Qed.

Section ResolverVelocity.
Variables (self : Map.t) (size : Point2d.t) (fraction : float) (vx : float).

(** The resolver keeps a velocity component or zeroes it. *)
Definition kept_or_zero (st : Map.state) : Prop :=
  Point2d.x (Map.vel_of st) = vx \/ Point2d.x (Map.vel_of st) = 0%float.

Lemma sub_step_kept_or_zero st st' :
  Map.sub_step self size fraction st = Ok st' ->
  kept_or_zero st -> kept_or_zero st'.
Proof.
  intros H Hk. apply sub_step_cases in H. cbn zeta in H.
  destruct H as [[_ ->] | [_ (hy & hx & _ & _ & ->)]].
  - exact Hk.
  - destruct hy, hx; unfold kept_or_zero in *;
      cbn [Map.vel_of Point2d.x]; auto.
Qed.

Lemma sub_steps_kept_or_zero n st st' :
  Map.sub_steps self size fraction n st = Ok st' ->
  kept_or_zero st -> kept_or_zero st'.
Proof.
  revert st. induction n as [|n IH]; intros st H Hk; simpl in H.
  - congruence.
  - bind_inv H. eapply IH; [eassumption|].
    eapply sub_step_kept_or_zero; eassumption.
Qed.
End ResolverVelocity.

Lemma move_box_vel_x self pos vel size st :
  Map.move_box self pos vel size = Ok st ->
  Point2d.x (Map.vel_of st) = Point2d.x vel
  \/ Point2d.x (Map.vel_of st) = 0%float.
Proof.
  intros H. apply move_box_inv in H. destruct H as [-> | (fraction & n & H)].
  - left. reflexivity.
  - eapply sub_steps_kept_or_zero in H; [exact H|]. left. reflexivity.
Qed.

Section ResolverVertical.
Variables (self : Map.t) (size : Point2d.t) (fraction : float) (vy : float).

Definition kept_or_zero_y (st : Map.state) : Prop :=
  Point2d.y (Map.vel_of st) = vy \/ Point2d.y (Map.vel_of st) = 0%float.

Lemma sub_step_kept_or_zero_y st st' :
  Map.sub_step self size fraction st = Ok st' ->
  kept_or_zero_y st -> kept_or_zero_y st'.
Proof.
  intros H Hk. apply sub_step_cases in H. cbn zeta in H.
  destruct H as [[_ ->] | [_ (hy & hx & _ & _ & ->)]].
  - exact Hk.
  - destruct hy, hx; unfold kept_or_zero_y in *;
      cbn [Map.vel_of Point2d.y]; auto.
Qed.

Lemma sub_steps_kept_or_zero_y n st st' :
  Map.sub_steps self size fraction n st = Ok st' ->
  kept_or_zero_y st -> kept_or_zero_y st'.
Proof.
  revert st. induction n as [|n IH]; intros st H Hk; simpl in H.
  - congruence.
  - bind_inv H. eapply IH; [eassumption|].
    eapply sub_step_kept_or_zero_y; eassumption.
Qed.
End ResolverVertical.

Lemma move_box_vel_y self pos vel size st :
  Map.move_box self pos vel size = Ok st ->
  Point2d.y (Map.vel_of st) = Point2d.y vel
  \/ Point2d.y (Map.vel_of st) = 0%float.
Proof.
  intros H. apply move_box_inv in H. destruct H as [-> | (fraction & n & H)].
  - left. reflexivity.
  - eapply sub_steps_kept_or_zero_y in H; [exact H|]. left. reflexivity.
Qed.

(** What a kinematics tick does, step by step. *)
Lemma physics_inv self self' :
  Game.physics self = Ok self' ->
  let player := if Game.inputs self Input.RESTART
                then Player.restart (Game.player self) else Game.player self in
  exists ground vx st,
    Map.on_ground (Game.map self) (Player.pos player) PLAYER_SIZE = Ok ground
    /\ Map.move_box (Game.map self) (Player.pos player)
         (Point2d.mk vx
            ((if Game.inputs self Input.JUMP && ground
              then (-21)%float else Point2d.y (Player.vel player)) + 0.75)%float)
         PLAYER_SIZE = Ok st
    /\ self' = Game.mk (Game.inputs self)
                 (Player.mk (Player.time player) (Map.pos_of st) (Map.vel_of st))
                 (Game.map self) (Game.camera self).
Proof.
  unfold Game.physics. intros H. cbn zeta.
  bind_inv H. bind_inv H. bind_inv H. injection H as <-.
  match type of E1 with
  | Map.move_box _ _ (Point2d.mk ?X ?Y) _ = _ =>
      exists v, X, v1; split; [exact E|]; split; [|reflexivity];
      replace (Point2d.mk X _) with (Point2d.mk X Y); [exact E1|];
      destruct (Game.inputs self Input.JUMP), v; reflexivity
  end.
Qed.

(** An airborne player falling at 30 units per tick, no key held. *)
Definition falling_game : Game.t :=
  Game.mk (fun _ => false)
          (Player.mk Time.__init__ (Point2d.mk 100 50) (Vector2d 0 30))
          demo_map (Point2d.mk 0 0).

(** A map of one air tile: nothing is ever hit. *)
Definition air_map : Map.t := Map.mk [0]%Z 1 1.

(** A player falling through it at 1000 units per tick, no key held. *)
Definition plunging_game : Game.t :=
  Game.mk (fun _ => false)
          (Player.mk Time.__init__ (Point2d.mk 100 50) (Vector2d 0 1000))
          air_map (Point2d.mk 0 0).

(** C5: after every kinematics tick, whatever the held inputs and the
    prior state, the horizontal velocity lies in [-8, 8]; the vertical
    velocity is not clamped: every tick ends with it at the velocity it
    started from (-21 on a jump from the ground, the player's own
    otherwise) plus 0.75, whatever its size, or at zero after a hit; a
    tick can end with it above 8, and above 1000. *)
Theorem physics_clamps_horizontal_speed :
  (forall self self',
      Game.physics self = Ok self' ->
      (-8 <=? Point2d.x (Player.vel (Game.player self')))%float = true
      /\ (Point2d.x (Player.vel (Game.player self')) <=? 8)%float = true)
  /\ (forall self self',
      Game.physics self = Ok self' ->
      let player := if Game.inputs self Input.RESTART
                    then Player.restart (Game.player self) else Game.player self in
      exists ground,
        Map.on_ground (Game.map self) (Player.pos player) PLAYER_SIZE = Ok ground
        /\ let before := if Game.inputs self Input.JUMP && ground
                         then (-21)%float else Point2d.y (Player.vel player) in
           Point2d.y (Player.vel (Game.player self')) = (before + 0.75)%float
           \/ Point2d.y (Player.vel (Game.player self')) = 0%float)
  /\ (exists self self',
      Game.physics self = Ok self'
      /\ (8 <? Point2d.y (Player.vel (Game.player self')))%float = true)
  /\ exists self self',
      Game.physics self = Ok self'
      /\ Point2d.y (Player.vel (Game.player self)) = 1000%float
      /\ Point2d.y (Player.vel (Game.player self')) = 1000.75%float.
Proof.
  split; [|split; [|split]].
  - intros self self' H. unfold Game.physics in H.
    bind_inv H. bind_inv H. bind_inv H. injection H as <-.
    cbn [Game.player Player.vel].
    match type of E1 with
    | Map.move_box _ _ (Point2d.mk ?c _) _ = _ =>
        destruct (move_box_vel_x _ _ _ _ _ E1) as [Hv|Hv];
        [|rewrite Hv; vm_compute; split; reflexivity];
        cbn [Point2d.x] in Hv; rewrite Hv
    end.
    match goal with
    | |- context [py_min (py_max ?v _) _] =>
        destruct (clamp_bounds v) as [Hn|Hc]; [|exact Hc]
    end.
    rewrite move_box_nan_x in E1; [discriminate | exact Hn].
  - intros self self' H. apply physics_inv in H. cbn zeta in H |- *.
    destruct H as (ground & vx & st & Hg & Hm & ->).
    exists ground. split; [exact Hg|].
    cbn [Game.player Player.vel].
    exact (move_box_vel_y _ _ _ _ _ Hm).
  - exists falling_game. eexists. split; vm_compute; reflexivity.
  - exists plunging_game. eexists. split; [|split]; vm_compute; reflexivity.
Qed.

Lemma physics_clamps_horizontal_speed_witness :
  exists self',
    Game.physics falling_game = Ok self'
    /\ (-8 <=? Point2d.x (Player.vel (Game.player self')))%float = true
    /\ (Point2d.x (Player.vel (Game.player self')) <=? 8)%float = true
    /\ Point2d.y (Player.vel (Game.player self')) = 30.75%float.
Proof.
  eexists.
  assert (E : Game.physics falling_game = Ok _) by (vm_compute; reflexivity).
  split; [exact E|].
  destruct (proj1 physics_clamps_horizontal_speed _ _ E) as [H1 H2].
  split; [exact H1|]. split; [exact H2|].
  destruct (proj1 (proj2 physics_clamps_horizontal_speed) _ _ E) as (ground & Hg & Hv).
  vm_compute in Hg. injection Hg as <-.
  destruct Hv as [Hv|Hv]; [exact Hv|].
  vm_compute in Hv. discriminate.
Defined.

(** ** The lap timer *)

Lemma logic_inv self tick self' :
  Game.logic self tick = Ok self' ->
  exists tile,
    Map.get_tile (Game.map self) (Player.pos (Game.player self)) = Ok tile
    /\ self' = Game.mk (Game.inputs self)
                 (Player.mk (Game.lap (Player.time (Game.player self)) tile tick)
                            (Player.pos (Game.player self))
                            (Player.vel (Game.player self)))
                 (Game.map self) (Game.camera self).
Proof.
  unfold Game.logic. intros H. bind_inv H. injection H as <-. eauto.
Qed.

(** A game whose player stands on the FINISH tile of [demo_map] with a lap
    started at tick 100. *)
Definition finishing_game : Game.t :=
  Game.mk (fun _ => false)
          (Player.mk (Time.mk 100 (-1) (-1)) (Point2d.mk 288 160) (Vector2d 0 0))
          demo_map (Point2d.mk 0 0).

(** C6: [logic] applies the lap transition once, to the tile under the
    player's current position.  On START the start tick becomes the current
    tick, whatever the state; on FINISH with a running lap the finish time
    is the tick difference, the start tick is reset to -1 and best is
    replaced exactly when it is unset or beaten; on FINISH without a running
    lap, and on any other tile, nothing changes. *)
Theorem lap_timer_transition (player_time : Time.t) (tile tick : Z) :
  let after := Game.lap player_time tile tick in
  let lastFinish := (tick - Time.begin player_time)%Z in
  (forall self self',
      Game.logic self tick = Ok self' ->
      exists tile',
        Map.get_tile (Game.map self) (Player.pos (Game.player self)) = Ok tile'
        /\ Player.time (Game.player self')
           = Game.lap (Player.time (Game.player self)) tile' tick)
  /\ (tile = START ->
      after = Time.mk tick (Time.finish player_time) (Time.best player_time))
  /\ (tile = FINISH -> (Time.begin player_time >= 0)%Z ->
      Time.finish after = lastFinish
      /\ Time.begin after = (-1)%Z
      /\ ((Time.best player_time < 0 \/ lastFinish < Time.best player_time)%Z ->
          Time.best after = lastFinish)
      /\ (~ (Time.best player_time < 0 \/ lastFinish < Time.best player_time)%Z ->
          Time.best after = Time.best player_time))
  /\ (tile = FINISH -> (Time.begin player_time < 0)%Z -> after = player_time)
  /\ (tile <> START -> tile <> FINISH -> after = player_time).
Proof.
  cbn zeta. split; [|split; [|split; [|split]]].
  - intros self self' H. apply logic_inv in H. destruct H as (tile' & E & ->).
    exists tile'. split; [exact E | reflexivity].
  - intros ->. reflexivity.
  - intros -> Hb. unfold Game.lap. cbn [Z.eqb FINISH START Pos.eqb].
    destruct (Z.geb_spec (Time.begin player_time) 0) as [_|]; [|lia].
    destruct (Z.ltb_spec (Time.best player_time) 0) as [Hn|Hn];
      destruct (Z.ltb_spec (tick - Time.begin player_time)
                  (Time.best player_time)) as [Hl|Hl];
      cbn [orb Time.finish Time.begin Time.best];
      (split; [reflexivity|]); (split; [reflexivity|]);
      split; intros; try reflexivity; lia.
  - intros -> Hb. unfold Game.lap. cbn [Z.eqb FINISH START Pos.eqb].
    destruct (Z.geb_spec (Time.begin player_time) 0); [lia | reflexivity].
  - intros Hs Hf. unfold Game.lap.
    destruct (Z.eqb_spec tile START); [contradiction|].
    destruct (Z.eqb_spec tile FINISH); [contradiction|]. reflexivity.
Qed.

Lemma lap_timer_transition_witness :
  exists self',
    Game.logic finishing_game 350 = Ok self'
    /\ Time.finish (Player.time (Game.player self')) = 250%Z
    /\ Time.begin (Player.time (Game.player self')) = (-1)%Z
    /\ Time.best (Player.time (Game.player self')) = 250%Z.
Proof.
  eexists.
  assert (E : Game.logic finishing_game 350 = Ok _) by (vm_compute; reflexivity).
  split; [exact E|].
  destruct (lap_timer_transition (Time.mk 100 (-1) (-1)) FINISH 350)
    as (Hlogic & _ & Hfin & _).
  destruct (Hlogic _ _ E) as (tile' & Htile & Htime).
  assert (tile' = FINISH) as ->
    by (vm_compute in Htile; injection Htile as <-; reflexivity).
  cbn [Game.player Player.time] in *.
  destruct (Hfin eq_refl ltac:(simpl; lia)) as (H1 & H2 & H3 & _).
  split; [exact H1|]. split; [exact H2|].
  apply H3. left. simpl. lia.
Defined.

(** ** Restart *)

(** A game in mid-run with RESTART held. *)
Definition restarting_game : Game.t :=
  Game.mk (fun i => match i with Input.RESTART => true | _ => false end)
          (Player.mk (Time.mk 100 40 35) (Point2d.mk 250 90) (Vector2d 3 7))
          demo_map (Point2d.mk 0 0).

(** C7: whatever the body and the lap timer, restarting puts the player at
    exactly (170, 500) with velocity (0, 0) and start and finish ticks -1,
    and leaves the best time unchanged; [physics] does so first when RESTART
    is held. *)
Theorem restart_resets_player (p : Player.t) :
  Player.pos (Player.restart p) = Point2d.mk 170 500
  /\ Player.vel (Player.restart p) = Vector2d 0 0
  /\ Time.begin (Player.time (Player.restart p)) = (-1)%Z
  /\ Time.finish (Player.time (Player.restart p)) = (-1)%Z
  /\ Time.best (Player.time (Player.restart p)) = Time.best (Player.time p)
  /\ forall self,
      Game.player self = p ->
      Game.inputs self Input.RESTART = true ->
      Game.physics self
      = Game.physics (Game.mk (Game.inputs self) (Player.restart p)
                        (Game.map self) (Game.camera self)).
Proof.
  repeat (split; [reflexivity|]).
  intros self <- Hr. unfold Game.physics. cbn [Game.inputs Game.player Game.map Game.camera].
  rewrite Hr. reflexivity.
Qed.

Lemma restart_resets_player_witness :
  Game.physics restarting_game
  = Game.physics (Game.mk (Game.inputs restarting_game)
                    (Player.restart (Game.player restarting_game))
                    demo_map (Point2d.mk 0 0)).
Proof.
  exact (proj2 (proj2 (proj2 (proj2 (proj2
           (restart_resets_player (Game.player restarting_game))))))
           restarting_game eq_refl eq_refl).
Defined.

(** ** Binary64 rounding of exact values

    The conversions between integers and floats that the tile queries and
    the resolver perform are exact; this section derives that from the
    specification of the float operations. *)

Section Binary64.
Local Open Scope Z_scope.

Lemma fexp_eq e : fexp prec emax e = Z.max (e - 53) (-1074).
Proof. reflexivity. Qed.

Lemma iter_pos_nat {A} (f : A -> A) p x :
  SpecFloat.iter_pos f p x = Nat.iter (Pos.to_nat p) f x.
Proof.
  revert x. induction p as [p IH|p IH|]; intros x; cbn [SpecFloat.iter_pos].
  - rewrite !IH, Pos2Nat.inj_xI, <- Nat.iter_add, <- Nat.iter_succ_r.
    f_equal. lia.
  - rewrite !IH, Pos2Nat.inj_xO, <- Nat.iter_add. f_equal. lia.
  - reflexivity.
Qed.

Lemma shr_1_nonneg m r s :
  0 <= m -> shr_1 (Build_shr_record m r s)
            = Build_shr_record (m / 2) (Z.odd m) (r || s).
Proof.
  intros Hm. rewrite <- Z.div2_div.
  destruct m as [|[p|p|]|]; try reflexivity; lia.
Qed.

Lemma shr_iter m n :
  0 <= m ->
  Nat.iter (S n) shr_1 (Build_shr_record m false false)
  = Build_shr_record (m / 2 ^ Z.of_nat (S n)) (Z.testbit m (Z.of_nat n))
      (negb (m mod 2 ^ Z.of_nat n =? 0)).
Proof.
  intros Hm. induction n as [|n IH].
  - change (Nat.iter 1 shr_1 ?x) with (shr_1 x).
    rewrite shr_1_nonneg by assumption.
    change (2 ^ Z.of_nat 1) with 2. change (2 ^ Z.of_nat 0) with 1.
    rewrite Z.mod_1_r, Z.bit0_odd. reflexivity.
  - change (Nat.iter (S (S n)) shr_1 ?x) with (shr_1 (Nat.iter (S n) shr_1 x)).
    rewrite IH, shr_1_nonneg by (apply Z.div_pos; lia).
    assert (H2 : 0 < 2 ^ Z.of_nat n) by (apply Z.pow_pos_nonneg; lia).
    f_equal.
    + rewrite Z.div_div by lia. f_equal.
      rewrite (Nat2Z.inj_succ (S n)), Z.pow_succ_r by lia. apply Z.mul_comm.
    + rewrite (Nat2Z.inj_succ n), <- Z.bit0_odd, <- Z.shiftr_div_pow2 by lia.
      rewrite Z.shiftr_spec by lia. f_equal; lia.
    + rewrite (Nat2Z.inj_succ n), Z.pow_succ_r by lia.
      rewrite (Z.mul_comm 2), Z.rem_mul_r by lia.
      pose proof (Z.testbit_spec' m (Z.of_nat n) ltac:(lia)) as Hb.
      rewrite <- Hb.
      pose proof (Z.mod_pos_bound m (2 ^ Z.of_nat n) H2) as Hr.
      destruct (Z.testbit m (Z.of_nat n)); simpl Z.b2z; simpl orb.
      * symmetry. apply negb_true_iff, Z.eqb_neq. lia.
      * f_equal. f_equal. lia.
Qed.

Lemma digits2_pos_bounds p :
  2 ^ (Zpos (digits2_pos p) - 1) <= Zpos p < 2 ^ Zpos (digits2_pos p).
Proof.
  induction p as [p IH|p IH|]; cbn [digits2_pos].
  - rewrite Pos2Z.inj_succ, Z.pow_succ_r by lia.
    replace (Z.succ (Zpos (digits2_pos p)) - 1)
      with (Z.succ (Zpos (digits2_pos p) - 1)) by lia.
    rewrite Z.pow_succ_r by lia. lia.
  - rewrite Pos2Z.inj_succ, Z.pow_succ_r by lia.
    replace (Z.succ (Zpos (digits2_pos p)) - 1)
      with (Z.succ (Zpos (digits2_pos p) - 1)) by lia.
    rewrite Z.pow_succ_r by lia. lia.
  - simpl. lia.
Qed.

Lemma digits2_pos_unique p d :
  2 ^ (d - 1) <= Zpos p < 2 ^ d -> Zpos (digits2_pos p) = d.
Proof.
  intros [Hl Hu]. pose proof (digits2_pos_bounds p) as [Hl' Hu'].
  assert (0 < d).
  { destruct (Z.ltb_spec 0 d) as [|Hd]; [assumption|].
    rewrite (Z.pow_neg_r 2 (d - 1)) in Hl by lia.
    destruct (Z.eq_dec d 0) as [->|]; [simpl in Hu; lia|].
    rewrite Z.pow_neg_r in Hu by lia. lia. }
  destruct (Z.lt_trichotomy (Zpos (digits2_pos p)) d) as [Hlt|[Heq|Hgt]];
    [|assumption|].
  - assert (2 ^ Zpos (digits2_pos p) <= 2 ^ (d - 1))
      by (apply Z.pow_le_mono_r; lia). lia.
  - assert (2 ^ d <= 2 ^ (Zpos (digits2_pos p) - 1))
      by (apply Z.pow_le_mono_r; lia). lia.
Qed.

Lemma iter_xO_value p k : Zpos (Pos.iter xO p k) = Zpos p * 2 ^ Zpos k.
Proof.
  induction k as [|k IH] using Pos.peano_ind.
  - simpl. lia.
  - rewrite Pos.iter_succ, Pos2Z.inj_xO, IH, Pos2Z.inj_succ, Z.pow_succ_r by lia.
    lia.
Qed.

Lemma digits2_pos_shift p k :
  Zpos (digits2_pos (Pos.iter xO p k)) = Zpos (digits2_pos p) + Zpos k.
Proof.
  induction k as [|k IH] using Pos.peano_ind.
  - simpl. lia.
  - rewrite Pos.iter_succ. cbn [digits2_pos]. lia.
Qed.

(** A mantissa that already sits at its canonical exponent is kept. *)
Lemma binary_round_aux_canonical s m e :
  fexp prec emax (Zpos (digits2_pos m) + e) <= e -> e <= 971 ->
  binary_round_aux prec emax s (Zpos m) e loc_Exact = S754_finite s m e.
Proof.
  intros Hf He. unfold binary_round_aux, shr_fexp. cbn [Zdigits2].
  assert (Hs : forall l, shr (shr_record_of_loc (Zpos m) l) e
                 (fexp prec emax (Zpos (digits2_pos m) + e) - e)
               = (shr_record_of_loc (Zpos m) l, e)).
  { intros l. unfold shr.
    destruct (fexp prec emax (Zpos (digits2_pos m) + e) - e) eqn:E;
      try reflexivity; lia. }
  specialize (Hs loc_Exact). cbn [shr_record_of_loc] in *.
  rewrite Hs. cbn [shr_m loc_of_shr_record round_nearest_even Zdigits2].
  rewrite Hs. cbn [shr_m].
  destruct (Z.leb_spec e (emax - prec)) as [|Hgt]; [reflexivity|].
  change (emax - prec) with 971 in Hgt. lia.
Qed.

(** Conversion of an integer that fits the 53-bit mantissa. *)
Lemma binary_round_small s p :
  Zpos (digits2_pos p) <= 53 ->
  exists m e,
    binary_round prec emax s p 0 = S754_finite s m e
    /\ Zpos (digits2_pos m) = 53 /\ e = Zpos (digits2_pos p) - 53
    /\ Zpos m = Zpos p * 2 ^ (- e).
Proof.
  intros Hd. unfold binary_round, shl_align. rewrite fexp_eq.
  set (d := Zpos (digits2_pos p)) in *.
  assert (Hd0 : 0 < d) by (unfold d; lia).
  replace (Z.max (d + 0 - 53) (-1074)) with (d - 53) by lia.
  destruct (d - 53 - 0) as [|k|k] eqn:E; [|lia|].
  - exists p, 0. assert (d = 53) by lia.
    rewrite binary_round_aux_canonical;
      [|fold d; rewrite fexp_eq; lia | lia].
    repeat split; lia.
  - exists (Pos.iter xO p k), (d - 53).
    assert (Hk : Zpos k = 53 - d) by lia.
    rewrite binary_round_aux_canonical;
      [|rewrite digits2_pos_shift, fexp_eq; fold d; lia | lia].
    rewrite digits2_pos_shift, iter_xO_value. fold d.
    repeat split; try lia. f_equal. f_equal. lia.
Qed.

(** Conversion of a 53-bit mantissa scaled by a power of two. *)
Lemma binary_round_scaled s m k :
  Zpos (digits2_pos m) = 53 -> Zpos k <= 971 ->
  binary_round prec emax s (Pos.iter xO m k) 0 = S754_finite s m (Zpos k).
Proof.
  intros Hd Hk. unfold binary_round, shl_align.
  rewrite digits2_pos_shift, Hd, fexp_eq.
  replace (Z.max (53 + Zpos k + 0 - 53) (-1074) - 0) with (Zpos k) by lia.
  unfold binary_round_aux, shr_fexp at 1. cbn [Zdigits2].
  rewrite digits2_pos_shift, Hd, fexp_eq.
  replace (Z.max (53 + Zpos k + 0 - 53) (-1074) - 0) with (Zpos k) by lia.
  unfold shr. cbn [shr_record_of_loc]. rewrite iter_pos_nat.
  destruct (Pos2Nat.is_succ k) as [n Hn]. rewrite Hn.
  rewrite shr_iter by lia.
  assert (HZ : Z.of_nat (S n) = Zpos k) by lia.
  assert (Hn' : Z.of_nat n = Zpos k - 1) by lia.
  rewrite HZ, Hn', iter_xO_value.
  rewrite Z.div_mul by (apply Z.pow_nonzero; lia).
  assert (Hbit : Z.testbit (Zpos m * 2 ^ Zpos k) (Zpos k - 1) = false).
  { rewrite Z.mul_pow2_bits_low by lia. reflexivity. }
  assert (Hmod : Zpos m * 2 ^ Zpos k mod 2 ^ (Zpos k - 1) = 0).
  { replace (Zpos k) with (Z.succ (Zpos k - 1)) at 1 by lia.
    rewrite Z.pow_succ_r by lia.
    replace (Zpos m * (2 * 2 ^ (Zpos k - 1))) with (Zpos m * 2 * 2 ^ (Zpos k - 1)) by lia.
    apply Z.mod_mul. apply Z.pow_nonzero; lia. }
  rewrite Hbit, Hmod. cbn [Z.eqb negb shr_m loc_of_shr_record round_nearest_even].
  unfold shr_fexp. cbn [Zdigits2]. rewrite Hd, fexp_eq.
  replace (Z.max (53 + (0 + Zpos k) - 53) (-1074) - (0 + Zpos k)) with 0 by lia.
  cbn [shr shr_record_of_loc shr_m].
  destruct (Z.leb_spec (0 + Zpos k) (emax - prec)) as [|Hgt]; [reflexivity|].
  change (emax - prec) with 971 in Hgt. lia.
Qed.

(** The integer [p] written with mantissa [m] and exponent [e]. *)
Definition represents (m : positive) (e : Z) (p : positive) : Prop :=
  Zpos m * 2 ^ Z.max e 0 = Zpos p * 2 ^ Z.max (- e) 0.

(** Integers that are binary64 numbers: at most 53 significant bits. *)
Definition representable (p : positive) : Prop :=
  Zpos (digits2_pos p) <= 53
  \/ exists m k, p = Pos.iter xO m k /\ Zpos (digits2_pos m) = 53 /\ Zpos k <= 971.

Lemma binary_round_representable s p :
  representable p ->
  exists m e,
    binary_round prec emax s p 0 = S754_finite s m e
    /\ Zpos (digits2_pos m) = 53 /\ -52 <= e <= 971 /\ represents m e p.
Proof.
  intros [Hd | (m & k & -> & Hd & Hk)].
  - destruct (binary_round_small s p Hd) as (m & e & E & Hm & He & Hv).
    exists m, e. split; [exact E|]. split; [exact Hm|].
    pose proof (Pos2Z.is_pos (digits2_pos p)).
    split; [lia|]. unfold represents.
    replace (Z.max e 0) with 0 by lia. replace (Z.max (- e) 0) with (- e) by lia.
    rewrite Hv. simpl (2 ^ 0). lia.
  - exists m, (Zpos k). split; [apply binary_round_scaled; assumption|].
    split; [exact Hd|]. split; [lia|]. unfold represents.
    rewrite iter_xO_value.
    replace (Z.max (Zpos k) 0) with (Zpos k) by lia.
    replace (Z.max (- Zpos k) 0) with 0 by lia. simpl (2 ^ 0). lia.
Qed.

Lemma valid_normal s m e :
  Zpos (digits2_pos m) = 53 -> -1074 <= e <= 971 ->
  valid_binary (S754_finite s m e) = true.
Proof.
  intros Hd He. unfold valid_binary, bounded, canonical_mantissa.
  rewrite Hd, fexp_eq. apply andb_true_intro. split.
  - apply Z.eqb_eq. lia.
  - apply Z.leb_le. change (emax - prec) with 971. lia.
Qed.

Lemma binary_normalize_signed s p :
  binary_normalize prec emax (cond_Zopp s (Zpos p)) 0 false
  = binary_round prec emax s p 0.
Proof. destruct s; reflexivity. Qed.

Lemma py_float_representable s p :
  representable p ->
  exists fx m e,
    py_float (cond_Zopp s (Zpos p)) = Ok fx
    /\ Prim2SF fx = S754_finite s m e
    /\ Zpos (digits2_pos m) = 53 /\ -52 <= e <= 971 /\ represents m e p.
Proof.
  intros Hr. destruct (binary_round_representable s p Hr) as (m & e & E & Hd & He & Hv).
  exists (SF2Prim (S754_finite s m e)), m, e.
  unfold py_float. rewrite binary_normalize_signed, E.
  split; [reflexivity|]. split; [|auto].
  apply Prim2SF_SF2Prim, valid_normal; [assumption | lia].
Qed.

Lemma valid_finite (f : float) s m e :
  Prim2SF f = S754_finite s m e ->
  fexp prec emax (Zpos (digits2_pos m) + e) = e /\ e <= 971.
Proof.
  intros E. pose proof (Prim2SF_valid f) as H. rewrite E in H.
  unfold valid_binary, bounded, canonical_mantissa in H.
  apply andb_prop in H. destruct H as [H1 H2].
  apply Z.eqb_eq in H1. apply Z.leb_le in H2.
  change (emax - prec) with 971 in H2. auto.
Qed.

Lemma shiftl_pos m k : Z.shiftl (Zpos m) (Zpos k) = Zpos (Pos.iter xO m k).
Proof. rewrite Z.shiftl_mul_pow2, iter_xO_value by lia. reflexivity. Qed.

Lemma digits2_pos_le p b : 0 <= b -> Zpos p < 2 ^ b -> Zpos (digits2_pos p) <= b.
Proof.
  intros Hb Hp. pose proof (digits2_pos_bounds p) as [Hl _].
  destruct (Z.leb_spec (Zpos (digits2_pos p)) b) as [|Hgt]; [assumption|].
  assert (2 ^ b <= 2 ^ (Zpos (digits2_pos p) - 1))
    by (apply Z.pow_le_mono_r; lia). lia.
Qed.

(** Rounding a float with a fraction gives less than [2^53]. *)
Lemma round_half_even_fraction m k :
  Zpos (digits2_pos m) <= 53 ->
  0 <= round_half_even m (Zneg k) < 2 ^ 53.
Proof.
  intros Hd. unfold round_half_even.
  pose proof (digits2_pos_bounds m) as [_ Hu].
  assert (Hm : Zpos m < 2 ^ 53).
  { eapply Z.lt_le_trans; [exact Hu|]. apply Z.pow_le_mono_r; lia. }
  rewrite Z.shiftr_div_pow2 by lia.
  assert (H2 : 2 <= 2 ^ Zpos k).
  { change 2 with (2 ^ 1) at 1. apply Z.pow_le_mono_r; lia. }
  assert (Hq : 0 <= Zpos m / 2 ^ Zpos k < 2 ^ 52).
  { split; [apply Z.div_pos; lia|].
    apply Z.div_lt_upper_bound; [lia|].
    change (2 ^ 53) with (2 * 2 ^ 52) in Hm. nia. }
  change (2 ^ 53) with (2 * 2 ^ 52).
  destruct (2 * Z.land (Zpos m) (Z.ones (Zpos k)) ?= Z.shiftl 1 (Zpos k));
    [destruct (Z.even _)| |]; lia.
Qed.

Lemma py_round_representable (f : float) X :
  py_round f = Ok X ->
  X = 0 \/ exists s p, X = cond_Zopp s (Zpos p) /\ representable p.
Proof.
  unfold py_round. destruct (Prim2SF f) as [s|s| |s m e] eqn:E; try discriminate.
  - intros H. injection H as <-. left. reflexivity.
  - intros H. injection H as <-.
    destruct (valid_finite f s m e E) as [Hc He]. rewrite fexp_eq in Hc.
    destruct e as [|k|k].
    + right. exists s, m. split; [reflexivity|]. left. lia.
    + right. exists s, (Pos.iter xO m k). cbn [round_half_even].
      rewrite shiftl_pos. split; [reflexivity|].
      right. exists m, k. repeat split; lia.
    + assert (Hd : Zpos (digits2_pos m) <= 53) by lia.
      pose proof (round_half_even_fraction m k Hd) as Hr.
      destruct (round_half_even m (Zneg k)) as [|p|p] eqn:Er; [|right|lia].
      * left. destruct s; reflexivity.
      * exists s, p. split; [reflexivity|]. left.
        apply digits2_pos_le; lia.
Qed.

(** Dividing a normal number by the tile size moves its exponent. *)
Lemma SFdiv_tile_size s m e :
  Zpos (digits2_pos m) = 53 -> -1067 <= e <= 971 ->
  SFdiv prec emax (S754_finite s m e) (Prim2SF 64) = S754_finite s m (e - 6).
Proof.
  intros Hd He.
  change (Prim2SF 64) with (S754_finite false 4503599627370496 (-46)).
  unfold SFdiv, SFdiv_core_binary. cbn [Zdigits2]. rewrite Hd.
  change (Zpos (digits2_pos 4503599627370496)) with 53.
  rewrite fexp_eq.
  replace (Z.min (Z.max (53 + e - (53 + -46) - 53) (-1074)) (e - -46))
    with (e - 7) by lia.
  replace (e - -46 - (e - 7)) with 53 by lia.
  assert (Hq : Z.div_eucl (Z.shiftl (Zpos m) 53) 4503599627370496
               = (Zpos m~0, 0)).
  { rewrite Z.shiftl_mul_pow2 by lia.
    pose proof (Z.div_eucl_eq (Zpos m * 2 ^ 53) 4503599627370496 ltac:(lia)) as Hdm.
    pose proof (Z.mod_pos_bound (Zpos m * 2 ^ 53) 4503599627370496 ltac:(lia)) as Hb.
    unfold Z.modulo in Hb.
    destruct (Z.div_eucl (Zpos m * 2 ^ 53) 4503599627370496) as [q r].
    change (2 ^ 53) with 9007199254740992 in *.
    assert (q = Zpos m~0 /\ r = 0) as [-> ->] by lia. reflexivity. }
  rewrite Hq. cbn [xorb]. rewrite xorb_false_r.
  change (new_location 4503599627370496 0) with loc_Exact.
  unfold binary_round_aux, shr_fexp at 1. cbn [Zdigits2 digits2_pos].
  rewrite Pos2Z.inj_succ, Hd, fexp_eq.
  replace (Z.max (Z.succ 53 + (e - 7) - 53) (-1074) - (e - 7)) with 1 by lia.
  cbn [shr shr_record_of_loc SpecFloat.iter_pos shr_1 shr_m loc_of_shr_record
         round_nearest_even orb].
  unfold shr_fexp. cbn [Zdigits2]. rewrite Hd, fexp_eq.
  replace (Z.max (53 + (e - 7 + 1) - 53) (-1074) - (e - 7 + 1)) with 0 by lia.
  cbn [shr shr_record_of_loc shr_m].
  destruct (Z.leb_spec (e - 7 + 1) (emax - prec)) as [|Hgt].
  - f_equal. lia.
  - change (emax - prec) with 971 in Hgt. lia.
Qed.

(** Truncating the tile-size quotient of an integer-valued float. *)
Lemma truncate_quotient m e p :
  represents m e p -> truncate m (e - 6) = Zpos p / 64.
Proof.
  unfold represents, truncate. intros Hv.
  destruct (e - 6) as [|k|k] eqn:Ek.
  - assert (e = 6) as -> by lia. cbn [Z.shiftl Pos.iter] in *.
    change (Z.max 6 0) with 6 in Hv. change (Z.max (- 6) 0) with 0 in Hv.
    change (2 ^ 6) with 64 in Hv. change (2 ^ 0) with 1 in Hv.
    rewrite Z.mul_1_r in Hv. rewrite <- Hv, Z.div_mul, Z.shiftl_0_r; lia.
  - assert (He : e = Zpos k + 6) by lia. subst e.
    replace (Z.max (Zpos k + 6) 0) with (Zpos k + 6) in Hv by lia.
    replace (Z.max (- (Zpos k + 6)) 0) with 0 in Hv by lia.
    rewrite Z.pow_add_r in Hv by lia.
    change (2 ^ 6) with 64 in Hv. change (2 ^ 0) with 1 in Hv.
    rewrite Z.mul_1_r in Hv. rewrite Z.shiftl_mul_pow2, <- Hv by lia.
    rewrite Z.mul_assoc, Z.div_mul; lia.
  - rewrite Z.shiftr_div_pow2 by lia.
    assert (H2 : forall a, 0 <= a -> 0 < 2 ^ a) by (intros; apply Z.pow_pos_nonneg; lia).
    destruct (Z.leb_spec e 0) as [Hle|Hgt].
    + replace (Z.max e 0) with 0 in Hv by lia.
      replace (Z.max (- e) 0) with (- e) in Hv by lia.
      change (2 ^ 0) with 1 in Hv. rewrite Z.mul_1_r in Hv. rewrite Hv.
      replace (Zpos k) with (6 + - e) by lia.
      rewrite Z.pow_add_r by lia. change (2 ^ 6) with 64.
      pose proof (H2 (- e) ltac:(lia)).
      rewrite Z.div_mul_cancel_r; lia.
    + replace (Z.max e 0) with e in Hv by lia.
      replace (Z.max (- e) 0) with 0 in Hv by lia.
      change (2 ^ 0) with 1 in Hv. rewrite Z.mul_1_r in Hv. rewrite <- Hv.
      replace 64 with (2 ^ Zpos k * 2 ^ e).
      2:{ rewrite <- Z.pow_add_r by lia. replace (Zpos k + e) with 6 by lia.
          reflexivity. }
      pose proof (H2 e ltac:(lia)). pose proof (H2 (Zpos k) ltac:(lia)).
      rewrite Z.div_mul_cancel_r; lia.
Qed.

Lemma quot_cond_Zopp s p : Z.quot (cond_Zopp s (Zpos p)) 64 = cond_Zopp s (Zpos p / 64).
Proof.
  destruct s; cbn [cond_Zopp].
  - rewrite Z.quot_opp_l, Z.quot_div_nonneg by lia. reflexivity.
  - apply Z.quot_div_nonneg; lia.
Qed.

(** The column (row) index that [__get_tile] derives from a rounded
    coordinate is its quotient by 64, truncated towards zero. *)
Lemma tile_index_exact X :
  X = 0 \/ (exists s p, X = cond_Zopp s (Zpos p) /\ representable p) ->
  (let* fx := py_float X in py_int (fx / 64)) = Ok (Z.quot X 64).
Proof.
  intros [-> | (s & p & -> & Hr)].
  - vm_compute. reflexivity.
  - destruct (py_float_representable s p Hr) as (fx & m & e & E & Efx & Hd & He & Hv).
    rewrite E. cbn [bind]. unfold py_int.
    rewrite div_spec, Efx. unfold SF64div.
    rewrite SFdiv_tile_size by (assumption || lia).
    rewrite (truncate_quotient m e p Hv), quot_cond_Zopp. reflexivity.
Qed.
End Binary64.

(** ** Tile queries *)

Section TileQueries.
Local Open Scope Z_scope.

(** The grid index [__get_tile] clamps a cell quotient to. *)
Definition clamp (q n : Z) : Z := Z.min (Z.max q 0) (n - 1).

(** The position in [tiles] that a query at rounded coordinates reads. *)
Definition tile_pos (self : Map.t) (X Y : Z) : Z :=
  clamp (Z.quot Y 64) (Map.height self) * Map.width self
  + clamp (Z.quot X 64) (Map.width self).

(** The solidity test of [__is_solid] on a tile id. *)
Definition solid (tile : Z) : bool :=
  negb ((tile =? AIR) || (tile =? START) || (tile =? FINISH)).

(** A grid with at least one cell whose [tiles] hold [height] rows of
    [width] ids. *)
Definition nonempty_grid (self : Map.t) : Prop :=
  0 < Map.width self /\ 0 < Map.height self
  /\ Z.of_nat (length (Map.tiles self)) = Map.width self * Map.height self.

Lemma get_tile_rounded self pos X Y :
  py_round (Point2d.x pos) = Ok X ->
  py_round (Point2d.y pos) = Ok Y ->
  Map.get_tile self pos = py_index (Map.tiles self) (tile_pos self X Y).
Proof.
  intros HX HY. unfold Map.get_tile. rewrite HX, HY. cbn [bind].
  pose proof (tile_index_exact X (py_round_representable _ _ HX)) as Hx.
  pose proof (tile_index_exact Y (py_round_representable _ _ HY)) as Hy.
  unfold Map.__get_tile. change (Point2d.x TILE_SIZE) with 64%float.
  change (Point2d.y TILE_SIZE) with 64%float.
  destruct (py_float X) as [fx|]; cbn [bind] in *; [|discriminate].
  rewrite Hx. cbn [bind].
  destruct (py_float Y) as [fy|]; cbn [bind] in *; [|discriminate].
  rewrite Hy. reflexivity.
Qed.

Lemma is_solid_rounded self pos X Y :
  py_round (Point2d.x pos) = Ok X ->
  py_round (Point2d.y pos) = Ok Y ->
  Map.is_solid self pos
  = let* tile := py_index (Map.tiles self) (tile_pos self X Y) in Ok (solid tile).
Proof.
  intros HX HY. rewrite <- (get_tile_rounded self pos X Y HX HY).
  unfold Map.is_solid, Map.get_tile, Map.__is_solid. rewrite HX, HY. reflexivity.
Qed.

Lemma clamp_range q n : 0 < n -> 0 <= clamp q n <= n - 1.
Proof. unfold clamp. lia. Qed.

Lemma tile_pos_range self X Y :
  nonempty_grid self ->
  0 <= tile_pos self X Y < Z.of_nat (length (Map.tiles self)).
Proof.
  intros (Hw & Hh & Hl). unfold tile_pos.
  pose proof (clamp_range (Z.quot X 64) _ Hw).
  pose proof (clamp_range (Z.quot Y 64) _ Hh). nia.
Qed.

Lemma py_index_in_range {A} (l : list A) i :
  0 <= i < Z.of_nat (length l) ->
  exists a, l !! Z.to_nat i = Some a /\ py_index l i = Ok a.
Proof.
  intros Hi. unfold py_index.
  destruct (Z.ltb_spec i 0) as [|_]; [lia|].
  destruct (Z.ltb_spec i 0) as [|_]; [lia|].
  destruct (lookup_lt_is_Some_2 l (Z.to_nat i)) as [a Ha]; [lia|].
  exists a. rewrite Ha. auto.
Qed.

(** The nearest in-bounds column (row) of a rounded coordinate. *)
Lemma clamp_nearest X n :
  0 < n ->
  (X < 0 -> clamp (Z.quot X 64) n = 0)
  /\ (64 * n <= X -> clamp (Z.quot X 64) n = n - 1)
  /\ (0 <= X < 64 * n -> clamp (Z.quot X 64) n = X / 64).
Proof.
  intros Hn. unfold clamp. split; [|split]; intros HX.
  - assert (Z.quot X 64 <= 0) by (apply Z.quot_le_upper_bound; lia). lia.
  - assert (n <= Z.quot X 64) by (apply Z.quot_le_lower_bound; lia). lia.
  - rewrite Z.quot_div_nonneg by lia.
    assert (0 <= X / 64) by (apply Z.div_pos; lia).
    assert (X / 64 < n) by (apply Z.div_lt_upper_bound; lia). lia.
Qed.

Lemma clamp_in_cell X c n :
  0 <= c < n -> 64 * c <= X < 64 * (c + 1) -> clamp (Z.quot X 64) n = c.
Proof.
  intros Hc HX. unfold clamp. rewrite Z.quot_div_nonneg by lia.
  assert (X / 64 = c) by (symmetry; apply (Z.div_unique X 64 c (X - 64 * c)); lia).
  lia.
Qed.
End TileQueries.

(** ** The map loader *)

Section Loader.
Local Open Scope Z_scope.

(** The integers written on one line, in order: the values of its
    non-empty space-separated words. *)
Fixpoint values_of (words : list string) : result (list Z) :=
  match words with
  | [] => Ok []
  | word :: rest =>
      if is_empty word then values_of rest
      else
        let* value := py_int_of_str word in
        let* values := values_of rest in
        Ok (value :: values)
  end.

Definition row_of (line : string) : result (list Z) :=
  values_of (split space line).

(** What [int] strips and what it refuses: the vertical tab and the
    carriage return are white space for it, the separators 28 to 31 are
    not; one underscore may stand between two digits. *)
Lemma py_int_of_str_white_space :
  py_int_of_str (String "5" (String (ascii_of_nat 11) "")) = Ok 5
  /\ py_int_of_str (String "5" (String (ascii_of_nat 13) "")) = Ok 5
  /\ py_int_of_str (String "5" (String (ascii_of_nat 31) "")) = Raise ValueError
  /\ py_int_of_str (String "5" (String (ascii_of_nat 30) "")) = Raise ValueError
  /\ py_int_of_str (String "5" (String (ascii_of_nat 29) "")) = Raise ValueError
  /\ py_int_of_str (String (ascii_of_nat 28) "5") = Raise ValueError
  /\ py_int_of_str " -1_0 " = Ok (-10)
  /\ py_int_of_str "1__0" = Raise ValueError
  /\ py_int_of_str "+ 5" = Raise ValueError.
Proof. repeat split; vm_compute; reflexivity. Qed.

(** A literal of 4300 digits is converted, one of 4301 digits is not. *)
Lemma py_int_of_str_digit_limit :
  (exists v, py_int_of_str (String.concat "" (List.repeat "1"%string 4300)) = Ok v)
  /\ py_int_of_str (String.concat "" (List.repeat "1"%string 4301)) = Raise ValueError
  /\ py_int_of_str (String.concat "" (List.repeat "0"%string 4301)) = Raise ValueError.
Proof.
  split; [eexists; vm_compute; reflexivity|].
  split; vm_compute; reflexivity.
Qed.

Lemma scan_words_values words tiles width :
  Map.scan_words words tiles width
  = let* values := values_of words in
    Ok (tiles ++ values, width + Z.of_nat (length values)).
Proof.
  revert tiles width. induction words as [|word rest IH]; intros tiles width.
  - cbn. rewrite app_nil_r, Z.add_0_r. reflexivity.
  - cbn [Map.scan_words values_of]. destruct (is_empty word); [apply IH|].
    destruct (py_int_of_str word) as [value|e]; cbn [bind]; [|reflexivity].
    rewrite IH. destruct (values_of rest) as [values|e]; cbn [bind]; [|reflexivity].
    rewrite <- app_assoc. cbn [app length]. do 2 f_equal. lia.
Qed.

(** Lines other than the last end with a newline. *)
Fixpoint ends_with_newline (s : string) : bool :=
  match s with
  | EmptyString => false
  | String c rest => if is_empty rest then Ascii.eqb c newline else ends_with_newline rest
  end.

Fixpoint inner_lines_terminated (lines : list string) : Prop :=
  match lines with
  | [] => True
  | line :: rest =>
      (rest <> [] -> ends_with_newline line = true) /\ inner_lines_terminated rest
  end.

Lemma readlines_nonempty_line text line lines :
  readlines text = line :: lines -> is_empty line = false.
Proof.
  destruct text as [|c rest]; cbn [readlines]; [discriminate|].
  destruct (Ascii.eqb c newline); [intros [= <- _]; reflexivity|].
  destruct (readlines rest); intros [= <- _]; reflexivity.
Qed.

Lemma readlines_terminated text : inner_lines_terminated (readlines text).
Proof.
  induction text as [|c rest IH]; cbn [readlines]; [exact I|].
  destruct (Ascii.eqb c newline) eqn:Ec.
  - cbn. rewrite Ec. auto.
  - destruct (readlines rest) as [|line lines] eqn:E.
    + cbn. split; [intros []; reflexivity | exact I].
    + cbn [inner_lines_terminated] in *. destruct IH as [IH1 IH2].
      split; [|exact IH2]. intros Hne. cbn [ends_with_newline].
      rewrite (readlines_nonempty_line _ _ _ E). auto.
Qed.

(** A line with a newline has a word: its row is not empty. *)
Lemma row_of_terminated line :
  ends_with_newline line = true -> row_of line <> Ok [].
Proof.
  unfold row_of. induction line as [|c rest IH]; [discriminate|].
  cbn [ends_with_newline split]. intros H.
  destruct (Ascii.eqb c space) eqn:Ec.
  - destruct rest as [|c' rest'].
    + cbn [is_empty] in H. apply Ascii.eqb_eq in Ec, H. subst c. discriminate.
    + cbn [is_empty] in H. cbn [values_of is_empty]. apply IH. exact H.
  - clear IH. destruct (split space rest) as [|w ws];
      cbn [values_of is_empty];
      (destruct (py_int_of_str _); cbn [bind]; [|congruence]);
      try congruence.
    destruct (values_of ws); cbn [bind]; congruence.
Qed.

(** The loader's state after the lines that produced [rows]. *)
Definition loaded (self : Map.t) (rows : list (list Z)) : Prop :=
  Map.tiles self = concat rows
  /\ Map.height self = Z.of_nat (length rows)
  /\ Forall (fun row => Z.of_nat (length row) = Map.width self) rows.

Lemma scan_lines_rows lines : forall self rows self',
  inner_lines_terminated lines ->
  loaded self rows ->
  (lines <> [] -> rows <> [] -> 0 < Map.width self) ->
  (rows = [] -> Map.width self = 0) ->
  Map.scan_lines lines self = Ok self' ->
  exists rows',
    Forall2 (fun line row => row_of line = Ok row) lines rows'
    /\ loaded self' (rows ++ rows').
Proof.
  induction lines as [|line rest IH]; intros self rows self' Ht Hl Hw H0 H.
  - cbn in H. injection H as <-. exists []. rewrite app_nil_r. split; [constructor | exact Hl].
  - cbn [Map.scan_lines] in H. rewrite scan_words_values in H.
    fold (row_of line) in H. destruct (row_of line) as [row|e] eqn:Er;
      cbn [bind] in H; [|discriminate].
    rewrite Z.add_0_l in H.
    destruct ((Map.width self >? 0) && negb (Map.width self =? Z.of_nat (length row)))
      eqn:Ec; [discriminate|].
    destruct Ht as [Ht1 Ht2]. destruct Hl as (Hl1 & Hl2 & Hl3).
    assert (Hsame : Forall (fun r => Z.of_nat (length r) = Z.of_nat (length row)) rows).
    { destruct rows as [|r0 rows0]; [constructor|].
      assert (0 < Map.width self) by (apply Hw; discriminate).
      apply andb_false_iff in Ec. destruct Ec as [Ec|Ec].
      - rewrite Z.gtb_ltb in Ec. apply Z.ltb_ge in Ec. lia.
      - apply negb_false_iff, Z.eqb_eq in Ec. rewrite <- Ec. exact Hl3. }
    apply IH with (rows := rows ++ [row]) in H.
    + destruct H as (rows' & HF & Hl'). exists (row :: rows').
      split; [constructor; assumption|]. rewrite <- app_assoc in Hl'. exact Hl'.
    + exact Ht2.
    + unfold loaded. cbn [Map.tiles Map.height Map.width].
      rewrite concat_app, length_app. cbn [concat length]. rewrite app_nil_r.
      split; [congruence|]. split; [lia|].
      apply Forall_app. split; [exact Hsame | constructor; [reflexivity|constructor]].
    + intros Hrest _. cbn [Map.width].
      specialize (Ht1 Hrest). apply row_of_terminated in Ht1.
      destruct row; [congruence | cbn; lia].
    + intros Hnil. destruct rows; discriminate.
Qed.

(** What a successful load returns: the rows of the text, row-major. *)
Lemma load_rows text self :
  Map.__init__ text = Ok self ->
  exists rows,
    Forall2 (fun line row => row_of line = Ok row) (readlines text) rows
    /\ loaded self rows.
Proof.
  intros H. unfold Map.__init__ in H.
  apply (scan_lines_rows _ _ [] _ (readlines_terminated text)) in H;
    [exact H | | congruence | reflexivity].
  repeat split. constructor.
Qed.

End Loader.

(** ** Rows of the loaded grid *)

Section Rows.
Local Open Scope Z_scope.


Lemma concat_length_uniform (rows : list (list Z)) w :
  Forall (fun row => Z.of_nat (length row) = w) rows ->
  Z.of_nat (length (concat rows)) = w * Z.of_nat (length rows).
Proof.
  induction 1 as [|row rows Hr H IH]; cbn [concat length]; [lia|].
  rewrite length_app. lia.
Qed.

(** Row-major layout: cell [c] of row [r] is element [r * w + c]. *)
Lemma concat_lookup_uniform (rows : list (list Z)) w r c row v :
  Forall (fun row => Z.of_nat (length row) = w) rows ->
  rows !! r = Some row -> row !! c = Some v ->
  concat rows !! Z.to_nat (Z.of_nat r * w + Z.of_nat c) = Some v.
Proof.
  intros H. revert r. induction H as [|row0 rows Hr H IH]; intros r Hrow Hv.
  - discriminate.
  - destruct r as [|r]; cbn [concat].
    + injection Hrow as ->. rewrite lookup_app_l.
      * replace (Z.to_nat (Z.of_nat 0 * w + Z.of_nat c)) with c by lia. exact Hv.
      * apply lookup_lt_Some in Hv. lia.
    + cbn in Hrow. rewrite lookup_app_r by nia.
      specialize (IH r Hrow Hv).
      replace (Z.to_nat (Z.of_nat (S r) * w + Z.of_nat c) - length row0)%nat
        with (Z.to_nat (Z.of_nat r * w + Z.of_nat c)) by nia.
      exact IH.
Qed.

Lemma loaded_nonempty self rows r c row (v : Z) :
  loaded self rows -> rows !! r = Some row -> row !! c = Some v ->
  nonempty_grid self
  /\ Z.of_nat r < Map.height self /\ Z.of_nat c < Map.width self.
Proof.
  intros (Ht & Hh & Hw) Hrow Hv.
  pose proof (lookup_lt_Some _ _ _ Hrow) as Hr.
  pose proof (lookup_lt_Some _ _ _ Hv) as Hc.
  pose proof (proj1 (Forall_lookup _ _) Hw r row Hrow) as Hlen. cbn beta in Hlen.
  unfold nonempty_grid. rewrite Ht, (concat_length_uniform rows _ Hw), Hh.
  repeat split; lia.
Qed.

Lemma get_tile_cell self rows r c row v pos X Y :
  loaded self rows -> rows !! r = Some row -> row !! c = Some v ->
  py_round (Point2d.x pos) = Ok X -> py_round (Point2d.y pos) = Ok Y ->
  64 * Z.of_nat c <= X < 64 * (Z.of_nat c + 1) ->
  64 * Z.of_nat r <= Y < 64 * (Z.of_nat r + 1) ->
  Map.get_tile self pos = Ok v.
Proof.
  intros Hl Hrow Hv HX HY HcX HrY.
  destruct (loaded_nonempty _ _ _ _ _ _ Hl Hrow Hv) as (Hne & Hr & Hc).
  rewrite (get_tile_rounded self pos X Y HX HY). unfold tile_pos.
  rewrite (clamp_in_cell X (Z.of_nat c)), (clamp_in_cell Y (Z.of_nat r)) by lia.
  destruct Hl as (Ht & Hh & Hw).
  pose proof (concat_lookup_uniform rows _ r c row v Hw Hrow Hv) as Hlk.
  rewrite <- Ht in Hlk. unfold py_index.
  set (i := Z.of_nat r * Map.width self + Z.of_nat c) in *.
  assert (0 <= i) by (unfold i; nia).
  destruct (Z.ltb_spec i 0) as [|_]; [lia|].
  destruct (Z.ltb_spec i 0) as [|_]; [lia|].
  rewrite Hlk. reflexivity.
Qed.


End Rows.

(** ** The value of a float and Python's [round] *)

Section RoundSpec.
Local Open Scope Z_scope.

(** The rational number a finite float stands for (0 for the others). *)
Definition F2Q (f : float) : Q :=
  match Prim2SF f with
  | S754_finite s m (Zneg k) => Qmake (cond_Zopp s (Zpos m)) (2 ^ k)%positive
  | S754_finite s m e => inject_Z (cond_Zopp s (Zpos m) * 2 ^ e)
  | _ => 0%Q
  end.

Lemma round_half_even_nearest m k :
  let D := 2 ^ Zpos k in
  let R := round_half_even m (Zneg k) in
  2 * Z.abs (R * D - Zpos m) <= D
  /\ (2 * Z.abs (R * D - Zpos m) = D -> Z.even R = true).
Proof.
  cbn zeta. unfold round_half_even.
  assert (HD : 0 < 2 ^ Zpos k) by (apply Z.pow_pos_nonneg; lia).
  rewrite Z.shiftr_div_pow2, Z.land_ones, Z.shiftl_mul_pow2, Z.mul_1_l by lia.
  pose proof (Z.div_mod (Zpos m) (2 ^ Zpos k) ltac:(lia)) as Hdm.
  pose proof (Z.mod_pos_bound (Zpos m) (2 ^ Zpos k) HD) as Hr.
  set (D := 2 ^ Zpos k) in *. set (q := Zpos m / D) in *.
  set (r := Zpos m mod D) in *.
  destruct (Z.compare_spec (2 * r) D) as [He|Hl|Hg].
  - destruct (Z.even q) eqn:Eq.
    + split; [nia|]. intros _. exact Eq.
    + split; [nia|]. intros _. rewrite Z.even_add, Eq. reflexivity.
  - split; [nia|]. intros H. nia.
  - split; [nia|]. intros H. nia.
Qed.

Lemma cond_Zopp_even s n : Z.even (cond_Zopp s n) = Z.even n.
Proof. destruct s; [apply Z.even_opp | reflexivity]. Qed.

Lemma cond_Zopp_abs_sub s a b :
  Z.abs (cond_Zopp s a - cond_Zopp s b) = Z.abs (a - b).
Proof. destruct s; cbn [cond_Zopp]; lia. Qed.

(** [round] returns an integer nearest to its argument, the even one when
    two are equally near. *)
Lemma py_round_nearest (f : float) X :
  py_round f = Ok X ->
  (Qabs (inject_Z X - F2Q f) <= 1 # 2)%Q
  /\ ((Qabs (inject_Z X - F2Q f) == 1 # 2)%Q -> Z.even X = true).
Proof.
  unfold py_round, F2Q. destruct (Prim2SF f) as [s|s| |s m e]; try discriminate;
    intros [= <-].
  - split; [vm_compute; discriminate | vm_compute; discriminate].
  - destruct e as [|k|k].
    + cbn [round_half_even]. rewrite Z.shiftl_0_r, Z.mul_1_r.
      unfold Qminus, Qplus, Qopp, Qabs, Qle, Qeq, inject_Z. cbn [Qnum Qden].
      split; [lia|lia].
    + cbn [round_half_even]. rewrite Z.shiftl_mul_pow2 by lia.
      replace (cond_Zopp s (Zpos m * 2 ^ Zpos k))
        with (cond_Zopp s (Zpos m) * 2 ^ Zpos k) by (destruct s; cbn; lia).
      unfold Qminus, Qplus, Qopp, Qabs, Qle, Qeq, inject_Z. cbn [Qnum Qden].
      split; [lia|lia].
    + destruct (round_half_even_nearest m k) as [H1 H2].
      rewrite cond_Zopp_even.
      unfold Qminus, Qplus, Qopp, Qabs, Qle, Qeq, inject_Z. cbn [Qnum Qden].
      rewrite Pos2Z.inj_pow. rewrite !Z.mul_1_r, !Z.mul_1_l.
      replace (cond_Zopp s (round_half_even m (Zneg k)) * 2 ^ Zpos k
               + - cond_Zopp s (Zpos m))
        with (cond_Zopp s (round_half_even m (Zneg k) * 2 ^ Zpos k)
              - cond_Zopp s (Zpos m)) by (destruct s; cbn [cond_Zopp]; lia).
      rewrite cond_Zopp_abs_sub.
      replace (Zpos (1 * 2 ^ k)) with (2 ^ Zpos k)
        by (rewrite Pos.mul_1_l, Pos2Z.inj_pow; reflexivity).
      split; [lia|]. intros H. apply H2. lia.
Qed.
End RoundSpec.

(** ** Clamping of out-of-range coordinates *)

Section ClaimsOnTiles.
Local Open Scope Z_scope.

Lemma loaded_grid text self :
  Map.__init__ text = Ok self ->
  0 < Map.width self -> 0 < Map.height self -> nonempty_grid self.
Proof.
  intros H Hw Hh. destruct (load_rows text self H) as (rows & _ & Ht & Hhr & Hf).
  unfold nonempty_grid. rewrite Ht, (concat_length_uniform rows _ Hf).
  rewrite Hhr in Hh |- *. repeat split; lia.
Qed.

(** C8 (as the code has it): on a loaded grid with at least one row and one
    column, a query at any finite coordinate reads inside [tiles], at the
    cell whose column and row are the quotients by 64 of the rounded
    coordinates clamped to [0, width-1] and [0, height-1]: column 0 left of
    the grid, column width-1 right of it, and likewise for rows; [get_tile]
    and [is_solid] return what they return inside that edge cell. *)
Theorem tile_queries_clamp text self pos X Y :
  Map.__init__ text = Ok self ->
  0 < Map.width self -> 0 < Map.height self ->
  py_round (Point2d.x pos) = Ok X -> py_round (Point2d.y pos) = Ok Y ->
  let c := clamp (Z.quot X 64) (Map.width self) in
  let r := clamp (Z.quot Y 64) (Map.height self) in
  (0 <= c <= Map.width self - 1 /\ 0 <= r <= Map.height self - 1)
  /\ ((X < 0 -> c = 0) /\ (64 * Map.width self <= X -> c = Map.width self - 1)
      /\ (0 <= X < 64 * Map.width self -> c = X / 64))
  /\ ((Y < 0 -> r = 0) /\ (64 * Map.height self <= Y -> r = Map.height self - 1)
      /\ (0 <= Y < 64 * Map.height self -> r = Y / 64))
  /\ exists tile,
      Map.tiles self !! Z.to_nat (r * Map.width self + c) = Some tile
      /\ Map.get_tile self pos = Ok tile
      /\ Map.is_solid self pos = Ok (solid tile)
      /\ forall pos' X' Y',
          py_round (Point2d.x pos') = Ok X' -> py_round (Point2d.y pos') = Ok Y' ->
          64 * c <= X' < 64 * (c + 1) -> 64 * r <= Y' < 64 * (r + 1) ->
          Map.get_tile self pos' = Ok tile
          /\ Map.is_solid self pos' = Ok (solid tile).
Proof.
  intros Hload Hw Hh HX HY c r.
  pose proof (loaded_grid text self Hload Hw Hh) as Hne.
  pose proof (clamp_range (Z.quot X 64) _ Hw) as Hc.
  pose proof (clamp_range (Z.quot Y 64) _ Hh) as Hr.
  fold c in Hc. fold r in Hr.
  split; [auto|]. split; [apply clamp_nearest; assumption|].
  split; [apply clamp_nearest; assumption|].
  destruct (py_index_in_range (Map.tiles self) (tile_pos self X Y)
              (tile_pos_range self X Y Hne)) as (tile & Hlk & Hidx).
  exists tile. split; [exact Hlk|].
  split; [rewrite (get_tile_rounded self pos X Y HX HY); exact Hidx|].
  split; [rewrite (is_solid_rounded self pos X Y HX HY), Hidx; reflexivity|].
  intros pos' X' Y' HX' HY' HcX HrY.
  assert (Hpos : tile_pos self X' Y' = tile_pos self X Y).
  { unfold tile_pos. fold c. fold r.
    rewrite (clamp_in_cell X' c), (clamp_in_cell Y' r) by lia. reflexivity. }
  rewrite (get_tile_rounded self pos' X' Y' HX' HY'),
    (is_solid_rounded self pos' X' Y' HX' HY'), Hpos, Hidx. auto.
Qed.


(** The claim as stated fails on the grid loaded from an empty file: the
    load succeeds and every query raises [IndexError]. *)
Lemma empty_grid_query_raises :
  exists self,
    Map.__init__ "" = Ok self
    /\ Map.get_tile self (Point2d.mk (-1) (-1)) = Raise IndexError
    /\ Map.is_solid self (Point2d.mk (-1) (-1)) = Raise IndexError.
Proof. eexists. repeat split; vm_compute; reflexivity. Qed.

(** ** Round trip of the loader *)



(** ** Rounding before the division *)

(** Two tiles side by side. *)
Definition pair_map : Map.t := Map.mk [7; 9] 2 1.

(** An air tile with a solid tile to its right. *)
Definition edge_map : Map.t := Map.mk [0; 9] 2 1.

(** C10: the public queries round each coordinate to the nearest integer,
    half to even, and only then divide by the tile size, so the tile that
    [get_tile] returns and that [is_solid] tests (solid unless it is 0, 78
    or 110) is the one of the rounded coordinates; a point within half a
    unit of a tile boundary can land in the adjacent tile: x = 63.5 rounds
    to 64 and reads column 1, while dividing 63.5 itself by 64 gives
    column 0; so the air tile of column 0 is reported solid at x = 63.5. *)
Theorem queries_round_before_dividing :
  (forall self pos X Y,
      py_round (Point2d.x pos) = Ok X -> py_round (Point2d.y pos) = Ok Y ->
      (Qabs (inject_Z X - F2Q (Point2d.x pos)) <= 1 # 2)%Q
      /\ ((Qabs (inject_Z X - F2Q (Point2d.x pos)) == 1 # 2)%Q -> Z.even X = true)
      /\ (Qabs (inject_Z Y - F2Q (Point2d.y pos)) <= 1 # 2)%Q
      /\ ((Qabs (inject_Z Y - F2Q (Point2d.y pos)) == 1 # 2)%Q -> Z.even Y = true)
      /\ Map.get_tile self pos = Map.__get_tile self X Y
      /\ Map.is_solid self pos = Map.__is_solid self X Y
      /\ Map.get_tile self pos = py_index (Map.tiles self) (tile_pos self X Y)
      /\ Map.is_solid self pos
         = (let* tile :=
              py_index (Map.tiles self)
                (Z.min (Z.max (Z.quot Y 64) 0) (Map.height self - 1) * Map.width self
                 + Z.min (Z.max (Z.quot X 64) 0) (Map.width self - 1)) in
            Ok (negb ((tile =? 0) || (tile =? 78) || (tile =? 110)))))
  /\ py_round 63.5 = Ok 64
  /\ py_round 62.5 = Ok 62
  /\ Map.get_tile pair_map (Point2d.mk 63.5 0) = Ok 9
  /\ py_int (63.5 / 64) = Ok 0
  /\ Map.get_tile pair_map (Point2d.mk 63 0) = Ok 7
  /\ Map.is_solid edge_map (Point2d.mk 63.5 0) = Ok true
  /\ Map.is_solid edge_map (Point2d.mk 63 0) = Ok false
  /\ Map.is_solid edge_map (Point2d.mk 64.5 0) = Ok true
  /\ Map.is_solid edge_map (Point2d.mk 62.5 0) = Ok false.
Proof.
  split.
  - intros self pos X Y HX HY.
    destruct (py_round_nearest _ _ HX) as [Hx1 Hx2].
    destruct (py_round_nearest _ _ HY) as [Hy1 Hy2].
    repeat (split; [assumption|]).
    split; [unfold Map.get_tile; rewrite HX, HY; reflexivity|].
    split; [unfold Map.is_solid; rewrite HX, HY; reflexivity|].
    split; [apply get_tile_rounded; assumption|].
    exact (is_solid_rounded self pos X Y HX HY).
  - repeat split; vm_compute; reflexivity.
Qed.

End ClaimsOnTiles.

Lemma tile_queries_clamp_witness :
  exists tile,
    Map.get_tile demo_map (Point2d.mk (-200) 1000) = Ok tile
    /\ Map.get_tile demo_map (Point2d.mk 32 224) = Ok tile.
Proof.
  assert (Hload : Map.__init__ demo_text = Ok demo_map) by (vm_compute; reflexivity).
  assert (HX : py_round (-200) = Ok (-200)%Z) by (vm_compute; reflexivity).
  assert (HY : py_round 1000 = Ok 1000%Z) by (vm_compute; reflexivity).
  assert (HX' : py_round 32 = Ok 32%Z) by (vm_compute; reflexivity).
  assert (HY' : py_round 224 = Ok 224%Z) by (vm_compute; reflexivity).
  destruct (tile_queries_clamp demo_text demo_map (Point2d.mk (-200) 1000)
              (-200) 1000 Hload eq_refl eq_refl HX HY)
    as (_ & _ & _ & tile & _ & Hget & _ & Hcell).
  exists tile. split; [exact Hget|].
  apply (Hcell (Point2d.mk 32 224) 32%Z 224%Z HX' HY');
    vm_compute; split; discriminate || reflexivity.
Defined.


Lemma queries_round_before_dividing_witness :
  Map.get_tile pair_map (Point2d.mk 63.5 0) = Map.__get_tile pair_map 64 0
  /\ Map.is_solid edge_map (Point2d.mk 63.5 0)
     = (let* tile := py_index [0; 9]%Z 1 in
        Ok (negb ((tile =? 0) || (tile =? 78) || (tile =? 110))%Z)).
Proof.
  assert (HX : py_round 63.5 = Ok 64%Z) by (vm_compute; reflexivity).
  assert (HY : py_round 0 = Ok 0%Z) by (vm_compute; reflexivity).
  split.
  - exact (proj1 (proj2 (proj2 (proj2 (proj2
             (proj1 queries_round_before_dividing pair_map
                (Point2d.mk 63.5 0) 64%Z 0%Z HX HY)))))).
  - exact (proj2 (proj2 (proj2 (proj2 (proj2 (proj2 (proj2
             (proj1 queries_round_before_dividing edge_map
                (Point2d.mk 63.5 0) 64%Z 0%Z HX HY)))))))).
Defined.

(** ** The number of sub-steps *)

Section SubStepCount.
Local Open Scope Z_scope.

(** Rounding keeps the sign it is given. *)
Lemma binary_round_aux_shape s m e l :
  let r := binary_round_aux prec emax s m e l in
  r = S754_nan \/ r = S754_zero s \/ r = S754_infinity s
  \/ exists m' e', r = S754_finite s m' e'.
Proof.
  cbn zeta. unfold binary_round_aux.
  destruct (shr_fexp prec emax m e l) as [mrs' e'].
  destruct (shr_fexp prec emax _ e' loc_Exact) as [mrs'' e''].
  destruct (shr_m mrs'') as [|m'|m']; [auto | | auto].
  destruct (e'' <=? emax - prec); eauto 6.
Qed.

(** A square root is NaN, a zero, plus infinity or a positive number. *)
Lemma sqrt_shape (a : float) :
  Prim2SF (sqrt a) = S754_nan \/ (exists s, Prim2SF (sqrt a) = S754_zero s)
  \/ Prim2SF (sqrt a) = S754_infinity false
  \/ exists m e, Prim2SF (sqrt a) = S754_finite false m e.
Proof.
  rewrite sqrt_spec. unfold SF64sqrt, SFsqrt.
  destruct (Prim2SF a) as [s|[|]| |[|] m e]; eauto.
  destruct (SFsqrt_core_binary prec emax (Zpos m) e) as [[mz ez] lz].
  destruct (binary_round_aux_shape false mz ez lz) as [H|[H|[H|H]]]; eauto.
Qed.

Lemma len_shape vel d :
  Point2d.len vel = Ok d ->
  Prim2SF d = S754_nan \/ (exists s, Prim2SF d = S754_zero s)
  \/ Prim2SF d = S754_infinity false
  \/ exists m e, Prim2SF d = S754_finite false m e.
Proof.
  unfold Point2d.len, py_sqrt.
  destruct (_ <? 0)%float; [discriminate|]. intros [= <-]. apply sqrt_shape.
Qed.

(** The guard [distance < 0] of [move_box] never fires. *)
Lemma len_not_negative vel d :
  Point2d.len vel = Ok d -> (d <? 0)%float = false.
Proof.
  intros H. rewrite ltb_spec.
  destruct (len_shape vel d H) as [E|[[s E]|[E|(m & e & E)]]]; rewrite E;
    reflexivity.
Qed.

Lemma truncate_nonneg m e : 0 <= truncate m e.
Proof.
  unfold truncate. destruct e.
  - rewrite Z.shiftl_0_r. lia.
  - apply Z.shiftl_nonneg. lia.
  - apply Z.shiftr_nonneg. lia.
Qed.

(** [int] of a non-negative float is its floor. *)
Lemma py_int_floor (d : float) n :
  (d <? 0)%float = false -> py_int d = Ok n ->
  0 <= n /\ (inject_Z n <= F2Q d)%Q /\ (F2Q d < inject_Z n + 1)%Q.
Proof.
  rewrite ltb_spec. unfold py_int, F2Q.
  destruct (Prim2SF d) as [s|s| |s m e]; try discriminate; intros Hs [= <-].
  - split; [lia|]. split; [vm_compute; discriminate | reflexivity].
  - destruct s; [discriminate|]. cbn [cond_Zopp].
    split; [apply truncate_nonneg|]. unfold truncate. destruct e as [|k|k].
    + rewrite Z.shiftl_0_r, Z.mul_1_r. unfold Qle, Qlt, Qplus, inject_Z.
      cbn [Qnum Qden]. lia.
    + rewrite Z.shiftl_mul_pow2 by lia. unfold Qle, Qlt, Qplus, inject_Z.
      cbn [Qnum Qden]. lia.
    + rewrite Z.shiftr_div_pow2 by lia.
      assert (HD : 0 < 2 ^ Zpos k) by (apply Z.pow_pos_nonneg; lia).
      pose proof (Z.div_mod (Zpos m) (2 ^ Zpos k) ltac:(lia)) as Hdm.
      pose proof (Z.mod_pos_bound (Zpos m) (2 ^ Zpos k) HD) as Hr.
      unfold Qle, Qlt, Qplus, inject_Z. cbn [Qnum Qden].
      rewrite Pos2Z.inj_pow. nia.
Qed.
End SubStepCount.

Section FloatOfCount.
Local Open Scope Z_scope.

(** The second half of [binary_round_aux]: renormalisation after the
    mantissa has been rounded. *)
Definition round_tail (s : bool) (m e : Z) : spec_float :=
  let '(mrs, e') := shr_fexp prec emax m e loc_Exact in
  match shr_m mrs with
  | Z0 => S754_zero s
  | Zpos m' => if e' <=? emax - prec then S754_finite s m' e' else S754_infinity s
  | Zneg _ => S754_nan
  end.

Lemma binary_round_aux_tail s m e l :
  binary_round_aux prec emax s m e l
  = let '(mrs, e') := shr_fexp prec emax m e l in
    round_tail s (round_nearest_even (shr_m mrs) (loc_of_shr_record mrs)) e'.
Proof. reflexivity. Qed.

Lemma round_tail_canonical s m e :
  fexp prec emax (Zpos (digits2_pos m) + e) <= e -> e <= 971 ->
  round_tail s (Zpos m) e = S754_finite s m e.
Proof.
  intros Hf He. unfold round_tail, shr_fexp, shr. cbn [Zdigits2 shr_record_of_loc].
  destruct (fexp prec emax (Zpos (digits2_pos m) + e) - e) eqn:E; [| lia |];
    cbn [shr_m]; (destruct (Z.leb_spec e (emax - prec)) as [|Hgt];
                  [reflexivity | change (emax - prec) with 971 in Hgt; lia]).
Qed.

(** A mantissa rounded up to [2^53] is renormalised to [2^52]. *)
Lemma round_tail_carry s e :
  -1074 <= e <= 970 ->
  round_tail s 9007199254740992 e = S754_finite s 4503599627370496 (e + 1).
Proof.
  intros He. unfold round_tail, shr_fexp. cbn [Zdigits2].
  change (Zpos (digits2_pos 9007199254740992)) with 54. rewrite fexp_eq.
  replace (Z.max (54 + e - 53) (-1074) - e) with 1 by lia.
  cbn [shr shr_record_of_loc SpecFloat.iter_pos shr_1 shr_m].
  destruct (Z.leb_spec (e + 1) (emax - prec)) as [|Hgt];
    [reflexivity | change (emax - prec) with 971 in Hgt; lia].
Qed.

Lemma representable_le p : Zpos p <= 2 ^ 53 -> representable p.
Proof.
  intros Hp. destruct (Z.eq_dec (Zpos p) (2 ^ 53)) as [He|Hne].
  - right. exists 4503599627370496%positive, 1%positive.
    split; [|split; [reflexivity | lia]].
    apply Pos2Z.inj. rewrite He. reflexivity.
  - left. apply digits2_pos_le; lia.
Qed.

(** Converting [m * 2^k + 1] for a 53-bit [m]: the added unit is rounded
    away, or carries into the mantissa when [k = 1]. *)
Lemma binary_round_succ_scaled m k p :
  Zpos (digits2_pos m) = 53 -> Zpos k <= 971 ->
  Zpos p = Zpos m * 2 ^ Zpos k + 1 ->
  exists m' e',
    binary_round prec emax false p 0 = S754_finite false m' e'
    /\ Zpos (digits2_pos m') = 53 /\ 0 <= e' <= 971.
Proof.
  intros Hd Hk Hp.
  pose proof (digits2_pos_bounds m) as Hm. rewrite Hd in Hm.
  change (2 ^ (53 - 1)) with 4503599627370496 in Hm.
  change (2 ^ 53) with 9007199254740992 in Hm.
  assert (H2k : 2 <= 2 ^ Zpos k).
  { change 2 with (2 ^ 1) at 1. apply Z.pow_le_mono_r; lia. }
  assert (Hdp : Zpos (digits2_pos p) = 53 + Zpos k).
  { apply digits2_pos_unique. rewrite Hp.
    replace (53 + Zpos k - 1) with (52 + Zpos k) by lia.
    rewrite !Z.pow_add_r by lia.
    change (2 ^ 52) with 4503599627370496. change (2 ^ 53) with 9007199254740992.
    nia. }
  unfold binary_round, shl_align. rewrite Hdp, fexp_eq.
  replace (Z.max (53 + Zpos k + 0 - 53) (-1074) - 0) with (Zpos k) by lia.
  rewrite binary_round_aux_tail. unfold shr_fexp. cbn [Zdigits2].
  rewrite Hdp, fexp_eq.
  replace (Z.max (53 + Zpos k + 0 - 53) (-1074) - 0) with (Zpos k) by lia.
  unfold shr. cbn [shr_record_of_loc]. rewrite iter_pos_nat.
  destruct (Pos2Nat.is_succ k) as [n Hn]. rewrite Hn, shr_iter by lia.
  assert (HZ : Z.of_nat (S n) = Zpos k) by lia.
  assert (Hn' : Z.of_nat n = Zpos k - 1) by lia.
  rewrite HZ, Hn', Hp. cbn [shr_m].
  assert (Hq : (Zpos m * 2 ^ Zpos k + 1) / 2 ^ Zpos k = Zpos m).
  { symmetry. apply (Z.div_unique _ _ _ 1); lia. }
  rewrite Hq. replace (0 + Zpos k) with (Zpos k) by lia.
  destruct (Z.eq_dec (Zpos k) 1) as [Hk1|Hk1].
  - (* one bit is dropped and it is set: a tie *)
    rewrite Hk1. change (1 - 1) with 0. change (2 ^ 0) with 1.
    rewrite Z.mod_1_r. cbn [Z.eqb negb].
    replace (Z.testbit (Zpos m * 2 ^ 1 + 1) 0) with true.
    2:{ rewrite Z.bit0_odd. change (2 ^ 1) with 2.
        rewrite Z.add_comm, Z.mul_comm, Z.odd_add_mul_2. reflexivity. }
    cbn [loc_of_shr_record round_nearest_even].
    destruct (Z.even (Zpos m)).
    + exists m, 1. rewrite round_tail_canonical by (rewrite ?Hd, ?fexp_eq; lia).
      repeat split; lia.
    + destruct (Z.eq_dec (Zpos m + 1) 9007199254740992) as [Hc|Hc].
      * rewrite Hc. exists 4503599627370496%positive, 2.
        rewrite round_tail_carry by lia. repeat split; lia.
      * assert (Hs : Zpos m + 1 = Zpos (Pos.succ m)) by lia. rewrite Hs.
        assert (Hds : Zpos (digits2_pos (Pos.succ m)) = 53).
        { apply digits2_pos_unique.
          change (2 ^ (53 - 1)) with 4503599627370496.
          change (2 ^ 53) with 9007199254740992. lia. }
        exists (Pos.succ m), 1.
        rewrite round_tail_canonical by (rewrite ?Hds, ?fexp_eq; lia).
        repeat split; lia.
  - (* the dropped bits are 0...01: below the midpoint *)
    assert (Hk2 : 2 <= Zpos k) by lia.
    assert (H2k1 : 2 <= 2 ^ (Zpos k - 1)).
    { change 2 with (2 ^ 1) at 1. apply Z.pow_le_mono_r; lia. }
    assert (Hsplit : Zpos m * 2 ^ Zpos k + 1
                     = (2 * Zpos m) * 2 ^ (Zpos k - 1) + 1).
    { replace (Zpos k) with (Z.succ (Zpos k - 1)) at 1 by lia.
      rewrite Z.pow_succ_r by lia. lia. }
    assert (Hmod : (Zpos m * 2 ^ Zpos k + 1) mod 2 ^ (Zpos k - 1) = 1).
    { rewrite Hsplit. symmetry.
      apply (Z.mod_unique _ _ (2 * Zpos m) 1); lia. }
    assert (Hbit : Z.testbit (Zpos m * 2 ^ Zpos k + 1) (Zpos k - 1) = false).
    { pose proof (Z.testbit_spec' (Zpos m * 2 ^ Zpos k + 1) (Zpos k - 1) ltac:(lia)) as Hb.
      assert (Hdiv : (Zpos m * 2 ^ Zpos k + 1) / 2 ^ (Zpos k - 1) = 2 * Zpos m).
      { rewrite Hsplit. symmetry. apply (Z.div_unique _ _ _ 1); lia. }
      rewrite Hdiv in Hb.
      replace ((2 * Zpos m) mod 2) with 0 in Hb
        by (rewrite (Z.mul_comm 2), Z.mod_mul; lia).
      destruct (Z.testbit _ _); [discriminate | reflexivity]. }
    rewrite Hmod, Hbit. cbn [Z.eqb negb loc_of_shr_record round_nearest_even].
    exists m, (Zpos k). rewrite round_tail_canonical by (rewrite ?Hd, ?fexp_eq; lia).
    repeat split; lia.
Qed.

(** [float(maximum + 1)] in [move_box] never overflows and is not zero. *)
Lemma py_float_succ_int (d : float) n :
  (d <? 0)%float = false -> py_int d = Ok n ->
  exists den, py_float (n + 1) = Ok den /\ (den =? 0)%float = false.
Proof.
  intros Hs Hn.
  assert (Hfin : forall s m e, Prim2SF (SF2Prim (S754_finite s m e)) = S754_finite s m e ->
                 (SF2Prim (S754_finite s m e) =? 0)%float = false).
  { intros s m e E. rewrite FloatAxioms.eqb_spec, E. destruct s; reflexivity. }
  rewrite ltb_spec in Hs. unfold py_int in Hn.
  destruct (Prim2SF d) as [s|s| |s m e] eqn:E; try discriminate; injection Hn as <-.
  - exists 1%float. split; vm_compute; reflexivity.
  - destruct s; [discriminate|]. cbn [cond_Zopp].
    destruct (valid_finite d false m e E) as [Hc He]. rewrite fexp_eq in Hc.
    assert (Hsmall : forall p, Zpos p = truncate m e + 1 -> Zpos p <= 2 ^ 53 ->
              exists den, py_float (truncate m e + 1) = Ok den
                          /\ (den =? 0)%float = false).
    { intros p Hp Hle. rewrite <- Hp.
      destruct (py_float_representable false p (representable_le p Hle))
        as (fx & mx & ex & Ef & Efx & _).
      exists fx. split; [exact Ef|]. rewrite FloatAxioms.eqb_spec, Efx. reflexivity. }
    pose proof (truncate_nonneg m e) as Hnn.
    assert (Hp : exists p, Zpos p = truncate m e + 1)
      by (exists (Z.to_pos (truncate m e + 1)); lia).
    destruct Hp as [p Hp].
    pose proof (digits2_pos_bounds m) as [_ Hmu].
    destruct e as [|k|k].
    + apply (Hsmall p Hp). rewrite Hp. unfold truncate. rewrite Z.shiftl_0_r.
      assert (Zpos m < 2 ^ 53)
        by (eapply Z.lt_le_trans; [exact Hmu | apply Z.pow_le_mono_r; lia]).
      lia.
    + assert (Hd : Zpos (digits2_pos m) = 53) by lia.
      assert (Hp' : Zpos p = Zpos m * 2 ^ Zpos k + 1).
      { rewrite Hp. unfold truncate. rewrite Z.shiftl_mul_pow2 by lia. reflexivity. }
      destruct (binary_round_succ_scaled m k p Hd He Hp')
        as (m' & e' & Er & Hd' & He').
      exists (SF2Prim (S754_finite false m' e')).
      unfold py_float. rewrite <- Hp. cbn [binary_normalize]. rewrite Er.
      split; [reflexivity|]. apply Hfin.
      apply Prim2SF_SF2Prim, valid_normal; [assumption | lia].
    + apply (Hsmall p Hp). rewrite Hp. unfold truncate.
      rewrite Z.shiftr_div_pow2 by lia.
      assert (Zpos m < 2 ^ 53)
        by (eapply Z.lt_le_trans; [exact Hmu | apply Z.pow_le_mono_r; lia]).
      assert (0 < 2 ^ Zpos k) by (apply Z.pow_pos_nonneg; lia).
      assert (Zpos m / 2 ^ Zpos k <= Zpos m)
        by (apply Z.div_le_upper_bound; [lia | nia]).
      lia.
Qed.
End FloatOfCount.

(** The position [p] displaced by the velocity [v] scaled by [fraction]. *)
Definition displaced (p v : Point2d.t) (fraction : float) : Point2d.t :=
  Point2d.mk (Point2d.x p + Point2d.x v * fraction)
             (Point2d.y p + Point2d.y v * fraction).

(** The state a blocked sub-step leaves, from the position [p], the
    velocity [v] and the attempted position [c], given whether the box
    moved along y alone and along x alone is blocked. *)
Definition resolved (r : gset Collision.t) (p v c : Point2d.t)
    (hit_y hit_x : bool) : Map.state :=
  match hit_y, hit_x with
  | true, true =>
      Map.State (r ∪ {[Collision.Y]} ∪ {[Collision.X]})
                (Point2d.mk (Point2d.x p) (Point2d.y p)) (Point2d.mk 0 0)
  | true, false =>
      Map.State (r ∪ {[Collision.Y]})
                (Point2d.mk (Point2d.x c) (Point2d.y p))
                (Point2d.mk (Point2d.x v) 0)
  | false, true =>
      Map.State (r ∪ {[Collision.X]})
                (Point2d.mk (Point2d.x p) (Point2d.y c))
                (Point2d.mk 0 (Point2d.y v))
  | false, false =>
      Map.State (r ∪ {[Collision.CORNER]}) p (Point2d.mk 0 0)
  end.

(** One sub-step as the loop body has it: from the position [p] with the
    velocity [v] the box tries the position [p + v * fraction]; free
    there, it moves to it; blocked there, it is tried along y alone and
    along x alone and left as [resolved] says. *)
Inductive attempt (self : Map.t) (size : Point2d.t) (fraction : float)
  : Map.state -> Point2d.t -> Map.state -> Prop :=
| attempt_free r p v :
    Map.test_box self (displaced p v fraction) size = Ok false ->
    attempt self size fraction (Map.State r p v) (displaced p v fraction)
      (Map.State r (displaced p v fraction) v)
| attempt_blocked r p v hit_y hit_x :
    Map.test_box self (displaced p v fraction) size = Ok true ->
    Map.test_box self
      (Point2d.mk (Point2d.x p) (Point2d.y (displaced p v fraction))) size
    = Ok hit_y ->
    Map.test_box self
      (Point2d.mk (Point2d.x (displaced p v fraction)) (Point2d.y p)) size
    = Ok hit_x ->
    attempt self size fraction (Map.State r p v) (displaced p v fraction)
      (resolved r p v (displaced p v fraction) hit_y hit_x).

(** The positions tried by a run of successive sub-steps, in order, from
    a state to the state it ends in. *)
Inductive attempts (self : Map.t) (size : Point2d.t) (fraction : float)
  : Map.state -> list Point2d.t -> Map.state -> Prop :=
| attempts_done st : attempts self size fraction st [] st
| attempts_step st c st' cs final :
    attempt self size fraction st c st' ->
    attempts self size fraction st' cs final ->
    attempts self size fraction st (c :: cs) final.

Lemma sub_step_attempt self size fraction st st' :
  Map.sub_step self size fraction st = Ok st'
  <-> exists c, attempt self size fraction st c st'.
Proof.
  split.
  - intros H. apply sub_step_cases in H. cbn zeta in H.
    destruct st as [r p v]. cbn [Map.pos_of Map.vel_of Map.result_of] in H.
    change (Map.candidate fraction (Map.State r p v)) with (displaced p v fraction) in H.
    exists (displaced p v fraction).
    destruct H as [[Hfree ->] | [Hb (hy & hx & Hy & Hx & ->)]].
    + constructor. exact Hfree.
    + replace (match hy with | true => _ | false => _ end)
        with (resolved r p v (displaced p v fraction) hy hx)
        by (destruct hy, hx, p; reflexivity).
      constructor; assumption.
  - intros [c H]. destruct H as [r p v Hfree | r p v hy hx Hb Hy Hx].
    + unfold Map.sub_step.
      change (Map.candidate fraction (Map.State r p v)) with (displaced p v fraction).
      rewrite Hfree. reflexivity.
    + unfold Map.sub_step.
      change (Map.candidate fraction (Map.State r p v)) with (displaced p v fraction).
      rewrite Hb. cbn [bind]. rewrite Hy. cbn [bind].
      destruct hy; cbn [Point2d.x Point2d.y] in *; rewrite Hx; cbn [bind];
        destruct hx, p; reflexivity.
Qed.

Lemma sub_steps_attempts self size fraction n st final :
  Map.sub_steps self size fraction n st = Ok final
  <-> exists cs, length cs = n /\ attempts self size fraction st cs final.
Proof.
  revert st. induction n as [|n IH]; intros st; cbn [Map.sub_steps].
  - split.
    + intros [= <-]. exists []. split; [reflexivity | constructor].
    + intros (cs & Hlen & H). destruct H; [reflexivity | discriminate].
  - split.
    + intros H. bind_inv H. apply IH in H. destruct H as (cs & Hlen & H).
      apply sub_step_attempt in E. destruct E as [c E].
      exists (c :: cs). split; [cbn; congruence | econstructor; eassumption].
    + intros (cs & Hlen & H). destruct H as [|st c st' cs final Hstep H];
        [discriminate|].
      rewrite (proj2 (sub_step_attempt self size fraction st st') (ex_intro _ c Hstep)).
      cbn [bind]. apply IH.
      exists cs. split; [cbn in Hlen; congruence | exact H].
Qed.

(** C3: for a velocity whose length [d] is a number, [move_box] performs
    exactly floor(d) + 1 sub-steps, in order; each tries the position
    [p + v * (1 / (floor(d) + 1))] for the position [p] and the velocity
    [v] the previous sub-step left, moves the box there when it is free
    there and resolves the hit otherwise; the fraction is always
    defined. *)
Theorem move_box_sub_step_count self pos vel size d n :
  Point2d.len vel = Ok d -> py_int d = Ok n ->
  (0 <= n)%Z /\ (inject_Z n <= F2Q d)%Q /\ (F2Q d < inject_Z n + 1)%Q
  /\ exists denominator,
      py_float (n + 1) = Ok denominator
      /\ py_truediv 1 denominator = Ok (1 / denominator)%float
      /\ forall final,
          Map.move_box self pos vel size = Ok final
          <-> exists cs,
              length cs = (Z.to_nat n + 1)%nat
              /\ attempts self size (1 / denominator)
                   (Map.State ∅ pos vel) cs final.
Proof.
  intros Hd Hn. pose proof (len_not_negative vel d Hd) as Hs.
  destruct (py_int_floor d n Hs Hn) as (H0 & Hlo & Hhi).
  destruct (py_float_succ_int d n Hs Hn) as (den & Hden & Hnz).
  split; [exact H0|]. split; [exact Hlo|]. split; [exact Hhi|].
  exists den. split; [exact Hden|].
  assert (Hdiv : py_truediv 1 den = Ok (1 / den)%float)
    by (unfold py_truediv; rewrite Hnz; reflexivity).
  split; [exact Hdiv|]. intros final.
  unfold Map.move_box. rewrite Hd. cbn [bind]. rewrite Hn. cbn [bind].
  rewrite Hs, Hden. cbn [bind]. rewrite Hdiv. cbn [bind].
  replace (Z.to_nat (n + 1)) with (Z.to_nat n + 1)%nat by lia.
  apply sub_steps_attempts.
Qed.

Lemma move_box_sub_step_count_witness :
  exists final cs,
    Map.move_box demo_map (Point2d.mk 100 150) (Vector2d 3 20) PLAYER_SIZE = Ok final
    /\ length cs = 21%nat
    /\ attempts demo_map PLAYER_SIZE (1 / 21)
         (Map.State ∅ (Point2d.mk 100 150) (Vector2d 3 20)) cs final.
Proof.
  assert (Hd : Point2d.len (Vector2d 3 20) = Ok (sqrt 409))
    by (vm_compute; reflexivity).
  assert (Hn : py_int (sqrt 409) = Ok 20%Z) by (vm_compute; reflexivity).
  destruct (move_box_sub_step_count demo_map (Point2d.mk 100 150) (Vector2d 3 20)
              PLAYER_SIZE _ _ Hd Hn) as (_ & _ & _ & den & Hden & _ & Hrun).
  assert (den = 21%float) as ->
    by (vm_compute in Hden; injection Hden as <-; reflexivity).
  assert (E : Map.move_box demo_map (Point2d.mk 100 150) (Vector2d 3 20)
                PLAYER_SIZE = Ok _) by (vm_compute; reflexivity).
  destruct (proj1 (Hrun _) E) as (cs & Hlen & Hcs).
  eexists. exists cs. split; [exact E|]. split; [exact Hlen | exact Hcs].
Defined.

(** * Rounding to nearest

    The camera, the timer text and the tile sprites compute with floats
    whose results are not exact; what follows derives from the
    specification of the operations that each result is a float nearest to
    the exact value. *)


(** ** Rounding to nearest: the value of a rounded result *)

Section Nearest.
Local Open Scope Z_scope.

(** Powers of two as rationals, for every integer exponent. *)
Definition pow2 (e : Z) : Q := (2 ^ e)%Q.

Lemma pow2_pos e : (0 < pow2 e)%Q.
Proof. apply Qpower_0_lt. reflexivity. Qed.

Lemma pow2_add a b : (pow2 (a + b) == pow2 a * pow2 b)%Q.
Proof. apply Qpower_plus. discriminate. Qed.

Lemma pow2_Z e : 0 <= e -> (pow2 e == inject_Z (2 ^ e))%Q.
Proof. intros He. unfold pow2. rewrite Zpower_Qpower by assumption. reflexivity. Qed.

Lemma pow2_succ e : (pow2 (e + 1) == 2 * pow2 e)%Q.
Proof. rewrite pow2_add. change (pow2 1) with 2%Q. ring. Qed.

Lemma pow2_ge_1 e : 0 <= e -> (1 <= pow2 e)%Q.
Proof.
  intros He. rewrite pow2_Z by assumption.
  change 1%Q with (inject_Z 1). rewrite <- Zle_Qle.
  assert (0 < 2 ^ e) by (apply Z.pow_pos_nonneg; lia). lia.
Qed.

Lemma pow2_le a b : a <= b -> (pow2 a <= pow2 b)%Q.
Proof.
  intros Hab. replace b with (a + (b - a)) by lia. rewrite pow2_add.
  pose proof (pow2_pos a). pose proof (pow2_ge_1 (b - a) ltac:(lia)). nra.
Qed.

(** The value [m * 2^e]. *)
Definition SV (m e : Z) : Q := (inject_Z m * pow2 e)%Q.

(** Where a real [w] lies with respect to the integers [m] and [m + 1]. *)
Definition inbetween (m : Z) (l : location) (w : Q) : Prop :=
  match l with
  | loc_Exact => (w == inject_Z m)%Q
  | loc_Inexact c =>
      (inject_Z m < w)%Q /\ (w < inject_Z m + 1)%Q
      /\ (w ?= inject_Z m + (1 # 2))%Q = c
  end.

Lemma inbetween_eq m l w w' :
  (w == w')%Q -> inbetween m l w -> inbetween m l w'.
Proof.
  intros E. destruct l as [|c]; cbn [inbetween].
  - intros H. rewrite <- E. exact H.
  - intros (H1 & H2 & H3). split; [|split].
    + rewrite <- E. exact H1.
    + rewrite <- E. exact H2.
    + rewrite <- H3. apply Qcompare_comp; [symmetry; exact E | reflexivity].
Qed.

Lemma loc_of_record_of_loc m l :
  loc_of_shr_record (shr_record_of_loc m l) = l.
Proof. destruct l as [|[| |]]; reflexivity. Qed.

Lemma shr_m_record_of_loc m l : shr_m (shr_record_of_loc m l) = m.
Proof. destruct l as [|[| |]]; reflexivity. Qed.

Lemma inject_Z_half m :
  (inject_Z m == 2 * inject_Z (m / 2) + (if Z.odd m then 1 else 0))%Q.
Proof.
  pose proof (Z.div_mod m 2 ltac:(lia)) as H.
  rewrite Zmod_odd in H.
  assert (Hq : inject_Z m == inject_Z (2 * (m / 2) + (if Z.odd m then 1 else 0)))
    by (rewrite <- H; reflexivity).
  rewrite Hq, inject_Z_plus, inject_Z_mult.
  destruct (Z.odd m); reflexivity.
Qed.

Lemma Qcompare_elim (a b : Q) c :
  (a ?= b)%Q = c ->
  match c with Lt => (a < b)%Q | Eq => (a == b)%Q | Gt => (b < a)%Q end.
Proof.
  intros <-. destruct (a ?= b)%Q eqn:E.
  - apply Qeq_alt. exact E.
  - apply Qlt_alt. exact E.
  - apply Qgt_alt. exact E.
Qed.

Lemma Qcompare_intro (a b : Q) c :
  match c with Lt => (a < b)%Q | Eq => (a == b)%Q | Gt => (b < a)%Q end ->
  (a ?= b)%Q = c.
Proof.
  destruct c; intros H.
  - apply Qeq_alt. exact H.
  - apply Qlt_alt. exact H.
  - apply Qgt_alt. exact H.
Qed.

(** One shift keeps track of the position of the real. *)
Lemma shr_1_inbetween rec w :
  0 <= shr_m rec ->
  inbetween (shr_m rec) (loc_of_shr_record rec) w ->
  inbetween (shr_m (shr_1 rec)) (loc_of_shr_record (shr_1 rec)) (w / 2).
Proof.
  destruct rec as [m r s]. cbn [shr_m]. intros Hm H.
  rewrite shr_1_nonneg by assumption. cbn [shr_m].
  pose proof (inject_Z_half m) as Hh.
  assert (Hw : (w / 2 == w * (1 # 2))%Q) by (unfold Qdiv; reflexivity).
  destruct r, s; cbn [loc_of_shr_record inbetween orb] in H |- *;
    try (destruct H as (H1 & H2 & H3); apply Qcompare_elim in H3);
    destruct (Z.odd m); cbn [loc_of_shr_record inbetween];
    rewrite ?Hw;
    try (split; [lra|split; [lra|apply Qcompare_intro; lra]]);
    lra.
Qed.

Lemma shr_1_m_nonneg rec : 0 <= shr_m rec -> 0 <= shr_m (shr_1 rec).
Proof.
  destruct rec as [m r s]. cbn [shr_m]. intros Hm.
  rewrite shr_1_nonneg by assumption. cbn [shr_m]. apply Z.div_pos; lia.
Qed.

Lemma shr_1_m rec : 0 <= shr_m rec -> shr_m (shr_1 rec) = shr_m rec / 2.
Proof.
  destruct rec as [m r s]. cbn [shr_m]. intros Hm.
  rewrite shr_1_nonneg by assumption. reflexivity.
Qed.

Lemma shr_iter_inbetween n rec w :
  0 <= shr_m rec ->
  inbetween (shr_m rec) (loc_of_shr_record rec) w ->
  let rec' := Nat.iter n shr_1 rec in
  0 <= shr_m rec'
  /\ shr_m rec' = shr_m rec / 2 ^ Z.of_nat n
  /\ inbetween (shr_m rec') (loc_of_shr_record rec') (w / pow2 (Z.of_nat n)).
Proof.
  intros Hm H. induction n as [|n IH]; cbn zeta.
  - cbn [Nat.iter nat_rect]. split; [assumption|]. split.
    + change (2 ^ Z.of_nat 0) with 1. rewrite Z.div_1_r. reflexivity.
    + change (pow2 (Z.of_nat 0)) with 1%Q.
      apply (inbetween_eq _ _ w); [field | exact H].
  - cbn zeta in IH. destruct IH as (IH1 & IH2 & IH3).
    rewrite Nat.iter_succ.
    split; [apply shr_1_m_nonneg; assumption|]. split.
    + rewrite shr_1_m, IH2 by assumption.
      rewrite Z.div_div by (try apply Z.pow_pos_nonneg; lia).
      rewrite Nat2Z.inj_succ, Z.pow_succ_r by lia. f_equal. lia.
    + apply shr_1_inbetween in IH3; [|assumption].
      assert (Hw : (w / pow2 (Z.of_nat n) / 2 == w / pow2 (Z.of_nat (S n)))%Q).
      { rewrite Nat2Z.inj_succ. unfold Z.succ. rewrite pow2_succ.
        pose proof (pow2_pos (Z.of_nat n)). field. lra. }
      exact (inbetween_eq _ _ _ _ Hw IH3).
Qed.
End Nearest.

Section NearestRound.
Local Open Scope Z_scope.

(** [a] is at least as near to [x] as [b] is. *)
Definition nearer (a b x : Q) : Prop := (Qabs (a - x) <= Qabs (b - x))%Q.

Lemma nearer_intro a b x :
  ((b <= x -> x - b >= a - x /\ x - b >= x - a)
   /\ (x <= b -> b - x >= a - x /\ b - x >= x - a))%Q ->
  nearer a b x.
Proof.
  intros [H1 H2]. unfold nearer. apply Qabs_Qle_condition.
  destruct (Qlt_le_dec x b) as [Hlt|Hle].
  - rewrite (Qabs_pos (b - x)) by lra. destruct H2; lra.
  - rewrite (Qabs_neg (b - x)) by lra. destruct H1; lra.
Qed.

Lemma nearer_elim a b x :
  nearer a b x ->
  ((b <= x -> a - x <= x - b /\ x - a <= x - b)
   /\ (x <= b -> a - x <= b - x /\ x - a <= b - x))%Q.
Proof.
  unfold nearer. intros H. apply Qabs_Qle_condition in H. split; intros Hb.
  - rewrite (Qabs_neg (b - x)) in H by lra. lra.
  - rewrite (Qabs_pos (b - x)) in H by lra. lra.
Qed.

Lemma nearer_scale a b x c :
  (0 < c)%Q -> nearer a b x -> nearer (a * c) (b * c) (x * c).
Proof.
  intros Hc H. apply nearer_elim in H. destruct H as [H1 H2].
  apply nearer_intro. split; intros Hb.
  - assert (b <= x)%Q by nra. destruct (H1 ltac:(assumption)). nra.
  - assert (x <= b)%Q by nra. destruct (H2 ltac:(assumption)). nra.
Qed.

(** Rounding the located real gives a nearest integer. *)
Lemma round_nearest_even_nearest m l w :
  inbetween m l w ->
  let m' := round_nearest_even m l in
  (m' = m \/ m' = m + 1)
  /\ forall k : Z, nearer (inject_Z m') (inject_Z k) w.
Proof.
  intros H. cbn zeta.
  assert (Hk : forall k : Z, (inject_Z k <= inject_Z m \/ inject_Z m + 1 <= inject_Z k)%Q).
  { intros k. destruct (Z.le_gt_cases k m) as [Hle|Hgt].
    - left. rewrite <- Zle_Qle. exact Hle.
    - right. change 1%Q with (inject_Z 1). rewrite <- inject_Z_plus, <- Zle_Qle. lia. }
  assert (Hm1 : (inject_Z (m + 1) == inject_Z m + 1)%Q)
    by (rewrite inject_Z_plus; reflexivity).
  destruct l as [|c]; cbn [inbetween round_nearest_even] in *.
  - split; [auto|]. intros k. apply nearer_intro. lra.
  - destruct H as (H1 & H2 & H3). apply Qcompare_elim in H3.
    destruct c.
    + destruct (Z.even m); (split; [auto|]); intros k; apply nearer_intro;
        rewrite ?Hm1; destruct (Hk k); lra.
    + split; [auto|]. intros k. apply nearer_intro. destruct (Hk k); lra.
    + split; [auto|]. intros k. apply nearer_intro. rewrite Hm1.
      destruct (Hk k); lra.
Qed.

Lemma Zdigits2_bounds m :
  0 < m -> 2 ^ (Zdigits2 m - 1) <= m < 2 ^ Zdigits2 m.
Proof.
  intros Hm. destruct m as [|p|p]; try lia. apply digits2_pos_bounds.
Qed.

Lemma Zdigits2_nonneg m : 0 <= Zdigits2 m.
Proof. destruct m; simpl; lia. Qed.

(** The first shift of [binary_round_aux] brings the mantissa to the
    target exponent. *)
Lemma shr_fexp_inbetween mx ex lx x :
  0 <= mx ->
  inbetween mx lx (x / pow2 ex) ->
  ex <= fexp prec emax (Zdigits2 mx + ex) ->
  let e1 := fexp prec emax (Zdigits2 mx + ex) in
  exists rec,
    shr_fexp prec emax mx ex lx = (rec, e1)
    /\ 0 <= shr_m rec
    /\ shr_m rec = mx / 2 ^ (e1 - ex)
    /\ inbetween (shr_m rec) (loc_of_shr_record rec) (x / pow2 e1).
Proof.
  intros Hm H He e1. unfold shr_fexp, shr. fold e1.
  destruct (e1 - ex) as [|p|p] eqn:En; [| |lia].
  - exists (shr_record_of_loc mx lx). assert (e1 = ex) as -> by lia.
    rewrite shr_m_record_of_loc, loc_of_record_of_loc, Z.div_1_r. auto.
  - exists (SpecFloat.iter_pos shr_1 p (shr_record_of_loc mx lx)).
    rewrite iter_pos_nat.
    assert (Hm' : 0 <= shr_m (shr_record_of_loc mx lx))
      by (rewrite shr_m_record_of_loc; assumption).
    assert (H' : inbetween (shr_m (shr_record_of_loc mx lx))
                   (loc_of_shr_record (shr_record_of_loc mx lx)) (x / pow2 ex))
      by (rewrite shr_m_record_of_loc, loc_of_record_of_loc; assumption).
    destruct (shr_iter_inbetween (Pos.to_nat p) _ _ Hm' H') as (I1 & I2 & I3).
    rewrite positive_nat_Z in I2, I3. rewrite shr_m_record_of_loc in I2.
    split; [f_equal; lia|]. split; [exact I1|]. split; [exact I2|].
    assert (Hx : (x / pow2 ex / pow2 (Zpos p) == x / pow2 e1)%Q).
    { replace e1 with (ex + Zpos p) by lia. rewrite pow2_add.
      pose proof (pow2_pos ex). pose proof (pow2_pos (Zpos p)). field. lra. }
    exact (inbetween_eq _ _ _ _ Hx I3).
Qed.

(** After the first shift the mantissa has at most 53 bits, and exactly
    53 above the subnormal range. *)
Lemma shifted_mantissa_bounds mx ex :
  0 <= mx -> ex <= fexp prec emax (Zdigits2 mx + ex) ->
  let e1 := fexp prec emax (Zdigits2 mx + ex) in
  let m1 := mx / 2 ^ (e1 - ex) in
  -1074 <= e1 /\ m1 < 2 ^ 53 /\ (2 ^ 52 <= m1 \/ e1 = -1074).
Proof.
  intros Hm He. cbn zeta. rewrite fexp_eq in *.
  set (d := Zdigits2 mx) in *. pose proof (Zdigits2_nonneg mx) as Hd. fold d in Hd.
  split; [lia|].
  destruct (Z.eq_dec mx 0) as [->|Hnz].
  - rewrite Z.div_0_l by (apply Z.pow_nonzero; lia).
    split; [reflexivity|]. right. unfold d in *. simpl in *. lia.
  - pose proof (Zdigits2_bounds mx ltac:(lia)) as [Hl Hu]. fold d in Hl, Hu.
    destruct (Z.le_gt_cases (-1074) (d + ex - 53)) as [Hn|Hs].
    + replace (Z.max (d + ex - 53) (-1074) - ex) with (d - 53) by lia.
      assert (Hd53 : 53 <= d) by lia.
      assert (Hp : 0 < 2 ^ (d - 53)) by (apply Z.pow_pos_nonneg; lia).
      assert (Hsplit1 : 2 ^ d = 2 ^ 53 * 2 ^ (d - 53))
        by (rewrite <- Z.pow_add_r by lia; f_equal; lia).
      assert (Hsplit2 : 2 ^ (d - 1) = 2 ^ 52 * 2 ^ (d - 53))
        by (rewrite <- Z.pow_add_r by lia; f_equal; lia).
      split; [apply Z.div_lt_upper_bound; lia|].
      left. apply Z.div_le_lower_bound; lia.
    + replace (Z.max (d + ex - 53) (-1074) - ex) with (-1074 - ex) by lia.
      assert (Hp : 0 < 2 ^ (-1074 - ex)) by (apply Z.pow_pos_nonneg; lia).
      split; [|right; lia].
      apply Z.div_lt_upper_bound; [lia|].
      assert (2 ^ d <= 2 ^ (53 + (-1074 - ex))) by (apply Z.pow_le_mono_r; lia).
      rewrite Z.pow_add_r in * by lia. lia.
Qed.
End NearestRound.

Section NearestFloat.
Local Open Scope Z_scope.

Lemma nearer_eq a a' b b' x x' :
  (a == a')%Q -> (b == b')%Q -> (x == x')%Q -> nearer a b x -> nearer a' b' x'.
Proof. unfold nearer. intros -> -> ->. auto. Qed.

(** Something at least as near as a point between [g] and [x] is at least
    as near as [g]. *)
Lemma nearer_beyond a b g x :
  (g <= b)%Q -> (b <= x)%Q -> nearer a b x -> nearer a g x.
Proof.
  intros Hg Hb H. apply nearer_elim in H. destruct H as [H1 _].
  specialize (H1 Hb). apply nearer_intro. split; intros; lra.
Qed.

Lemma inbetween_lower m l w : inbetween m l w -> (inject_Z m <= w)%Q.
Proof.
  destruct l; cbn [inbetween]; [intros ->; lra | intros (H & _); lra].
Qed.

Lemma shr_iter_m n rec :
  0 <= shr_m rec -> shr_m (Nat.iter n shr_1 rec) = shr_m rec / 2 ^ Z.of_nat n.
Proof.
  intros Hm. induction n as [|n IH].
  - cbn [Nat.iter nat_rect]. change (2 ^ Z.of_nat 0) with 1.
    rewrite Z.div_1_r. reflexivity.
  - rewrite Nat.iter_succ, shr_1_m, IH.
    + rewrite Z.div_div by (try apply Z.pow_pos_nonneg; lia).
      rewrite Nat2Z.inj_succ, Z.pow_succ_r by lia. f_equal. lia.
    + rewrite IH. apply Z.div_pos; [assumption | apply Z.pow_pos_nonneg; lia].
Qed.

Lemma round_tail_zero s e : round_tail s 0 e = S754_zero s.
Proof.
  unfold round_tail, shr_fexp, shr. cbn [Zdigits2 shr_record_of_loc].
  destruct (fexp prec emax (0 + e) - e) as [|p|p]; try reflexivity.
  rewrite iter_pos_nat, shr_iter_m by (cbn; lia). cbn [shr_m].
  rewrite Z.div_0_l by (apply Z.pow_nonzero; lia). reflexivity.
Qed.

Lemma round_tail_normal s p e :
  fexp prec emax (Zpos (digits2_pos p) + e) <= e ->
  round_tail s (Zpos p) e
  = if e <=? 971 then S754_finite s p e else S754_infinity s.
Proof.
  intros Hf. unfold round_tail, shr_fexp, shr. cbn [Zdigits2 shr_record_of_loc].
  destruct (fexp prec emax (Zpos (digits2_pos p) + e) - e) eqn:E; [| lia |];
    reflexivity.
Qed.

Lemma round_tail_carry_general s e :
  -1074 <= e ->
  round_tail s 9007199254740992 e
  = if e + 1 <=? 971 then S754_finite s 4503599627370496 (e + 1)
    else S754_infinity s.
Proof.
  intros He. unfold round_tail, shr_fexp. cbn [Zdigits2].
  change (Zpos (digits2_pos 9007199254740992)) with 54. rewrite fexp_eq.
  replace (Z.max (54 + e - 53) (-1074) - e) with 1 by lia.
  reflexivity.
Qed.

(** The magnitude of a finite float, 0 for the others. *)
Definition mag (f : spec_float) : Q :=
  match f with
  | S754_finite _ m e => SV (Zpos m) e
  | _ => 0%Q
  end.

(** The non-negative binary64 values. *)
Definition grid (g : Q) : Prop :=
  (g == 0)%Q
  \/ exists m e, valid_binary (S754_finite false m e) = true /\ (g == SV (Zpos m) e)%Q.

Lemma valid_bounds s m e :
  valid_binary (S754_finite s m e) = true ->
  -1074 <= e <= 971 /\ Zpos m < 2 ^ 53
  /\ (2 ^ 52 <= Zpos m \/ e = -1074).
Proof.
  unfold valid_binary, bounded, canonical_mantissa. intros H.
  apply andb_prop in H. destruct H as [H1 H2].
  apply Z.eqb_eq in H1. apply Z.leb_le in H2. change (emax - prec) with 971 in H2.
  rewrite fexp_eq in H1. pose proof (digits2_pos_bounds m) as [Hl Hu].
  split; [lia|]. split.
  - eapply Z.lt_le_trans; [exact Hu|]. apply Z.pow_le_mono_r; lia.
  - destruct (Z.eq_dec e (-1074)); [right; assumption|]. left.
    assert (Zpos (digits2_pos m) = 53) as Hd by lia. rewrite Hd in Hl. exact Hl.
Qed.

Lemma SV_shift m e e' :
  e' <= e -> (SV m e == SV (m * 2 ^ (e - e')) e')%Q.
Proof.
  intros He. unfold SV. rewrite inject_Z_mult, <- pow2_Z by lia.
  replace e with (e' + (e - e')) at 1 by lia. rewrite pow2_add. ring.
Qed.

(** The rounded result of [binary_round_aux] is a binary64 value nearest
    to the real it was given, unless it overflows. *)
Theorem binary_round_aux_nearest s mx ex lx x :
  0 <= mx ->
  inbetween mx lx (x / pow2 ex) ->
  ex <= fexp prec emax (Zdigits2 mx + ex) ->
  let r := binary_round_aux prec emax s mx ex lx in
  r = S754_infinity s
  \/ ((r = S754_zero s \/ exists m e, r = S754_finite s m e)
      /\ forall g, grid g -> nearer (mag r) g x).
Proof.
  intros Hmx Hin Hex. cbn zeta. rewrite binary_round_aux_tail.
  destruct (shr_fexp_inbetween mx ex lx x Hmx Hin Hex) as (rec & E & Hr0 & Hrm & Hin1).
  rewrite E.
  destruct (shifted_mantissa_bounds mx ex Hmx Hex) as (He1 & Hm1u & Hm1l).
  rewrite <- Hrm in Hm1u, Hm1l.
  set (e1 := fexp prec emax (Zdigits2 mx + ex)) in *.
  set (m1 := shr_m rec) in *. set (l1 := loc_of_shr_record rec) in *.
  destruct (round_nearest_even_nearest m1 l1 _ Hin1) as [Hm2 Hnear].
  set (m2 := round_nearest_even m1 l1) in *.
  pose proof (pow2_pos e1) as Hp1.
  assert (Hx : (x / pow2 e1 * pow2 e1 == x)%Q) by (field; lra).
  (* nearest among the grid, for the value m2 * 2^e1 *)
  assert (Hgrid : forall g, grid g -> nearer (SV m2 e1) g x).
  { intros g [Hg|(mw & ew & Hv & Hg)].
    - apply (nearer_eq (inject_Z m2 * pow2 e1) _ (inject_Z 0 * pow2 e1) _
               (x / pow2 e1 * pow2 e1));
        [reflexivity | rewrite Hg; ring | exact Hx |].
      apply nearer_scale; [exact Hp1 | apply Hnear].
    - destruct (valid_bounds _ _ _ Hv) as (Hew & Hmw & Hmwl).
      destruct (Z.le_gt_cases e1 ew) as [Hle|Hgt].
      + apply (nearer_eq (inject_Z m2 * pow2 e1) _
                 (inject_Z (Zpos mw * 2 ^ (ew - e1)) * pow2 e1) _
                 (x / pow2 e1 * pow2 e1));
          [reflexivity | rewrite Hg; symmetry; apply SV_shift; exact Hle
           | exact Hx |].
        apply nearer_scale; [exact Hp1 | apply Hnear].
      + destruct Hm1l as [Hm1l|Hm1l]; [|lia].
        apply (nearer_beyond _ (inject_Z (2 ^ 52) * pow2 e1)).
        * rewrite Hg. unfold SV.
          assert (Hmw' : (inject_Z (Zpos mw) <= inject_Z (2 ^ 53))%Q)
            by (rewrite <- Zle_Qle; lia).
          assert (Hpe : (2 * pow2 ew <= pow2 e1)%Q)
            by (rewrite <- pow2_succ; apply pow2_le; lia).
          pose proof (pow2_pos ew).
          change (inject_Z (2 ^ 53)) with (2 * inject_Z (2 ^ 52))%Q in Hmw'.
          assert (0 < inject_Z (2 ^ 52))%Q by reflexivity.
          nra.
        * apply inbetween_lower in Hin1.
          assert (Hm1q : (inject_Z (2 ^ 52) <= inject_Z m1)%Q)
            by (rewrite <- Zle_Qle; exact Hm1l).
          assert (inject_Z m1 * pow2 e1 <= x / pow2 e1 * pow2 e1)%Q by nra.
          nra.
        * apply (nearer_eq (inject_Z m2 * pow2 e1) _
                   (inject_Z (2 ^ 52) * pow2 e1) _ (x / pow2 e1 * pow2 e1));
            [reflexivity | reflexivity | exact Hx |].
          apply nearer_scale; [exact Hp1 | apply Hnear]. }
  (* the shape of the result *)
  assert (Hm2r : 0 <= m2 <= 2 ^ 53) by (unfold m1 in *; lia).
  destruct (Z.eq_dec m2 0) as [Hz|Hnz].
  - rewrite Hz, round_tail_zero. right. split; [left; reflexivity|].
    intros g Hg. cbn [mag].
    apply (nearer_eq (SV m2 e1) _ g _ x _); [|reflexivity|reflexivity|auto].
    rewrite Hz. unfold SV. ring.
  - destruct (Z.eq_dec m2 (2 ^ 53)) as [Hc|Hnc].
    + rewrite Hc. change (2 ^ 53) with 9007199254740992.
      rewrite round_tail_carry_general by exact He1.
      destruct (e1 + 1 <=? 971); [right | left; reflexivity].
      split; [right; eauto|]. intros g Hg. cbn [mag].
      apply (nearer_eq (SV m2 e1) _ g _ x _); [|reflexivity|reflexivity|auto].
      rewrite Hc. unfold SV. rewrite pow2_succ.
      change (inject_Z (2 ^ 53)) with (2 * inject_Z 4503599627370496)%Q. ring.
    + destruct m2 as [|p|p] eqn:Em2; [lia| |lia].
      assert (Hfe : fexp prec emax (Zpos (digits2_pos p) + e1) <= e1).
      { rewrite fexp_eq. pose proof (digits2_pos_bounds p) as [Hl Hu].
        assert (Hd : Zpos (digits2_pos p) <= 53)
          by (apply digits2_pos_le; lia).
        lia. }
      rewrite round_tail_normal by exact Hfe.
      destruct (e1 <=? 971); [right | left; reflexivity].
      split; [right; eauto|]. intros g Hg. cbn [mag]. auto.
Qed.
End NearestFloat.

Section NearestOps.
Local Open Scope Z_scope.

(** The value of a finite float, 0 for the others. *)
Definition FV (f : spec_float) : Q :=
  match f with
  | S754_finite s m e => SV (cond_Zopp s (Zpos m)) e
  | _ => 0%Q
  end.

Definition finite_SF (f : spec_float) : Prop :=
  match f with
  | S754_zero _ | S754_finite _ _ _ => True
  | _ => False
  end.

(** The binary64 values of either sign. *)
Definition fgrid (g : Q) : Prop := grid g \/ grid (- g).

Lemma SV_opp m e : (SV (- m) e == - SV m e)%Q.
Proof. unfold SV. rewrite inject_Z_opp. ring. Qed.

Lemma FV_fgrid f :
  valid_binary f = true -> fgrid (FV f).
Proof.
  destruct f as [s|s| |s m e]; cbn [FV]; intros Hv;
    try (left; left; reflexivity).
  assert (Hv' : valid_binary (S754_finite false m e) = true) by exact Hv.
  destruct s; cbn [cond_Zopp].
  - right. right. exists m, e. split; [exact Hv'|].
    pose proof (SV_opp (Zpos m) e) as Ho. lra.
  - left. right. exists m, e. split; [exact Hv' | reflexivity].
Qed.

Lemma grid_nonneg g : grid g -> (0 <= g)%Q.
Proof.
  intros [->|(m & e & _ & ->)]; [lra|]. unfold SV.
  pose proof (pow2_pos e). assert (0 < inject_Z (Zpos m))%Q by reflexivity. nra.
Qed.

Lemma nearer_opp a b x : nearer a b x -> nearer (- a) (- b) (- x).
Proof.
  unfold nearer. intros H.
  assert (E1 : (- a - - x == - (a - x))%Q) by ring.
  assert (E2 : (- b - - x == - (b - x))%Q) by ring.
  rewrite E1, E2, !Qabs_opp. exact H.
Qed.

(** From the non-negative values to those of either sign. *)
Lemma nearer_fgrid a x :
  (0 <= x)%Q -> (forall g, grid g -> nearer a g x) ->
  forall g, fgrid g -> nearer a g x.
Proof.
  intros Hx H g [Hg|Hg]; [auto|].
  apply grid_nonneg in Hg.
  apply (nearer_beyond a 0); [lra | lra |]. apply H. left. reflexivity.
Qed.

Lemma shl_align_spec p e e' :
  let '(mz, ez) := shl_align p e e' in
  ez <= e /\ ez <= Z.max e' ez /\ (e' < e -> ez = e') /\ (e <= e' -> ez = e)
  /\ Zpos mz = Zpos p * 2 ^ (e - ez)
  /\ Zpos (digits2_pos mz) + ez = Zpos (digits2_pos p) + e.
Proof.
  unfold shl_align. destruct (e' - e) as [|k|k] eqn:E.
  - change (2 ^ (e - e)) with (2 ^ (e - e)). rewrite Z.sub_diag.
    repeat split; try lia.
  - rewrite Z.sub_diag. repeat split; try lia.
  - rewrite iter_xO_value, digits2_pos_shift.
    replace (e - e') with (Zpos k) by lia. repeat split; lia.
Qed.

(** [binary_round] gives a nearest binary64 value. *)
Lemma binary_round_nearest s p e :
  let r := binary_round prec emax s p e in
  r = S754_infinity s
  \/ ((r = S754_zero s \/ exists m e', r = S754_finite s m e')
      /\ forall g, grid g -> nearer (mag r) g (SV (Zpos p) e)).
Proof.
  cbn zeta. unfold binary_round.
  pose proof (shl_align_spec p e (fexp prec emax (Zpos (digits2_pos p) + e))) as H.
  destruct (shl_align p e _) as [mz ez].
  destruct H as (H1 & _ & H3 & H4 & H5 & H6).
  apply binary_round_aux_nearest.
  - lia.
  - cbn [inbetween]. rewrite (SV_shift (Zpos p) e ez H1), <- H5. unfold SV.
    pose proof (pow2_pos ez). field. lra.
  - cbn [Zdigits2]. rewrite H6.
    destruct (Z.le_gt_cases e (fexp prec emax (Zpos (digits2_pos p) + e))); lia.
Qed.

Lemma binary_normalize_nearest T e :
  let r := binary_normalize prec emax T e false in
  finite_SF r ->
  forall g, fgrid g -> nearer (FV r) g (SV T e).
Proof.
  cbn zeta. destruct T as [|p|p]; cbn [binary_normalize].
  - intros _ g Hg. cbn [FV]. unfold nearer, SV.
    assert (E : (0 - inject_Z 0 * pow2 e == 0)%Q) by ring.
    rewrite E. apply Qabs_nonneg.
  - destruct (binary_round_nearest false p e) as [Hr|[Hs Hn]];
      [rewrite Hr; intros []|].
    intros _. apply nearer_fgrid.
    + unfold SV. pose proof (pow2_pos e).
      assert (0 < inject_Z (Zpos p))%Q by reflexivity. nra.
    + intros g Hg. specialize (Hn g Hg).
      destruct Hs as [Hs|(m & e' & Hs)]; rewrite Hs in *; exact Hn.
  - destruct (binary_round_nearest true p e) as [Hr|[Hs Hn]];
      [rewrite Hr; intros []|].
    intros _ g Hg.
    assert (Hg' : fgrid (- g)).
    { destruct Hg as [Hg|Hg]; [right|left].
      - assert (E : (- - g == g)%Q) by ring. destruct Hg as [Hg|(m & e' & Hv & Hg)].
        + left. lra.
        + right. exists m, e'. split; [exact Hv | lra].
      - exact Hg. }
    assert (Hpos : (0 <= SV (Zpos p) e)%Q).
    { unfold SV. pose proof (pow2_pos e).
      assert (0 < inject_Z (Zpos p))%Q by reflexivity. nra. }
    pose proof (nearer_fgrid _ _ Hpos Hn (- g) Hg') as H.
    apply nearer_opp in H.
    assert (Ex : (- SV (Zpos p) e == SV (Z.neg p) e)%Q)
      by (symmetry; apply (SV_opp (Zpos p) e)).
    assert (Eg : (- - g == g)%Q) by ring.
    destruct Hs as [Hs|(m & e' & Hs)]; rewrite Hs in *; cbn [FV mag cond_Zopp] in *.
    + assert (Ea : (- 0 == 0)%Q) by ring.
      exact (nearer_eq _ _ _ _ _ _ Ea Eg Ex H).
    + assert (Ea : (- SV (Zpos m) e' == SV (- Zpos m) e')%Q)
        by (symmetry; apply SV_opp).
      exact (nearer_eq _ _ _ _ _ _ Ea Eg Ex H).
Qed.

Lemma nearer_exact b x : nearer x b x.
Proof.
  unfold nearer. assert (E : (x - x == 0)%Q) by ring. rewrite E. apply Qabs_nonneg.
Qed.

Lemma fst_shl_align_value p e e' :
  e' <= e -> (SV (Zpos (fst (shl_align p e e'))) e' == SV (Zpos p) e)%Q.
Proof.
  intros He. pose proof (shl_align_spec p e e') as H.
  destruct (shl_align p e e') as [mz ez]. cbn [fst].
  destruct H as (H1 & _ & H3 & H4 & H5 & _).
  assert (ez = e') as -> by (destruct (Z.eq_dec e e'); lia).
  rewrite H5. symmetry. apply SV_shift. exact He.
Qed.

Lemma SV_cond_Zopp s m e : (SV (cond_Zopp s m) e == (if s then - SV m e else SV m e))%Q.
Proof. destruct s; cbn [cond_Zopp]; [apply SV_opp | reflexivity]. Qed.

Lemma SV_plus a b e : (SV (a + b) e == SV a e + SV b e)%Q.
Proof. unfold SV. rewrite inject_Z_plus. ring. Qed.

(** Addition gives a binary64 value nearest to the exact sum. *)
Theorem SFadd_nearest a b :
  finite_SF (SFadd prec emax a b) ->
  finite_SF a /\ finite_SF b
  /\ forall g, fgrid g -> nearer (FV (SFadd prec emax a b)) g (FV a + FV b).
Proof.
  destruct a as [sa|sa| |sa ma ea], b as [sb|sb| |sb mb eb]; intros H;
    try (cbn [SFadd finite_SF] in H; contradiction);
    try (destruct sa, sb; cbn [SFadd finite_SF] in H; contradiction);
    (split; [exact I|]); (split; [exact I|]); intros g Hg.
  - apply (nearer_eq 0 _ g _ 0); [|reflexivity|cbn [FV]; ring|apply nearer_exact].
    destruct sa, sb; reflexivity.
  - cbn [SFadd FV].
    apply (nearer_eq _ _ g _ _ _ ltac:(reflexivity) ltac:(reflexivity)
             ltac:(symmetry; apply Qplus_0_l)).
    apply nearer_exact.
  - cbn [SFadd FV].
    apply (nearer_eq _ _ g _ _ _ ltac:(reflexivity) ltac:(reflexivity)
             ltac:(symmetry; apply Qplus_0_r)).
    apply nearer_exact.
  - cbn [SFadd] in H |- *. cbn [FV].
    set (ez := Z.min ea eb) in *.
    pose proof (binary_normalize_nearest _ ez H g Hg) as Hn.
    eapply nearer_eq; [reflexivity | reflexivity | | exact Hn].
    pose proof (fst_shl_align_value ma ea ez ltac:(unfold ez; lia)) as Ea.
    pose proof (fst_shl_align_value mb eb ez ltac:(unfold ez; lia)) as Eb.
    pose proof (SV_plus (cond_Zopp sa (Zpos (fst (shl_align ma ea ez))))
                  (cond_Zopp sb (Zpos (fst (shl_align mb eb ez)))) ez) as Ep.
    pose proof (SV_cond_Zopp sa (Zpos (fst (shl_align ma ea ez))) ez) as Ca.
    pose proof (SV_cond_Zopp sb (Zpos (fst (shl_align mb eb ez))) ez) as Cb.
    pose proof (SV_cond_Zopp sa (Zpos ma) ea) as Ca'.
    pose proof (SV_cond_Zopp sb (Zpos mb) eb) as Cb'.
    destruct sa, sb; lra.
Qed.
End NearestOps.

Section NearestMul.
Local Open Scope Z_scope.

(** A nearest value is not below a grid value below the real, nor above a
    grid value above it. *)
Lemma nearer_ge a g x : nearer a g x -> (g <= x)%Q -> (g <= a)%Q.
Proof.
  intros H Hg. apply nearer_elim in H. destruct H as [H _].
  destruct (H Hg). lra.
Qed.

Lemma nearer_le a g x : nearer a g x -> (x <= g)%Q -> (a <= g)%Q.
Proof.
  intros H Hg. apply nearer_elim in H. destruct H as [_ H].
  destruct (H Hg). lra.
Qed.

(** The result of a rounding with sign [s], seen as a signed value. *)
Lemma signed_nearest s r x :
  (r = S754_zero s \/ exists m e, r = S754_finite s m e) ->
  (0 <= x)%Q ->
  (forall g, grid g -> nearer (mag r) g x) ->
  forall g, fgrid g -> nearer (FV r) g (if s then - x else x)%Q.
Proof.
  intros Hs Hx Hn g Hg. destruct s.
  - assert (Hg' : fgrid (- g)).
    { destruct Hg as [Hg|Hg]; [right|left; exact Hg].
      destruct Hg as [Hg|(m & e' & Hv & Hg)].
      - left. lra.
      - right. exists m, e'. split; [exact Hv | lra]. }
    pose proof (nearer_fgrid _ _ Hx Hn (- g) Hg') as H. apply nearer_opp in H.
    assert (Eg : (- - g == g)%Q) by ring.
    destruct Hs as [Hs|(m & e & Hs)]; rewrite Hs in *; cbn [FV mag cond_Zopp] in *.
    + assert (Ea : (- 0 == 0)%Q) by ring.
      exact (nearer_eq _ _ _ _ _ _ Ea Eg ltac:(reflexivity) H).
    + assert (Ea : (- SV (Zpos m) e == SV (- Zpos m) e)%Q)
        by (symmetry; apply SV_opp).
      exact (nearer_eq _ _ _ _ _ _ Ea Eg ltac:(reflexivity) H).
  - pose proof (nearer_fgrid _ _ Hx Hn g Hg) as H.
    destruct Hs as [Hs|(m & e & Hs)]; rewrite Hs in *; exact H.
Qed.

Lemma digits2_pos_ge p k : 2 ^ k <= Zpos p -> k + 1 <= Zpos (digits2_pos p).
Proof.
  intros H. pose proof (digits2_pos_bounds p) as [_ Hu].
  destruct (Z.le_gt_cases (k + 1) (Zpos (digits2_pos p))) as [|Hgt]; [assumption|].
  assert (2 ^ Zpos (digits2_pos p) <= 2 ^ k) by (apply Z.pow_le_mono_r; lia). lia.
Qed.

Lemma SV_mult a b e e' : (SV (a * b) (e + e') == SV a e * SV b e')%Q.
Proof. unfold SV. rewrite inject_Z_mult, pow2_add. ring. Qed.

(** Multiplication gives a binary64 value nearest to the exact product. *)
Theorem SFmul_nearest a b :
  valid_binary a = true -> valid_binary b = true ->
  finite_SF (SFmul prec emax a b) ->
  finite_SF a /\ finite_SF b
  /\ forall g, fgrid g -> nearer (FV (SFmul prec emax a b)) g (FV a * FV b).
Proof.
  intros Va Vb.
  destruct a as [sa|sa| |sa ma ea], b as [sb|sb| |sb mb eb]; intros H;
    try (cbn [SFmul finite_SF] in H; contradiction);
    (split; [exact I|]); (split; [exact I|]); intros g Hg.
  - apply (nearer_eq 0 _ g _ 0); [reflexivity|reflexivity|cbn [FV]; ring|apply nearer_exact].
  - apply (nearer_eq 0 _ g _ 0); [reflexivity|reflexivity|cbn [FV]; ring|apply nearer_exact].
  - apply (nearer_eq 0 _ g _ 0); [reflexivity|reflexivity|cbn [FV]; ring|apply nearer_exact].
  - cbn [SFmul] in H |- *.
    destruct (valid_bounds _ _ _ Va) as (Hea & Hma & Hla).
    destruct (valid_bounds _ _ _ Vb) as (Heb & Hmb & Hlb).
    assert (Hpre : ea + eb <= fexp prec emax (Zdigits2 (Zpos (ma * mb)) + (ea + eb))).
    { cbn [Zdigits2]. rewrite fexp_eq.
      pose proof (Pos2Z.is_pos (digits2_pos (ma * mb))) as Hd0.
      destruct Hla as [Hla|Hla], Hlb as [Hlb|Hlb].
      - assert (2 ^ 104 <= Zpos (ma * mb))
          by (rewrite Pos2Z.inj_mul; change (2 ^ 104) with (2 ^ 52 * 2 ^ 52); nia).
        pose proof (digits2_pos_ge _ _ H0). lia.
      - assert (2 ^ 52 <= Zpos (ma * mb)) by (rewrite Pos2Z.inj_mul; nia).
        pose proof (digits2_pos_ge _ _ H0). lia.
      - assert (2 ^ 52 <= Zpos (ma * mb)) by (rewrite Pos2Z.inj_mul; nia).
        pose proof (digits2_pos_ge _ _ H0). lia.
      - lia. }
    assert (Hx0 : (0 <= SV (Zpos (ma * mb)) (ea + eb))%Q).
    { unfold SV. pose proof (pow2_pos (ea + eb)).
      assert (0 < inject_Z (Zpos (ma * mb)))%Q by reflexivity. nra. }
    destruct (binary_round_aux_nearest (xorb sa sb) (Zpos (ma * mb)) (ea + eb)
                loc_Exact (SV (Zpos (ma * mb)) (ea + eb)) ltac:(lia)) as [Hr|[Hs Hn]].
    + cbn [inbetween]. unfold SV. pose proof (pow2_pos (ea + eb)). field. lra.
    + exact Hpre.
    + rewrite Hr in H. contradiction.
    + pose proof (signed_nearest _ _ _ Hs Hx0 Hn g Hg) as Hsn.
      eapply nearer_eq; [reflexivity | reflexivity | | exact Hsn].
      cbn [FV]. rewrite Pos2Z.inj_mul.
      pose proof (SV_mult (Zpos ma) (Zpos mb) ea eb) as Em.
      pose proof (SV_cond_Zopp sa (Zpos ma) ea) as Ca.
      pose proof (SV_cond_Zopp sb (Zpos mb) eb) as Cb.
      destruct sa, sb; cbn [xorb]; nra.
Qed.
End NearestMul.

(** ** Float operations: values of the results *)

Section FloatValues.
Local Open Scope Z_scope.

Definition finite (f : float) : Prop := finite_SF (Prim2SF f).

Lemma F2Q_FV (f : float) : (F2Q f == FV (Prim2SF f))%Q.
Proof.
  unfold F2Q, FV. destruct (Prim2SF f) as [s|s| |s m e]; try reflexivity.
  destruct e as [|k|k]; unfold SV.
  - change (pow2 0) with 1%Q. rewrite Z.mul_1_r. ring.
  - rewrite inject_Z_mult, <- pow2_Z by lia. reflexivity.
  - rewrite Qmake_Qdiv. unfold Qdiv.
    assert (E : (pow2 (Zneg k) == / inject_Z (Zpos (2 ^ k)))%Q).
    { change (Zneg k) with (- Zpos k). unfold pow2. rewrite Qpower_opp.
      fold (pow2 (Zpos k)). rewrite pow2_Z by lia. rewrite Pos2Z.inj_pow.
      reflexivity. }
    rewrite E. reflexivity.
Qed.

Lemma py_round_finite (f : float) X : py_round f = Ok X -> finite f.
Proof.
  unfold py_round, finite. destruct (Prim2SF f); try discriminate; intros _; exact I.
Qed.

Lemma py_int_finite (f : float) X : py_int f = Ok X -> finite f.
Proof.
  unfold py_int, finite. destruct (Prim2SF f); try discriminate; intros _; exact I.
Qed.

Lemma F2Q_fgrid (f : float) : fgrid (F2Q f).
Proof.
  pose proof (FV_fgrid (Prim2SF f) (Prim2SF_valid f)) as H.
  pose proof (F2Q_FV f) as E.
  destruct H as [H|H]; [left|right].
  - destruct H as [H|(m & e & Hv & H)]; [left; lra | right; exists m, e; split; [assumption|lra]].
  - destruct H as [H|(m & e & Hv & H)]; [left; lra | right; exists m, e; split; [assumption|lra]].
Qed.

Theorem add_nearest (a b : float) :
  finite (a + b) ->
  finite a /\ finite b
  /\ forall g, fgrid g -> nearer (F2Q (a + b)) g (F2Q a + F2Q b).
Proof.
  unfold finite. rewrite add_spec. intros H.
  destruct (SFadd_nearest _ _ H) as (Ha & Hb & Hn).
  split; [exact Ha|]. split; [exact Hb|]. intros g Hg.
  eapply nearer_eq; [| reflexivity | | exact (Hn g Hg)].
  - rewrite F2Q_FV, add_spec. reflexivity.
  - rewrite !F2Q_FV. reflexivity.
Qed.

Lemma SFsub_add_opp a b : SFsub prec emax a b = SFadd prec emax a (SFopp b).
Proof.
  destruct a as [sa|sa| |sa ma ea], b as [sb|sb| |sb mb eb]; cbn [SFsub SFadd SFopp];
    try reflexivity; try (destruct sa, sb; reflexivity).
Qed.

Lemma FV_opp f : (FV (SFopp f) == - FV f)%Q.
Proof.
  destruct f as [s|s| |s m e]; cbn [SFopp FV]; try ring.
  pose proof (SV_opp (Zpos m) e). destruct s; cbn [negb cond_Zopp]; lra.
Qed.

Lemma finite_opp f : finite_SF (SFopp f) -> finite_SF f.
Proof. destruct f; cbn; auto. Qed.

Theorem sub_nearest (a b : float) :
  finite (a - b) ->
  finite a /\ finite b
  /\ forall g, fgrid g -> nearer (F2Q (a - b)) g (F2Q a - F2Q b).
Proof.
  unfold finite. rewrite sub_spec. unfold SF64sub. rewrite SFsub_add_opp. intros H.
  destruct (SFadd_nearest _ _ H) as (Ha & Hb & Hn).
  split; [exact Ha|]. split; [apply finite_opp; exact Hb|]. intros g Hg.
  eapply nearer_eq; [| reflexivity | | exact (Hn g Hg)].
  - rewrite F2Q_FV, sub_spec. unfold SF64sub. rewrite SFsub_add_opp. reflexivity.
  - rewrite !F2Q_FV, FV_opp. ring.
Qed.

Theorem mul_nearest (a b : float) :
  finite (a * b) ->
  finite a /\ finite b
  /\ forall g, fgrid g -> nearer (F2Q (a * b)) g (F2Q a * F2Q b).
Proof.
  unfold finite. rewrite mul_spec. intros H.
  destruct (SFmul_nearest _ _ (Prim2SF_valid a) (Prim2SF_valid b) H) as (Ha & Hb & Hn).
  split; [exact Ha|]. split; [exact Hb|]. intros g Hg.
  eapply nearer_eq; [| reflexivity | | exact (Hn g Hg)].
  - rewrite F2Q_FV, mul_spec. reflexivity.
  - rewrite !F2Q_FV. reflexivity.
Qed.

(** Integers below [2^53], times a power of two, are binary64 values. *)
Lemma fgrid_scaled (k j : Z) :
  Z.abs k < 2 ^ 53 -> 0 <= j <= 900 -> fgrid (inject_Z (k * 2 ^ j)).
Proof.
  intros Hk Hj.
  assert (Hpos : forall p, Zpos p < 2 ^ 53 -> grid (inject_Z (Zpos p * 2 ^ j))).
  { intros p Hp.
    assert (Hd : Zpos (digits2_pos p) <= 53) by (apply digits2_pos_le; lia).
    destruct (binary_round_small false p Hd) as (m & e & _ & Hdm & He & Hv).
    pose proof (Pos2Z.is_pos (digits2_pos p)).
    right. exists m, (e + j). split; [apply valid_normal; [assumption|lia]|].
    pose proof (SV_shift (Zpos p) 0 e ltac:(lia)) as Hsh.
    unfold SV in Hsh |- *. change (pow2 0) with 1%Q in Hsh.
    replace (0 - e) with (- e) in Hsh by lia. rewrite <- Hv in Hsh.
    rewrite inject_Z_mult, <- pow2_Z, pow2_add by lia.
    pose proof (pow2_pos j). nra. }
  destruct k as [|p|p].
  - left. left. reflexivity.
  - left. apply Hpos. lia.
  - right. change (Zneg p) with (- Zpos p).
    assert (E : (- inject_Z (- Zpos p * 2 ^ j) == inject_Z (Zpos p * 2 ^ j))%Q).
    { rewrite <- inject_Z_opp. apply inject_Z_injective. lia. }
    destruct (Hpos p ltac:(lia)) as [Hg|(m & e & Hv & Hg)].
    + left. lra.
    + right. exists m, e. split; [assumption|lra].
Qed.

Lemma fgrid_int (k : Z) : Z.abs k < 2 ^ 53 -> fgrid (inject_Z k).
Proof.
  intros Hk. pose proof (fgrid_scaled k 0 Hk ltac:(lia)) as H.
  rewrite Z.mul_1_r in H. exact H.
Qed.

End FloatValues.

(** ** The shape of a rounded result *)

Section RoundShape.
Local Open Scope Z_scope.

Lemma Zdigits2_ge m k : 0 <= k -> 2 ^ k <= m -> k + 1 <= Zdigits2 m.
Proof.
  intros Hk H. assert (0 < 2 ^ k) by (apply Z.pow_pos_nonneg; lia).
  destruct m as [|p|p]; try lia. apply digits2_pos_ge. exact H.
Qed.

Lemma fexp_mono a b : a <= b -> fexp prec emax a <= fexp prec emax b.
Proof. rewrite !fexp_eq. lia. Qed.

(** Every location is the location of some real. *)
Lemma inbetween_inhabited m l : exists w, inbetween m l w.
Proof.
  destruct l as [|[| |]]; cbn [inbetween].
  - exists (inject_Z m). reflexivity.
  - exists (inject_Z m + (1 # 2))%Q. split; [lra|]. split; [lra|].
    apply Qcompare_intro. reflexivity.
  - exists (inject_Z m + (1 # 4))%Q. split; [lra|]. split; [lra|].
    apply Qcompare_intro. lra.
  - exists (inject_Z m + (3 # 4))%Q. split; [lra|]. split; [lra|].
    apply Qcompare_intro. lra.
Qed.

Lemma valid_subnormal s m :
  Zpos m < 2 ^ 53 -> valid_binary (S754_finite s m (-1074)) = true.
Proof.
  intros Hm. unfold valid_binary, bounded, canonical_mantissa.
  assert (Hd : Zpos (digits2_pos m) <= 53) by (apply digits2_pos_le; lia).
  rewrite fexp_eq. apply andb_true_intro. split.
  - apply Z.eqb_eq. lia.
  - reflexivity.
Qed.

(** [binary_round_aux] returns a well-formed float, finite when the target
    exponent leaves room. *)
Lemma binary_round_aux_valid s mx ex lx :
  0 <= mx ->
  ex <= fexp prec emax (Zdigits2 mx + ex) ->
  let r := binary_round_aux prec emax s mx ex lx in
  valid_binary r = true
  /\ (fexp prec emax (Zdigits2 mx + ex) < 971 -> finite_SF r).
Proof.
  intros Hmx Hex. cbn zeta. rewrite binary_round_aux_tail.
  destruct (inbetween_inhabited mx lx) as [w Hw].
  pose proof (pow2_pos ex) as Hpe.
  assert (Hin : inbetween mx lx (w * pow2 ex / pow2 ex)).
  { eapply inbetween_eq; [|exact Hw]. field. lra. }
  destruct (shr_fexp_inbetween mx ex lx _ Hmx Hin Hex) as (rec & E & Hr0 & Hrm & Hin1).
  rewrite E.
  destruct (shifted_mantissa_bounds mx ex Hmx Hex) as (He1 & Hm1u & Hm1l).
  rewrite <- Hrm in Hm1u, Hm1l.
  set (e1 := fexp prec emax (Zdigits2 mx + ex)) in *.
  set (m1 := shr_m rec) in *. set (l1 := loc_of_shr_record rec) in *.
  destruct (round_nearest_even_nearest m1 l1 _ Hin1) as [Hm2 _].
  set (m2 := round_nearest_even m1 l1) in *.
  assert (Hm2r : 0 <= m2 <= 2 ^ 53) by (unfold m1 in *; lia).
  destruct (Z.eq_dec m2 0) as [Hz|Hnz].
  - rewrite Hz, round_tail_zero. split; [reflexivity | intros _; exact I].
  - destruct (Z.eq_dec m2 (2 ^ 53)) as [Hc|Hnc].
    + rewrite Hc. change (2 ^ 53) with 9007199254740992.
      rewrite round_tail_carry_general by exact He1.
      destruct (Z.leb_spec (e1 + 1) 971) as [Hle|Hgt].
      * split; [|intros _; exact I]. apply valid_normal; [reflexivity | lia].
      * split; [reflexivity | lia].
    + destruct m2 as [|p|p] eqn:Em2; [lia| |lia].
      assert (Hfe : fexp prec emax (Zpos (digits2_pos p) + e1) <= e1).
      { rewrite fexp_eq. pose proof (digits2_pos_bounds p) as [Hl Hu].
        assert (Hd : Zpos (digits2_pos p) <= 53)
          by (apply digits2_pos_le; lia).
        lia. }
      rewrite round_tail_normal by exact Hfe.
      destruct (Z.leb_spec e1 971) as [Hle|Hgt].
      * split; [|intros _; exact I].
        destruct Hm1l as [Hm1l|Hm1l].
        -- apply valid_normal; [|lia]. apply digits2_pos_unique. lia.
        -- rewrite Hm1l. apply valid_subnormal. lia.
      * split; [reflexivity | lia].
Qed.
End RoundShape.

(** ** The order of floats and the order of their values *)

Section FloatOrder.
Local Open Scope Z_scope.

Lemma SV_pos p e : (0 < SV (Zpos p) e)%Q.
Proof.
  unfold SV. apply Qmult_lt_0_compat; [reflexivity | apply pow2_pos].
Qed.

Lemma SV_lt_exponent m1 e1 m2 e2 :
  valid_binary (S754_finite false m1 e1) = true ->
  valid_binary (S754_finite false m2 e2) = true ->
  e1 < e2 -> (SV (Zpos m1) e1 < SV (Zpos m2) e2)%Q.
Proof.
  intros H1 H2 He.
  destruct (valid_bounds _ _ _ H1) as (Hb1 & Hm1 & _).
  destruct (valid_bounds _ _ _ H2) as (Hb2 & _ & [Hm2|Hm2]); [|lia].
  unfold SV.
  assert (A : (inject_Z (Zpos m1) < inject_Z (2 ^ 53))%Q) by (rewrite <- Zlt_Qlt; lia).
  assert (B : (inject_Z (2 ^ 52) <= inject_Z (Zpos m2))%Q) by (rewrite <- Zle_Qle; lia).
  assert (C : (2 * pow2 e1 <= pow2 e2)%Q) by (rewrite <- pow2_succ; apply pow2_le; lia).
  pose proof (pow2_pos e1) as P1. pose proof (pow2_pos e2) as P2.
  change (inject_Z (2 ^ 53)) with (2 * inject_Z (2 ^ 52))%Q in A.
  assert (K0 : (0 < inject_Z (2 ^ 52))%Q) by reflexivity.
  set (K := inject_Z (2 ^ 52)) in *.
  assert (S1 : (inject_Z (Zpos m1) * pow2 e1 < 2 * K * pow2 e1)%Q)
    by (apply Qmult_lt_compat_r; assumption).
  assert (S2 : (K * (2 * pow2 e1) <= K * pow2 e2)%Q)
    by (apply Qmult_le_l; assumption).
  assert (S3 : (K * pow2 e2 <= inject_Z (Zpos m2) * pow2 e2)%Q)
    by (apply Qmult_le_compat_r; [assumption | lra]).
  lra.
Qed.

Lemma SV_compare_mantissa m1 m2 e :
  (SV (Zpos m1) e ?= SV (Zpos m2) e)%Q = (m1 ?= m2)%positive.
Proof.
  pose proof (pow2_pos e) as P. apply Qcompare_intro. unfold SV.
  destruct (Pos.compare_spec m1 m2) as [->|H|H].
  - reflexivity.
  - apply Qmult_lt_compat_r; [assumption|]. rewrite <- Zlt_Qlt. lia.
  - apply Qmult_lt_compat_r; [assumption|]. rewrite <- Zlt_Qlt. lia.
Qed.

Lemma Qcompare_opp (a b : Q) : (- a ?= - b)%Q = CompOpp (a ?= b)%Q.
Proof.
  apply Qcompare_intro. pose proof (Qcompare_elim a b _ eq_refl) as H.
  destruct (a ?= b)%Q; cbn [CompOpp]; lra.
Qed.

(** On well-formed finite floats, the comparison of [SpecFloat] is the
    comparison of the values. *)
Lemma SFcompare_value a b :
  valid_binary a = true -> valid_binary b = true ->
  finite_SF a -> finite_SF b ->
  SFcompare a b = Some (FV a ?= FV b)%Q.
Proof.
  destruct a as [sa|sa| |sa ma ea], b as [sb|sb| |sb mb eb];
    cbn [finite_SF]; intros Va Vb Fa Fb; try contradiction; cbn [SFcompare FV].
  - reflexivity.
  - f_equal. symmetry. apply Qcompare_intro.
    pose proof (SV_pos mb eb). pose proof (SV_cond_Zopp sb (Zpos mb) eb).
    destruct sb; lra.
  - f_equal. symmetry. apply Qcompare_intro.
    pose proof (SV_pos ma ea). pose proof (SV_cond_Zopp sa (Zpos ma) ea).
    destruct sa; lra.
  - f_equal. symmetry.
    assert (Va' : valid_binary (S754_finite false ma ea) = true) by exact Va.
    assert (Vb' : valid_binary (S754_finite false mb eb) = true) by exact Vb.
    pose proof (SV_pos ma ea) as Pa. pose proof (SV_pos mb eb) as Pb.
    pose proof (SV_opp (Zpos ma) ea) as Oa. pose proof (SV_opp (Zpos mb) eb) as Ob.
    destruct sa, sb; cbn [cond_Zopp].
    + assert (E : (SV (- Zpos ma) ea ?= SV (- Zpos mb) eb)%Q
                  = CompOpp (SV (Zpos ma) ea ?= SV (Zpos mb) eb)%Q).
      { rewrite <- Qcompare_opp. apply Qcompare_comp; assumption. }
      rewrite E. clear E.
      destruct (Z.compare_spec ea eb) as [->|Hlt|Hgt].
      * rewrite SV_compare_mantissa. reflexivity.
      * rewrite (Qcompare_intro _ _ Lt (SV_lt_exponent _ _ _ _ Va' Vb' Hlt)).
        reflexivity.
      * rewrite (Qcompare_intro _ _ Gt (SV_lt_exponent _ _ _ _ Vb' Va' Hgt)).
        reflexivity.
    + apply Qcompare_intro. lra.
    + apply Qcompare_intro. lra.
    + destruct (Z.compare_spec ea eb) as [->|Hlt|Hgt].
      * apply SV_compare_mantissa.
      * apply (Qcompare_intro _ _ Lt). apply SV_lt_exponent; assumption.
      * apply (Qcompare_intro _ _ Gt). apply SV_lt_exponent; assumption.
Qed.

Lemma ltb_value (a b : float) :
  finite a -> finite b -> (a <? b)%float = true <-> (F2Q a < F2Q b)%Q.
Proof.
  intros Ha Hb. rewrite ltb_spec. unfold SFltb.
  rewrite (SFcompare_value _ _ (Prim2SF_valid a) (Prim2SF_valid b) Ha Hb).
  rewrite Qlt_alt.
  assert (E : (F2Q a ?= F2Q b)%Q = (FV (Prim2SF a) ?= FV (Prim2SF b))%Q)
    by (apply Qcompare_comp; apply F2Q_FV).
  rewrite E. destruct (FV (Prim2SF a) ?= FV (Prim2SF b))%Q; split; congruence.
Qed.

Lemma leb_value (a b : float) :
  finite a -> finite b -> (a <=? b)%float = true <-> (F2Q a <= F2Q b)%Q.
Proof.
  intros Ha Hb. rewrite leb_spec. unfold SFleb.
  rewrite (SFcompare_value _ _ (Prim2SF_valid a) (Prim2SF_valid b) Ha Hb).
  rewrite Qle_alt.
  assert (E : (F2Q a ?= F2Q b)%Q = (FV (Prim2SF a) ?= FV (Prim2SF b))%Q)
    by (apply Qcompare_comp; apply F2Q_FV).
  rewrite E. destruct (FV (Prim2SF a) ?= FV (Prim2SF b))%Q; split; congruence.
Qed.
End FloatOrder.

(** ** True division of integers *)

Section IntDivision.
Local Open Scope Z_scope.

(** The location that the division computes from the remainder. *)
Lemma new_location_inbetween (n q r : Z) (w : Q) :
  0 < n -> 0 <= r < n ->
  (w * inject_Z n == inject_Z (q * n + r))%Q ->
  inbetween q (new_location n r) w.
Proof.
  intros Hn Hr Hw.
  assert (Hn' : (0 < inject_Z n)%Q) by (change 0%Q with (inject_Z 0); rewrite <- Zlt_Qlt; lia).
  rewrite inject_Z_plus, inject_Z_mult in Hw.
  assert (Hr0 : (0 <= inject_Z r)%Q) by (change 0%Q with (inject_Z 0); rewrite <- Zle_Qle; lia).
  assert (Hrn : (inject_Z r < inject_Z n)%Q) by (rewrite <- Zlt_Qlt; lia).
  set (t := (w - inject_Z q)%Q).
  assert (Ht : (t * inject_Z n == inject_Z r)%Q) by (unfold t; lra).
  assert (Hcases : r = 0 \/ 0 < r) by lia.
  unfold new_location.
  destruct Hcases as [->|Hpos].
  - assert (Ht0 : (t == 0)%Q).
    { change (inject_Z 0) with 0%Q in Ht. nra. }
    destruct (Z.even n); unfold new_location_even, new_location_odd;
      cbn [Z.eqb inbetween]; unfold t in Ht0; lra.
  - assert (Hr1 : (0 < inject_Z r)%Q) by (change 0%Q with (inject_Z 0); rewrite <- Zlt_Qlt; lia).
    assert (Ht1 : (0 < t)%Q) by nra.
    assert (Ht2 : (t < 1)%Q) by nra.
    assert (Hne : (r =? 0) = false) by (apply Z.eqb_neq; lia).
    assert (Hcmp : forall c, match c with
                             | Lt => 2 * r < n | Eq => 2 * r = n | Gt => n < 2 * r
                             end ->
                   (w ?= inject_Z q + (1 # 2))%Q = c).
    { intros c Hc. apply Qcompare_intro.
      destruct c.
      - assert (E : (2 * inject_Z r == inject_Z n)%Q)
          by (rewrite <- Hc, inject_Z_mult; reflexivity).
        unfold t in *. nra.
      - assert (E : (2 * inject_Z r < inject_Z n)%Q).
        { change 2%Q with (inject_Z 2). rewrite <- inject_Z_mult, <- Zlt_Qlt. lia. }
        unfold t in *. nra.
      - assert (E : (inject_Z n < 2 * inject_Z r)%Q).
        { change 2%Q with (inject_Z 2). rewrite <- inject_Z_mult, <- Zlt_Qlt. lia. }
        unfold t in *. nra. }
    destruct (Z.even n) eqn:Ev; unfold new_location_even, new_location_odd;
      rewrite Hne; cbn [inbetween];
      (split; [unfold t in *; lra|]); (split; [unfold t in *; lra|]).
    + apply Hcmp. destruct (Z.compare_spec (2 * r) n); lia.
    + assert (Hodd : 2 * r <> n).
      { intros <-. rewrite Z.even_mul in Ev. discriminate. }
      destruct (Z.compare_spec (2 * r + 1) n); apply Hcmp; lia.
Qed.

(** The quotient of two positive integers as the division scales it. *)
Lemma div_core_int (a b : positive) :
  let '(q, e, l) := SFdiv_core_binary prec emax (Zpos a) 0 (Zpos b) 0 in
  0 <= q /\ e <= 0
  /\ inbetween q l (inject_Z (Zpos a) / inject_Z (Zpos b) / pow2 e)
  /\ e <= fexp prec emax (Zdigits2 q + e)
  /\ (inject_Z q * pow2 e <= inject_Z (Zpos a) / inject_Z (Zpos b))%Q.
Proof.
  unfold SFdiv_core_binary. cbv zeta. change (0 - 0) with 0.
  set (d1 := Zdigits2 (Zpos a)). set (d2 := Zdigits2 (Zpos b)).
  rewrite !Z.add_0_r, !Z.sub_0_l.
  set (e := Z.min (fexp prec emax (d1 - d2)) 0).
  assert (He : e <= 0) by (unfold e; lia).
  set (s := - e).
  set (m' := match s with 0 => Zpos a | Zpos _ => Z.shiftl (Zpos a) s | Zneg _ => 0 end).
  assert (Hm' : m' = Zpos a * 2 ^ s).
  { unfold m'. destruct s as [|p|p] eqn:Es; [lia | | lia].
    rewrite Z.shiftl_mul_pow2 by lia. reflexivity. }
  assert (Hs : 0 <= s) by (unfold s; lia).
  assert (H2s : 0 < 2 ^ s) by (apply Z.pow_pos_nonneg; lia).
  pose proof (Z_div_mod m' (Zpos b) ltac:(lia)) as Hdm.
  destruct (Z.div_eucl m' (Zpos b)) as [q r]. destruct Hdm as [Hdm Hr].
  cbv beta iota.
  assert (Hq : 0 <= q) by nia.
  assert (Hb : (0 < inject_Z (Zpos b))%Q) by reflexivity.
  pose proof (pow2_pos e) as Hpe.
  assert (Hps : (pow2 e * inject_Z (2 ^ s) == 1)%Q).
  { rewrite <- pow2_Z by lia. rewrite <- pow2_add. unfold s.
    replace (e + - e) with 0 by lia. reflexivity. }
  assert (Hval : (inject_Z (Zpos a) / inject_Z (Zpos b) / pow2 e * inject_Z (Zpos b)
                  == inject_Z (q * Zpos b + r))%Q).
  { replace (q * Zpos b + r) with m' by lia. rewrite Hm', inject_Z_mult.
    set (A := inject_Z (Zpos a)) in *. set (B := inject_Z (Zpos b)) in *.
    set (S := inject_Z (2 ^ s)) in *. set (P := pow2 e) in *.
    assert (E : (A / B / P * B == A / P)%Q) by (field; lra).
    rewrite E. apply (Qmult_inj_r _ _ P); [lra|].
    assert (E1 : (A / P * P == A)%Q) by (field; lra).
    assert (E2 : (A * S * P == A * (P * S))%Q) by ring.
    rewrite E1, E2, Hps. ring. }
  split; [exact Hq|]. split; [exact He|]. split.
  - apply new_location_inbetween; [lia | lia | exact Hval].
  - split.
    + rewrite fexp_eq. unfold e at 1. rewrite fexp_eq.
      destruct (Z.le_gt_cases (d1 - d2 - 53) (-1074)) as [Hsmall|Hlarge]; [lia|].
      assert (Hes : e <= d1 - d2 - 53) by (unfold e; rewrite fexp_eq; lia).
      pose proof (digits2_pos_bounds a) as [Hal Hau].
      pose proof (digits2_pos_bounds b) as [Hbl Hbu].
      change (Zpos (digits2_pos a)) with d1 in Hal, Hau.
      change (Zpos (digits2_pos b)) with d2 in Hbl, Hbu.
      assert (Hd1 : 0 < d1) by (unfold d1; simpl; lia).
      assert (Hd2 : 0 < d2) by (unfold d2; simpl; lia).
      set (k := d1 - d2 + s - 1).
      assert (Hk : 52 <= k) by (unfold k, s; lia).
      assert (Hqk : 2 ^ k <= q).
      { assert (Hpow : 2 ^ k * 2 ^ d2 = 2 ^ (d1 - 1) * 2 ^ s).
        { rewrite <- !Z.pow_add_r by lia. f_equal. unfold k. lia. }
        assert (0 < 2 ^ k) by (apply Z.pow_pos_nonneg; lia).
        assert (Hlt : 2 ^ k * Zpos b < (q + 1) * Zpos b) by nia.
        apply Z.mul_lt_mono_pos_r in Hlt; lia. }
      pose proof (Zdigits2_ge q k ltac:(lia) Hqk) as Hdq.
      unfold k, s in Hdq. lia.
    + assert (Hfloor : (inject_Z q * inject_Z (Zpos b) <= inject_Z m')%Q).
      { rewrite <- inject_Z_mult, <- Zle_Qle. lia. }
      rewrite Hm', inject_Z_mult in Hfloor.
      set (A := inject_Z (Zpos a)) in *. set (B := inject_Z (Zpos b)) in *.
      set (S := inject_Z (2 ^ s)) in *. set (P := pow2 e) in *.
      apply Qle_shift_div_l; [exact Hb|].
      assert (H1 : (inject_Z q * B * P <= A * S * P)%Q)
        by (apply Qmult_le_compat_r; [exact Hfloor | lra]).
      assert (E : (A * S * P == A)%Q).
      { rewrite <- Qmult_assoc, (Qmult_comm S), Hps. ring. }
      lra.
Qed.

(** The quotient of two positive integers is a float nearest to the exact
    quotient, unless it overflows. *)
Theorem SFdiv_int_nearest (a b : positive) :
  let r := SFdiv prec emax (S754_finite false a 0) (S754_finite false b 0) in
  valid_binary r = true
  /\ (r = S754_infinity false
      \/ ((r = S754_zero false \/ exists m e, r = S754_finite false m e)
          /\ forall g, grid g ->
             nearer (mag r) g (inject_Z (Zpos a) / inject_Z (Zpos b)))).
Proof.
  cbn zeta. cbn [SFdiv xorb].
  pose proof (div_core_int a b) as H.
  destruct (SFdiv_core_binary prec emax (Zpos a) 0 (Zpos b) 0) as [[q e] l].
  destruct H as (Hq & He & Hin & Hfe & _).
  split.
  - apply binary_round_aux_valid; assumption.
  - apply binary_round_aux_nearest; assumption.
Qed.
End IntDivision.

Section IntDivisionFloor.
Local Open Scope Z_scope.

(** A positive integer below [2^53] times a power of two in the normal
    range is a binary64 value. *)
Lemma grid_SV p e : Zpos p < 2 ^ 53 -> -1022 <= e <= 900 -> grid (SV (Zpos p) e).
Proof.
  intros Hp He.
  assert (Hd : Zpos (digits2_pos p) <= 53) by (apply digits2_pos_le; lia).
  destruct (binary_round_small false p Hd) as (m & e0 & _ & Hdm & He0 & Hv).
  pose proof (Pos2Z.is_pos (digits2_pos p)).
  right. exists m, (e0 + e). split; [apply valid_normal; [assumption|lia]|].
  rewrite (SV_shift (Zpos p) e (e0 + e)) by lia.
  replace (e - (e0 + e)) with (- e0) by lia. rewrite <- Hv. reflexivity.
Qed.

Lemma grid_int n : 0 <= n < 2 ^ 53 -> grid (inject_Z n).
Proof.
  intros Hn. destruct n as [|p|p]; [left; reflexivity | | lia].
  destruct (grid_SV p 0 ltac:(lia) ltac:(lia)) as [H|(m & e & Hv & H)].
  - left. rewrite <- H. unfold SV. change (pow2 0) with 1%Q. ring.
  - right. exists m, e. split; [exact Hv|]. rewrite <- H. unfold SV.
    change (pow2 0) with 1%Q. ring.
Qed.

Lemma Zdigits2_le m k : 0 <= k -> 0 <= m < 2 ^ k -> Zdigits2 m <= k.
Proof.
  intros Hk Hm. destruct m as [|p|p]; [simpl; lia | | lia].
  apply digits2_pos_le; lia.
Qed.

(** The quotient of two integers below [2^53] is finite. *)
Lemma SFdiv_int_finite (a b : positive) :
  Zpos a < 2 ^ 53 ->
  finite_SF (SFdiv prec emax (S754_finite false a 0) (S754_finite false b 0)).
Proof.
  intros Ha. cbn [SFdiv xorb].
  pose proof (div_core_int a b) as H.
  destruct (SFdiv_core_binary prec emax (Zpos a) 0 (Zpos b) 0) as [[q e] l].
  destruct H as (Hq & He & Hin & Hfe & Hle).
  apply binary_round_aux_valid; [assumption | assumption |].
  rewrite fexp_eq.
  assert (Hd : Zdigits2 q + e <= 53); [|lia].
  destruct (Z.eq_dec q 0) as [->|Hnz]; [simpl; lia|].
  pose proof (Zdigits2_bounds q ltac:(lia)) as [Hl _].
  destruct (Z.le_gt_cases (Zdigits2 q + e) 53) as [|Hgt]; [assumption|exfalso].
  assert (HA : (inject_Z (Zpos a) / inject_Z (Zpos b) <= inject_Z (Zpos a))%Q).
  { apply Qle_shift_div_r; [reflexivity|].
    rewrite <- inject_Z_mult, <- Zle_Qle. nia. }
  assert (HB : (inject_Z (Zpos a) < inject_Z (2 ^ 53))%Q) by (rewrite <- Zlt_Qlt; lia).
  assert (HC : (pow2 53 <= pow2 (Zdigits2 q - 1 + e))%Q) by (apply pow2_le; lia).
  rewrite pow2_add in HC.
  assert (HD : (pow2 (Zdigits2 q - 1) <= inject_Z q)%Q).
  { rewrite pow2_Z by lia. rewrite <- Zle_Qle. exact Hl. }
  pose proof (pow2_pos e) as Hpe.
  assert (HE : (pow2 (Zdigits2 q - 1) * pow2 e <= inject_Z q * pow2 e)%Q)
    by (apply Qmult_le_compat_r; [exact HD | lra]).
  rewrite (pow2_Z 53) in HC by lia. lra.
Qed.

(** [int(a / b)] is the integer quotient, for [a] below [2^52]. *)
Theorem py_int_truediv_floor a b :
  0 <= a < 2 ^ 52 -> 0 < b <= 2 ^ 53 ->
  exists f, py_int_truediv a b = Ok f /\ py_int f = Ok (a / b).
Proof.
  intros Ha Hb. unfold py_int_truediv.
  destruct (Z.eqb_spec b 0) as [|_]; [lia|].
  destruct b as [|pb|pb]; try lia. destruct a as [|pa|pa]; try lia.
  - exists 0%float. split; [reflexivity|]. rewrite Z.div_0_l by lia. reflexivity.
  - cbn [Z2SF].
    destruct (SFdiv_int_nearest pa pb) as [Hvalid Hnear].
    pose proof (SFdiv_int_finite pa pb ltac:(lia)) as Hfin.
    set (r := SFdiv prec emax (S754_finite false pa 0) (S754_finite false pb 0)) in *.
    destruct Hnear as [Hinf|[Hshape Hnear]]; [rewrite Hinf in Hfin; contradiction|].
    set (x := (inject_Z (Zpos pa) / inject_Z (Zpos pb))%Q) in *.
    set (q0 := Zpos pa / Zpos pb).
    pose proof (Z.div_mod (Zpos pa) (Zpos pb) ltac:(lia)) as Hdm.
    pose proof (Z.mod_pos_bound (Zpos pa) (Zpos pb) ltac:(lia)) as Hr0.
    fold q0 in Hdm. set (r0 := Zpos pa mod Zpos pb) in *.
    assert (Hq0 : 0 <= q0) by (apply Z.div_pos; lia).
    assert (Hq0u : q0 < 2 ^ 52) by nia.
    assert (HB : (0 < inject_Z (Zpos pb))%Q) by reflexivity.
    assert (Hx : (x * inject_Z (Zpos pb) == inject_Z q0 * inject_Z (Zpos pb) + inject_Z r0)%Q).
    { unfold x. rewrite <- inject_Z_mult, <- inject_Z_plus.
      replace (q0 * Zpos pb + r0) with (Zpos pa) by lia. field. lra. }
    assert (Hr0q : (0 <= inject_Z r0)%Q)
      by (change 0%Q with (inject_Z 0); rewrite <- Zle_Qle; lia).
    assert (Hr0u : (inject_Z r0 + 1 <= inject_Z (Zpos pb))%Q).
    { change 1%Q with (inject_Z 1). rewrite <- inject_Z_plus, <- Zle_Qle. lia. }
    assert (Hlow : (inject_Z q0 <= x)%Q) by nra.
    (* a binary64 value between the quotient and the next integer *)
    set (k := Zdigits2 q0).
    assert (Hk0 : 0 <= k) by apply Zdigits2_nonneg.
    assert (Hk : k <= 52) by (apply Zdigits2_le; lia).
    assert (Hqk : q0 + 1 <= 2 ^ k).
    { destruct (Z.eq_dec q0 0) as [E|E].
      - rewrite E. assert (0 < 2 ^ k) by (apply Z.pow_pos_nonneg; lia). lia.
      - pose proof (Zdigits2_bounds q0 ltac:(lia)). fold k in H. lia. }
    assert (Hbk : Zpos pb * 2 ^ k <= 2 ^ 53).
    { destruct (Z.eq_dec q0 0) as [E|E].
      - unfold k. rewrite E. simpl Zdigits2. rewrite Z.pow_0_r. lia.
      - pose proof (Zdigits2_bounds q0 ltac:(lia)) as [Hl _]. fold k in Hl.
        assert (Hk1 : 1 <= k) by (unfold k; destruct q0; simpl; lia).
        assert (Hp : 2 ^ k = 2 * 2 ^ (k - 1)).
        { rewrite <- Z.pow_succ_r by lia. f_equal. lia. }
        change (2 ^ 53) with (2 * 2 ^ 52). nia. }
    assert (H2k : 0 < 2 ^ (53 - k)) by (apply Z.pow_pos_nonneg; lia).
    assert (H2k2 : 2 <= 2 ^ (53 - k)).
    { change 2 with (2 ^ 1) at 1. apply Z.pow_le_mono_r; lia. }
    assert (Hprod : 2 ^ k * 2 ^ (53 - k) = 2 ^ 53).
    { rewrite <- Z.pow_add_r by lia. f_equal. lia. }
    set (P := (q0 + 1) * 2 ^ (53 - k) - 1).
    assert (HP : 0 < P < 2 ^ 53) by (unfold P; nia).
    destruct P as [|p|p] eqn:EP; try lia.
    pose proof (grid_SV p (k - 53) ltac:(lia) ltac:(lia)) as Hg.
    assert (Hgv : (SV (Zpos p) (k - 53) == inject_Z q0 + 1 - pow2 (k - 53))%Q).
    { unfold SV. rewrite <- EP. unfold P.
      unfold Z.sub at 1. rewrite inject_Z_plus, inject_Z_mult, inject_Z_plus.
      rewrite <- (pow2_Z (53 - k)) by lia.
      assert (E : (pow2 (53 - k) * pow2 (k - 53) == 1)%Q).
      { rewrite <- pow2_add. replace (53 - k + (k - 53)) with 0 by lia. reflexivity. }
      change (inject_Z 1) with 1%Q.
      set (U := pow2 (53 - k)) in *. set (V := pow2 (k - 53)) in *.
      assert (E0 : (inject_Z (- (1)) == - (1))%Q) by reflexivity.
      assert (G : (((inject_Z q0 + 1) * U + inject_Z (- (1))) * V
                   == (inject_Z q0 + 1) * (U * V) - V)%Q) by (rewrite E0; ring).
      rewrite G, E. ring. }
    assert (Hstep : (inject_Z (Zpos pb) * pow2 (k - 53) <= 1)%Q).
    { assert (E : (pow2 (k - 53) * inject_Z (2 ^ 53) == inject_Z (2 ^ k))%Q).
      { rewrite <- !pow2_Z by lia. rewrite <- pow2_add. replace (k - 53 + 53) with k by lia.
        reflexivity. }
      assert (Hbk' : (inject_Z (Zpos pb) * inject_Z (2 ^ k) <= inject_Z (2 ^ 53))%Q)
        by (rewrite <- inject_Z_mult, <- Zle_Qle; exact Hbk).
      assert (H53 : (0 < inject_Z (2 ^ 53))%Q) by reflexivity.
      set (V := pow2 (k - 53)) in *. set (T := inject_Z (2 ^ 53)) in *.
      set (B := inject_Z (Zpos pb)) in *.
      rewrite <- E in Hbk'.
      assert (E2 : (B * (V * T) == B * V * T)%Q) by ring.
      rewrite E2 in Hbk'.
      apply (Qmult_le_r _ _ T); [exact H53|]. lra. }
    pose proof (pow2_pos (k - 53)) as Hpk.
    assert (Hup : (x <= SV (Zpos p) (k - 53))%Q).
    { rewrite Hgv.
      set (V := pow2 (k - 53)) in *. set (B := inject_Z (Zpos pb)) in *.
      apply (Qmult_le_r _ _ B); [exact HB|].
      assert (E : ((inject_Z q0 + 1 - V) * B == inject_Z q0 * B + B - B * V)%Q) by ring.
      rewrite E, Hx. lra. }
    pose proof (nearer_ge _ _ _ (Hnear _ (grid_int q0 ltac:(lia))) Hlow) as Hge.
    pose proof (nearer_le _ _ _ (Hnear _ Hg) Hup) as Hle.
    exists (SF2Prim r).
    assert (Hnotinf : forall s, r <> S754_infinity s).
    { intros s E. rewrite E in Hfin. contradiction. }
    split.
    { destruct r; try reflexivity. exfalso. eapply Hnotinf. reflexivity. }
    unfold py_int. rewrite (Prim2SF_SF2Prim r Hvalid).
    destruct Hshape as [Hz|(m & e & Hm)]; rewrite Hz || rewrite Hm.
    + rewrite Hz in Hge. cbn [mag] in Hge.
      assert (q0 <= 0) by (rewrite Zle_Qle; exact Hge).
      f_equal. fold q0. lia.
    + rewrite Hm in Hge, Hle. cbn [mag] in Hge, Hle. cbn [cond_Zopp].
      f_equal. fold q0.
      assert (Hf : py_int (SF2Prim (S754_finite false m e)) = Ok (truncate m e)).
      { unfold py_int. rewrite <- Hm, (Prim2SF_SF2Prim r Hvalid), Hm. reflexivity. }
      assert (Hs : (SF2Prim (S754_finite false m e) <? 0)%float = false).
      { rewrite ltb_spec, <- Hm, (Prim2SF_SF2Prim r Hvalid), Hm. reflexivity. }
      destruct (py_int_floor _ _ Hs Hf) as (_ & Hn1 & Hn2).
      assert (Ev : (F2Q (SF2Prim (S754_finite false m e)) == SV (Zpos m) e)%Q).
      { rewrite F2Q_FV, <- Hm, (Prim2SF_SF2Prim r Hvalid), Hm. reflexivity. }
      rewrite Ev in Hn1, Hn2.
      assert (H1 : (inject_Z (truncate m e) < inject_Z q0 + 1)%Q) by lra.
      assert (H2 : (inject_Z q0 < inject_Z (truncate m e) + 1)%Q) by lra.
      change 1%Q with (inject_Z 1) in H1, H2.
      rewrite <- inject_Z_plus, <- Zlt_Qlt in H1, H2. lia.
Qed.
End IntDivisionFloor.

(** * Further properties of the resolver *)

Section ResolverInvariants.
Variables (self : Map.t) (size : Point2d.t) (fraction : float).

(** A sub-step ends on a position that [test_box] found free, or stays. *)
Lemma sub_step_stays_free st st' :
  Map.sub_step self size fraction st = Ok st' ->
  Map.test_box self (Map.pos_of st) size = Ok false ->
  Map.test_box self (Map.pos_of st') size = Ok false.
Proof.
  intros H Hfree. apply sub_step_cases in H. cbn zeta in H.
  destruct H as [[Hc ->] | [_ (hy & hx & Hy & Hx & ->)]].
  - exact Hc.
  - destruct hy, hx; cbn [Map.pos_of]; assumption.
Qed.

Lemma sub_steps_stays_free n st st' :
  Map.sub_steps self size fraction n st = Ok st' ->
  Map.test_box self (Map.pos_of st) size = Ok false ->
  Map.test_box self (Map.pos_of st') size = Ok false.
Proof.
  revert st. induction n as [|n IH]; intros st H Hfree; simpl in H.
  - congruence.
  - bind_inv H. eapply IH; [eassumption|].
    eapply sub_step_stays_free; eassumption.
Qed.

(** Without a recorded hit on its axis or on a corner, a velocity
    component is the one the call was given. *)
Definition unhit_kept (vel : Point2d.t) (st : Map.state) : Prop :=
  (Collision.X ∉ Map.result_of st -> Collision.CORNER ∉ Map.result_of st ->
   Point2d.x (Map.vel_of st) = Point2d.x vel)
  /\ (Collision.Y ∉ Map.result_of st -> Collision.CORNER ∉ Map.result_of st ->
      Point2d.y (Map.vel_of st) = Point2d.y vel).

Lemma sub_step_unhit_kept vel st st' :
  Map.sub_step self size fraction st = Ok st' ->
  unhit_kept vel st -> unhit_kept vel st'.
Proof.
  intros H [Hx Hy]. apply sub_step_cases in H. cbn zeta in H.
  destruct H as [[_ ->] | [_ (hy & hx & _ & _ & ->)]].
  - split; assumption.
  - destruct hy, hx; split; cbn [Map.result_of Map.vel_of Point2d.x Point2d.y];
      intros H1 H2;
      rewrite ?not_elem_of_union, ?not_elem_of_singleton in H1, H2;
      solve [ exfalso; intuition congruence
            | apply Hx; intuition
            | apply Hy; intuition ].
Qed.

Lemma sub_steps_unhit_kept vel n st st' :
  Map.sub_steps self size fraction n st = Ok st' ->
  unhit_kept vel st -> unhit_kept vel st'.
Proof.
  revert st. induction n as [|n IH]; intros st H Hk; simpl in H.
  - congruence.
  - bind_inv H. eapply IH; [eassumption|].
    eapply sub_step_unhit_kept; eassumption.
Qed.
End ResolverInvariants.

(** X1: a box that starts free of solid tiles ends free of them: when none
    of the four corners of the box at [pos] is in a solid tile, none of the
    corners at the position [move_box] returns is. *)
Theorem move_box_stays_free self pos vel size st :
  Map.test_box self pos size = Ok false ->
  Map.move_box self pos vel size = Ok st ->
  Map.test_box self (Map.pos_of st) size = Ok false.
Proof.
  intros Hfree H. apply move_box_inv in H. destruct H as [-> | (fraction & n & H)].
  - exact Hfree.
  - eapply sub_steps_stays_free in H; [exact H | exact Hfree].
Qed.

Lemma move_box_stays_free_witness :
  exists st,
    Map.move_box demo_map (Point2d.mk 300 100) (Vector2d 2 30) PLAYER_SIZE = Ok st
    /\ Map.test_box demo_map (Map.pos_of st) PLAYER_SIZE = Ok false.
Proof.
  eexists.
  assert (E : Map.move_box demo_map (Point2d.mk 300 100) (Vector2d 2 30)
                PLAYER_SIZE = Ok _) by (vm_compute; reflexivity).
  split; [exact E|].
  assert (F : Map.test_box demo_map (Point2d.mk 300 100) PLAYER_SIZE = Ok false)
    by (vm_compute; reflexivity).
  exact (move_box_stays_free _ _ _ _ _ F E).
Defined.

(** X2: [move_box] changes a velocity component only when it reports a
    hit: if neither the axis nor CORNER is in the returned set, the
    component is the one passed in; with an empty set the whole velocity is
    unchanged. *)
Theorem move_box_keeps_unhit_velocity self pos vel size st :
  Map.move_box self pos vel size = Ok st ->
  (Collision.X ∉ Map.result_of st -> Collision.CORNER ∉ Map.result_of st ->
   Point2d.x (Map.vel_of st) = Point2d.x vel)
  /\ (Collision.Y ∉ Map.result_of st -> Collision.CORNER ∉ Map.result_of st ->
      Point2d.y (Map.vel_of st) = Point2d.y vel)
  /\ (Map.result_of st = ∅ -> Map.vel_of st = vel).
Proof.
  intros H.
  assert (Hk : unhit_kept vel st).
  { apply move_box_inv in H. destruct H as [-> | (fraction & n & H)].
    - split; reflexivity.
    - eapply sub_steps_unhit_kept in H; [exact H|]. split; reflexivity. }
  destruct Hk as [Hx Hy]. split; [exact Hx|]. split; [exact Hy|].
  intros He. rewrite He in Hx, Hy.
  destruct (Map.vel_of st) as [vx vy], vel as [vx0 vy0]. cbn [Point2d.x Point2d.y] in *.
  f_equal; [apply Hx | apply Hy]; apply not_elem_of_empty.
Qed.

Lemma move_box_keeps_unhit_velocity_witness :
  exists st,
    Map.move_box demo_map (Point2d.mk 300 100) (Vector2d 2 100) PLAYER_SIZE = Ok st
    /\ Collision.Y ∈ Map.result_of st
    /\ Point2d.x (Map.vel_of st) = 2%float.
Proof.
  eexists.
  assert (E : Map.move_box demo_map (Point2d.mk 300 100) (Vector2d 2 100)
                PLAYER_SIZE = Ok _) by (vm_compute; reflexivity).
  split; [exact E|].
  split; [refine (bool_decide_unpack _ _); vm_compute; exact I|].
  apply (proj1 (move_box_keeps_unhit_velocity _ _ _ _ _ E));
    refine (bool_decide_unpack _ _); vm_compute; exact I.
Defined.

(** ** Velocities that are not numbers *)

Section NonFiniteVelocity.
Local Open Scope Z_scope.

Lemma shr_nonneg mrs e n : 0 <= shr_m mrs -> 0 <= shr_m (fst (shr mrs e n)).
Proof.
  intros H. unfold shr. destruct n as [|p|p]; cbn [fst]; try assumption.
  rewrite iter_pos_nat. induction (Pos.to_nat p) as [|k IH]; [exact H|].
  rewrite Nat.iter_succ. apply shr_1_m_nonneg. exact IH.
Qed.

Lemma round_nearest_even_nonneg m l : 0 <= m -> 0 <= round_nearest_even m l.
Proof.
  intros H. destruct l as [|[| |]]; cbn [round_nearest_even]; try lia.
  destruct (Z.even m); lia.
Qed.

(** Rounding a non-negative mantissa never gives NaN. *)
Lemma binary_round_aux_not_nan s mx ex lx :
  0 <= mx -> binary_round_aux prec emax s mx ex lx <> S754_nan.
Proof.
  intros Hm. unfold binary_round_aux, shr_fexp.
  pose proof (shr_nonneg (shr_record_of_loc mx lx) ex
                (fexp prec emax (Zdigits2 mx + ex) - ex)) as H1.
  rewrite shr_m_record_of_loc in H1. specialize (H1 Hm).
  destruct (shr (shr_record_of_loc mx lx) ex _) as [mrs' e']. cbn [fst] in H1.
  set (m2 := round_nearest_even (shr_m mrs') (loc_of_shr_record mrs')).
  pose proof (round_nearest_even_nonneg (shr_m mrs') (loc_of_shr_record mrs') H1) as H2.
  fold m2 in H2.
  pose proof (shr_nonneg (shr_record_of_loc m2 loc_Exact) e'
                (fexp prec emax (Zdigits2 m2 + e') - e')) as H3.
  rewrite shr_m_record_of_loc in H3. specialize (H3 H2).
  destruct (shr (shr_record_of_loc m2 loc_Exact) e' _) as [mrs'' e'']. cbn [fst] in H3.
  destruct (shr_m mrs'') as [|p|p]; [discriminate | | lia].
  destruct (e'' <=? emax - prec); discriminate.
Qed.

(** The square of a number is a non-negative number or plus infinity. *)
Definition nonneg_shape (f : spec_float) : Prop :=
  f = S754_zero false \/ f = S754_infinity false
  \/ exists m e, f = S754_finite false m e.

Lemma square_shape (a : float) :
  ~ is_nan a -> nonneg_shape (Prim2SF (a * a)).
Proof.
  unfold is_nan, nonneg_shape. intros Hn. rewrite mul_spec. unfold SF64mul.
  destruct (Prim2SF a) as [s|s| |s m e]; cbn [SFmul].
  - left. destruct s; reflexivity.
  - right. left. destruct s; reflexivity.
  - contradiction.
  - replace (xorb s s) with false by (destruct s; reflexivity).
    destruct (binary_round_aux_shape false (Zpos (m * m)) (e + e) loc_Exact)
      as [H|[H|[H|H]]];
      [exfalso | left; exact H | right; left; exact H | right; right; exact H].
    revert H. apply binary_round_aux_not_nan. lia.
Qed.

Lemma add_infinity_l (a b : spec_float) :
  a = S754_infinity false -> nonneg_shape b ->
  SFadd prec emax a b = S754_infinity false.
Proof. intros -> [->|[->|(m & e & ->)]]; reflexivity. Qed.

Lemma add_infinity_r (a b : spec_float) :
  nonneg_shape a -> b = S754_infinity false ->
  SFadd prec emax a b = S754_infinity false.
Proof. intros [->|[->|(m & e & ->)]] ->; reflexivity. Qed.

Lemma square_infinity (a : float) s :
  Prim2SF a = S754_infinity s -> Prim2SF (a * a) = S754_infinity false.
Proof. intros H. rewrite mul_spec, H. destruct s; reflexivity. Qed.


Lemma add_nan_r (a : spec_float) : SFadd prec emax a S754_nan = S754_nan.
Proof. destruct a; reflexivity. Qed.
End NonFiniteVelocity.

(** X3: [move_box] raises on a velocity with a component that is not a
    number: [ValueError] when a component is NaN, [OverflowError] when a
    component is infinite and neither is NaN. *)
Theorem move_box_rejects_non_finite_velocity self pos vel size :
  (is_nan (Point2d.x vel) \/ is_nan (Point2d.y vel) ->
   Map.move_box self pos vel size = Raise ValueError)
  /\ (~ is_nan (Point2d.x vel) -> ~ is_nan (Point2d.y vel) ->
      (exists s, Prim2SF (Point2d.x vel) = S754_infinity s)
      \/ (exists s, Prim2SF (Point2d.y vel) = S754_infinity s) ->
      Map.move_box self pos vel size = Raise OverflowError).
Proof.
  set (sum := (Point2d.x vel * Point2d.x vel + Point2d.y vel * Point2d.y vel)%float).
  assert (Hgen : forall e,
             (Prim2SF sum = S754_nan /\ e = ValueError)
             \/ (Prim2SF sum = S754_infinity false /\ e = OverflowError) ->
             Map.move_box self pos vel size = Raise e).
  { intros e He. unfold Map.move_box, Point2d.len, py_sqrt. fold sum.
    assert (Hlt : (sum <? 0)%float = false).
    { rewrite ltb_spec. destruct He as [[-> _]|[-> _]]; reflexivity. }
    rewrite Hlt. cbn [bind]. unfold py_int. rewrite sqrt_spec.
    destruct He as [[-> ->]|[-> ->]]; reflexivity. }
  split.
  - intros Hn. apply Hgen. left. split; [|reflexivity].
    unfold sum. rewrite add_spec. unfold SF64add. unfold is_nan in Hn.
    destruct Hn as [Hn|Hn].
    + rewrite (mul_spec (Point2d.x vel)), Hn. reflexivity.
    + rewrite (mul_spec (Point2d.y vel)), Hn. apply add_nan_r.
  - intros Hx Hy Hinf. apply Hgen. right. split; [|reflexivity].
    unfold sum. rewrite add_spec. unfold SF64add. destruct Hinf as [[s Hs]|[s Hs]].
    + apply add_infinity_l; [exact (square_infinity _ s Hs) | apply square_shape; exact Hy].
    + apply add_infinity_r; [apply square_shape; exact Hx | exact (square_infinity _ s Hs)].
Qed.

Lemma move_box_rejects_non_finite_velocity_witness :
  Map.move_box demo_map (Point2d.mk 300 100) (Vector2d nan 1) PLAYER_SIZE
  = Raise ValueError
  /\ Map.move_box demo_map (Point2d.mk 300 100) (Vector2d 1 infinity) PLAYER_SIZE
     = Raise OverflowError.
Proof.
  split.
  - apply (proj1 (move_box_rejects_non_finite_velocity _ _ _ _)).
    left. vm_compute. reflexivity.
  - apply (proj2 (move_box_rejects_non_finite_velocity _ _ _ _)).
    + vm_compute. discriminate.
    + vm_compute. discriminate.
    + right. exists false. vm_compute. reflexivity.
Defined.

(** * The game loop *)

Section Loop.
Local Open Scope Z_scope.

(** No corner of the player's box is in a solid tile. *)
Definition free (game : Game.t) : Prop :=
  Map.test_box (Game.map game) (Player.pos (Game.player game)) PLAYER_SIZE = Ok false.

(** The same for the box at the restart position. *)
Definition spawn_free (map : Map.t) : Prop :=
  Map.test_box map (Point2d.mk 170 500) PLAYER_SIZE = Ok false.

Lemma physics_stays_free self self' :
  spawn_free (Game.map self) -> free self ->
  Game.physics self = Ok self' ->
  free self' /\ Game.map self' = Game.map self.
Proof.
  intros Hs Hf H. apply physics_inv in H. cbn zeta in H.
  destruct H as (ground & vx & st & _ & Hm & ->).
  split; [|reflexivity]. unfold free. cbn [Game.map Game.player Player.pos].
  assert (Hstart : Map.test_box (Game.map self)
                     (Player.pos (if Game.inputs self Input.RESTART
                                  then Player.restart (Game.player self)
                                  else Game.player self)) PLAYER_SIZE = Ok false)
    by (destruct (Game.inputs self Input.RESTART); [exact Hs | exact Hf]).
  apply move_box_inv in Hm. destruct Hm as [-> | (fraction & n & Hm)].
  - exact Hstart.
  - eapply sub_steps_stays_free in Hm; [exact Hm | exact Hstart].
Qed.

Lemma tick_stays_free self tick self' :
  spawn_free (Game.map self) -> free self ->
  Game.tick self tick = Ok self' ->
  free self' /\ Game.map self' = Game.map self.
Proof.
  intros Hs Hf H. unfold Game.tick in H. bind_inv H.
  destruct (physics_stays_free _ _ Hs Hf E) as [Hf' Hm].
  apply logic_inv in H. destruct H as (tile & _ & ->).
  split; [exact Hf' | exact Hm].
Qed.

Lemma run_ticks_stays_free n : forall tick game game',
  spawn_free (Game.map game) -> free game ->
  run_ticks n tick game = Ok game' ->
  free game' /\ Game.map game' = Game.map game.
Proof.
  induction n as [|n IH]; intros tick game game' Hs Hf H; cbn [run_ticks] in H.
  - injection H as <-. auto.
  - bind_inv H. destruct (tick_stays_free _ _ _ Hs Hf E) as [Hf' Hm].
    rewrite <- Hm in Hs. destruct (IH _ _ _ Hs Hf' H) as [Hf'' Hm'].
    split; [exact Hf'' | congruence].
Qed.

Lemma frame_stays_free game last events new game' :
  spawn_free (Game.map game) -> free game ->
  frame game last events new = Ok game' ->
  free game' /\ Game.map game' = Game.map game.
Proof.
  intros Hs Hf H. unfold frame in H.
  apply run_ticks_stays_free in H; [exact H | exact Hs | exact Hf].
Qed.

(** Ticks compose. *)
Lemma run_ticks_app n m : forall tick game,
  run_ticks (n + m) tick game
  = let* game' := run_ticks n tick game in
    run_ticks m (tick + Z.of_nat n) game'.
Proof.
  induction n as [|n IH]; intros tick game.
  - cbn [Nat.add run_ticks bind]. rewrite Z.add_0_r. reflexivity.
  - cbn [Nat.add run_ticks]. destruct (Game.tick game tick) as [g|e]; cbn [bind];
      [|reflexivity].
    rewrite IH. replace (tick + 1 + Z.of_nat n) with (tick + Z.of_nat (S n)) by lia.
    reflexivity.
Qed.

(** ** The lap timer over a run *)

(** The timer after the ticks up to [last]: a running lap started at a
    past tick; a recorded finish is positive and not below the best time;
    a recorded best time is positive. *)
Definition timer_ok (t : Time.t) (last : Z) : Prop :=
  -1 <= Time.begin t <= last
  /\ (Time.finish t = -1 \/ 0 < Time.best t <= Time.finish t)
  /\ (Time.best t = -1 \/ 0 < Time.best t).

(** A recorded best time is only ever replaced by a smaller one. *)
Definition best_kept (t t' : Time.t) : Prop :=
  Time.best t = -1 \/ 0 < Time.best t' <= Time.best t.

Lemma lap_timer_ok t tile tick :
  timer_ok t (tick - 1) ->
  timer_ok (Game.lap t tile tick) tick /\ best_kept t (Game.lap t tile tick).
Proof.
  unfold timer_ok, best_kept, Game.lap. intros (Hb & Hf & Hbest).
  destruct (tile =? START); [cbn [Time.begin Time.finish Time.best]; lia|].
  destruct (tile =? FINISH); [|lia].
  destruct (Z.geb_spec (Time.begin t) 0) as [Hge|Hlt]; [|lia].
  destruct (Z.ltb_spec (Time.best t) 0) as [Hn|Hn];
    destruct (Z.ltb_spec (tick - Time.begin t) (Time.best t)) as [Hl|Hl];
    cbn [orb Time.begin Time.finish Time.best]; lia.
Qed.

Lemma tick_timer_ok self tick self' :
  timer_ok (Player.time (Game.player self)) (tick - 1) ->
  Game.tick self tick = Ok self' ->
  timer_ok (Player.time (Game.player self')) tick
  /\ best_kept (Player.time (Game.player self)) (Player.time (Game.player self')).
Proof.
  intros Hok H. unfold Game.tick in H. bind_inv H.
  apply physics_inv in E. cbn zeta in E. destruct E as (ground & vx & st & _ & _ & ->).
  apply logic_inv in H. destruct H as (tile & _ & ->).
  cbn [Game.player Game.move_camera Player.time].
  set (t0 := Player.time (if Game.inputs self Input.RESTART
                          then Player.restart (Game.player self)
                          else Game.player self)).
  assert (H0 : timer_ok t0 (tick - 1)
               /\ Time.best t0 = Time.best (Player.time (Game.player self))).
  { unfold t0. destruct (Game.inputs self Input.RESTART); [|auto].
    unfold timer_ok in *. cbn [Player.restart Player.time Time.begin Time.finish Time.best].
    lia. }
  destruct H0 as [H0 Hb0].
  destruct (lap_timer_ok t0 tile tick H0) as [H1 H2].
  split; [exact H1|]. unfold best_kept in *. lia.
Qed.

Lemma run_ticks_timer_ok n : forall tick game game',
  timer_ok (Player.time (Game.player game)) (tick - 1) ->
  run_ticks n tick game = Ok game' ->
  timer_ok (Player.time (Game.player game')) (tick - 1 + Z.of_nat n)
  /\ best_kept (Player.time (Game.player game)) (Player.time (Game.player game')).
Proof.
  induction n as [|n IH]; intros tick game game' Hok H; cbn [run_ticks] in H.
  - injection H as <-. rewrite Z.add_0_r. split; [exact Hok|].
    unfold best_kept. destruct Hok as (_ & _ & Hb). lia.
  - bind_inv H. destruct (tick_timer_ok _ _ _ Hok E) as [H1 H2].
    replace tick with (tick + 1 - 1) in H1 by lia.
    destruct (IH _ _ _ H1 H) as [H3 H4].
    replace (tick + 1 - 1 + Z.of_nat n) with (tick - 1 + Z.of_nat (S n)) in H3 by lia.
    split; [exact H3|]. unfold best_kept, timer_ok in *. lia.
Qed.

Lemma handle_input_player game events :
  Game.player (Game.handle_input game events) = Game.player game
  /\ Game.map (Game.handle_input game events) = Game.map game
  /\ Game.camera (Game.handle_input game events) = Game.camera game.
Proof. repeat split. Qed.

(** Ticks leave the inputs as they are. *)
Lemma tick_inputs self tick self' :
  Game.tick self tick = Ok self' -> Game.inputs self' = Game.inputs self.
Proof.
  intros H. unfold Game.tick in H. bind_inv H.
  apply physics_inv in E. cbn zeta in E. destruct E as (ground & vx & st & _ & _ & ->).
  apply logic_inv in H. destruct H as (tile & _ & ->). reflexivity.
Qed.

Lemma run_ticks_inputs n : forall tick game game',
  run_ticks n tick game = Ok game' -> Game.inputs game' = Game.inputs game.
Proof.
  induction n as [|n IH]; intros tick game game' H; cbn [run_ticks] in H.
  - injection H as <-. reflexivity.
  - bind_inv H. rewrite (IH _ _ _ H). exact (tick_inputs _ _ _ E).
Qed.

(** The tick numbers of the successive turns never go back. *)
Fixpoint monotone (last : Z) (frames : list (list Event.t * Z)) : Prop :=
  match frames with
  | [] => True
  | (_, new_tick) :: rest => last <= new_tick /\ monotone new_tick rest
  end.
End Loop.

(** The ticks of one turn split in two: the ticks [a+1 .. c] give the same
    result as the ticks [a+1 .. b] followed, with no event in between, by
    the ticks [b+1 .. c]. *)
Lemma frame_split game (a b c : Z) events :
  (a <= b <= c)%Z ->
  frame game a events c
  = let* game' := frame game a events b in frame game' b [] c.
Proof.
  intros H. unfold frame.
  replace (Z.to_nat (c - a)) with (Z.to_nat (b - a) + Z.to_nat (c - b))%nat by lia.
  rewrite run_ticks_app.
  destruct (run_ticks (Z.to_nat (b - a)) (a + 1) (Game.handle_input game events))
    as [g|e]; cbn [bind]; [|reflexivity].
  replace (a + 1 + Z.of_nat (Z.to_nat (b - a)))%Z with (b + 1)%Z by lia.
  destruct g; reflexivity.
Qed.

(** X7: splitting one turn of the loop of [main] in two does not change
    the run, as long as the events of the turn do not leave QUIT set: the
    turn that runs the ticks [a+1 .. c] gives the same run as the turn that
    runs the ticks [a+1 .. b] followed by a turn without events that runs
    the ticks [b+1 .. c], whatever turns follow.  (With QUIT set the loop
    ends after the first of the two turns.) *)
Theorem main_loop_split game (a b c : Z) events rest :
  (a <= b <= c)%Z ->
  Game.inputs (Game.handle_input game events) Input.QUIT = false ->
  main_loop ((events, c) :: rest) game a
  = main_loop ((events, b) :: ([], c) :: rest) game a.
Proof.
  intros Hle Hq. cbn [main_loop].
  destruct (Game.inputs game Input.QUIT); [reflexivity|].
  rewrite (frame_split game a b c events Hle).
  destruct (frame game a events b) as [g|e] eqn:E; cbn [bind]; [|reflexivity].
  unfold frame in E. apply run_ticks_inputs in E. rewrite E, Hq. reflexivity.
Qed.

Lemma main_loop_split_witness :
  main_loop [([Event.mk SDL_KEYDOWN SDLK_d], 3%Z); ([], 5%Z)] falling_game 0
  = main_loop [([Event.mk SDL_KEYDOWN SDLK_d], 1%Z); ([], 3%Z); ([], 5%Z)] falling_game 0.
Proof.
  apply (main_loop_split falling_game 0 1 3 [Event.mk SDL_KEYDOWN SDLK_d] [([], 5%Z)]).
  - lia.
  - vm_compute. reflexivity.
Defined.

(** A map of four columns and ten rows whose bottom row is solid. *)
Definition shaft_map : Map.t :=
  Map.mk (List.repeat 0%Z 36 ++ [1; 1; 1; 1]%Z) 4 10.

Definition shaft_game : Game.t :=
  Game.mk (fun _ => false) Player.__init__ shaft_map (Vector2d 0 0).

(** X5: the player never ends a turn of the game loop inside a solid tile:
    when the box at the restart position and the player's box touch no
    solid tile, then after any number of turns, whatever the events, the
    player's box touches none, and the map is the same. *)
Theorem main_loop_stays_free frames : forall game last game' last',
  spawn_free (Game.map game) -> free game ->
  main_loop frames game last = Ok (game', last') ->
  free game' /\ Game.map game' = Game.map game.
Proof.
  induction frames as [|[events new_tick] rest IH]; intros game last game' last' Hs Hf H;
    cbn [main_loop] in H.
  - injection H as <- <-. auto.
  - destruct (Game.inputs game Input.QUIT); [injection H as <- <-; auto|].
    bind_inv H. destruct (frame_stays_free _ _ _ _ _ Hs Hf E) as [Hf' Hm].
    rewrite <- Hm in Hs. destruct (IH _ _ _ _ Hs Hf' H) as [Hf'' Hm'].
    split; [exact Hf'' | congruence].
Qed.

Lemma main_loop_stays_free_witness :
  exists game' last',
    main_loop [([Event.mk SDL_KEYDOWN SDLK_d], 4%Z); ([Event.mk SDL_KEYDOWN SDLK_SPACE], 9%Z)]
      shaft_game 0 = Ok (game', last')
    /\ free game'.
Proof.
  eexists. eexists.
  assert (E : main_loop [([Event.mk SDL_KEYDOWN SDLK_d], 4%Z);
                         ([Event.mk SDL_KEYDOWN SDLK_SPACE], 9%Z)]
                shaft_game 0 = Ok (_, _)) by (vm_compute; reflexivity).
  split; [exact E|].
  assert (Hs : spawn_free (Game.map shaft_game)) by (vm_compute; reflexivity).
  assert (Hf : free shaft_game) by (vm_compute; reflexivity).
  exact (proj1 (main_loop_stays_free _ _ _ _ _ Hs Hf E)).
Defined.

(** X6: over a run of the game loop whose tick numbers never go back, the
    lap timer stays well formed: the start tick is -1 or a tick already
    run, a recorded finish time is positive and not below the best time,
    and a recorded best time is positive and is only ever replaced by a
    smaller one. *)
Theorem main_loop_timer frames : forall game last game' last',
  timer_ok (Player.time (Game.player game)) last ->
  monotone last frames ->
  main_loop frames game last = Ok (game', last') ->
  timer_ok (Player.time (Game.player game')) last'
  /\ best_kept (Player.time (Game.player game)) (Player.time (Game.player game')).
Proof.
  induction frames as [|[events new_tick] rest IH];
    intros game last game' last' Hok Hmono H; cbn [main_loop] in H.
  - injection H as <- <-. split; [exact Hok|].
    unfold best_kept. destruct Hok as (_ & _ & Hb). lia.
  - destruct (Game.inputs game Input.QUIT).
    + injection H as <- <-. split; [exact Hok|].
      unfold best_kept. destruct Hok as (_ & _ & Hb). lia.
    + destruct Hmono as [Hle Hmono]. bind_inv H. unfold frame in E.
      apply run_ticks_timer_ok in E.
      * destruct E as [H1 H2].
        replace (last + 1 - 1 + Z.of_nat (Z.to_nat (new_tick - last)))%Z
          with new_tick in H1 by lia.
        destruct (IH _ _ _ _ H1 Hmono H) as [H3 H4].
        split; [exact H3|]. cbn [Game.handle_input Game.player] in H2.
        unfold best_kept, timer_ok in *. lia.
      * cbn [Game.handle_input Game.player].
        replace (last + 1 - 1)%Z with last by lia. exact Hok.
Qed.

Lemma main_loop_timer_witness :
  exists game' last',
    main_loop [([], 103%Z); ([], 105%Z)] finishing_game 100 = Ok (game', last')
    /\ timer_ok (Player.time (Game.player game')) last'.
Proof.
  eexists. eexists.
  assert (E : main_loop [([], 103%Z); ([], 105%Z)] finishing_game 100 = Ok (_, _))
    by (vm_compute; reflexivity).
  split; [exact E|].
  refine (proj1 (main_loop_timer _ _ _ _ _ _ _ E)).
  - unfold timer_ok. cbn. lia.
  - cbn. lia.
Defined.

(** ** Gravity and jumps *)

(** X4: a kinematics tick adds exactly 0.75 to the vertical velocity, or
    ends with it at zero; the velocity it adds to is -21 when JUMP is held
    and the player (after the restart, if any) stands on the ground, and
    the player's own otherwise: without ground contact JUMP does nothing. *)
Theorem physics_vertical_speed self self' :
  Game.physics self = Ok self' ->
  let player := if Game.inputs self Input.RESTART
                then Player.restart (Game.player self) else Game.player self in
  exists ground,
    Map.on_ground (Game.map self) (Player.pos player) PLAYER_SIZE = Ok ground
    /\ let before := if Game.inputs self Input.JUMP && ground
                     then (-21)%float else Point2d.y (Player.vel player) in
       Point2d.y (Player.vel (Game.player self')) = (before + 0.75)%float
       \/ Point2d.y (Player.vel (Game.player self')) = 0%float.
Proof.
  intros H. apply physics_inv in H. cbn zeta in H |- *.
  destruct H as (ground & vx & st & Hg & Hm & ->).
  exists ground. split; [exact Hg|].
  cbn [Game.player Player.vel].
  exact (move_box_vel_y _ _ _ _ _ Hm).
Qed.

(** A player resting on the floor of [demo_map] with JUMP held. *)
Definition jumping_game : Game.t :=
  Game.mk (fun i => match i with Input.JUMP => true | _ => false end)
          (Player.mk Time.__init__ (Point2d.mk 300 159) (Vector2d 0 0))
          demo_map (Point2d.mk 0 0).

Lemma physics_vertical_speed_witness :
  exists self',
    Game.physics jumping_game = Ok self'
    /\ Point2d.y (Player.vel (Game.player self')) = (-20.25)%float.
Proof.
  eexists.
  assert (E : Game.physics jumping_game = Ok _) by (vm_compute; reflexivity).
  split; [exact E|].
  destruct (physics_vertical_speed _ _ E) as (ground & Hg & Hv).
  vm_compute in Hg. injection Hg as <-.
  destruct Hv as [Hv|Hv]; [exact Hv|].
  vm_compute in Hv. discriminate.
Defined.

(** ** Input handling *)

Section Inputs.

Lemma handle_input_app game events events' :
  Game.handle_input game (events ++ events')
  = Game.handle_input (Game.handle_input game events) events'.
Proof. unfold Game.handle_input. cbn [Game.inputs Game.player Game.map Game.camera].
  rewrite fold_left_app. reflexivity.
Qed.

(** An event that sets no input the game reads: neither a quit request nor
    a press or release of a bound key. *)
Definition unbound (event : Event.t) : Prop :=
  Event.type event <> SDL_QUIT
  /\ (Event.type event = SDL_KEYDOWN \/ Event.type event = SDL_KEYUP ->
      to_input (Event.sym event) = Input.NONE).

Lemma handle_event_unbound inputs event i :
  unbound event -> i <> Input.NONE -> Game.handle_event inputs event i = inputs i.
Proof.
  intros [Hq Hk] Hi. unfold Game.handle_event.
  destruct (Z.eqb_spec (Event.type event) SDL_QUIT) as [|_]; [contradiction|].
  destruct (Z.eqb_spec (Event.type event) SDL_KEYDOWN) as [Hd|_].
  - rewrite (Hk (or_introl Hd)). apply fn_lookup_insert_ne. congruence.
  - destruct (Z.eqb_spec (Event.type event) SDL_KEYUP) as [Hu|_]; [|reflexivity].
    rewrite (Hk (or_intror Hu)). apply fn_lookup_insert_ne. congruence.
Qed.

Lemma fold_unbound events : forall inputs i,
  Forall unbound events -> i <> Input.NONE ->
  fold_left Game.handle_event events inputs i = inputs i.
Proof.
  induction events as [|event rest IH]; intros inputs i HF Hi; [reflexivity|].
  apply Forall_cons in HF. destruct HF as [He HF]. cbn [fold_left].
  rewrite (IH _ _ HF Hi). apply handle_event_unbound; assumption.
Qed.

(** [physics] reads the inputs RESTART, JUMP, RIGHT and LEFT only. *)
Lemma physics_inputs inputs inputs' player map camera :
  (forall i, i <> Input.NONE -> inputs' i = inputs i) ->
  Game.physics (Game.mk inputs' player map camera)
  = let* game := Game.physics (Game.mk inputs player map camera) in
    Ok (Game.mk inputs' (Game.player game) (Game.map game) (Game.camera game)).
Proof.
  intros H. unfold Game.physics. cbn [Game.inputs Game.player Game.map Game.camera].
  rewrite !H by discriminate.
  destruct (Map.on_ground _ _ _) as [ground|e]; cbn [bind]; [|reflexivity].
  destruct (py_float _) as [direction|e]; cbn [bind]; [|reflexivity].
  destruct (Map.move_box _ _ _ _) as [st|e]; cbn [bind]; reflexivity.
Qed.
End Inputs.

(** X8: in [handle_input] the last event of a key decides: a key pressed
    and released within one batch of events leaves its input False,
    whatever came before, and a quit request followed in the same batch by
    the release of the q key leaves QUIT False. *)
Theorem handle_input_press_release_lost game events key :
  Game.inputs
    (Game.handle_input game
       (events ++ [Event.mk SDL_KEYDOWN key; Event.mk SDL_KEYUP key]))
    (to_input key) = false
  /\ forall sym,
      Game.inputs
        (Game.handle_input game
           (events ++ [Event.mk SDL_QUIT sym; Event.mk SDL_KEYUP SDLK_q]))
        Input.QUIT = false.
Proof.
  split; [|intros sym]; rewrite handle_input_app;
    unfold Game.handle_input at 1; cbn [Game.inputs fold_left];
    unfold Game.handle_event at 1; cbn [Event.type Event.sym Z.eqb SDL_KEYUP SDL_QUIT
                                          SDL_KEYDOWN Pos.eqb];
    apply fn_lookup_insert.
Qed.

(** X9: events that are neither quit requests nor presses or releases of a
    bound key change no input other than NONE, and the kinematics tick that
    follows is the one that would have run without them. *)
Theorem handle_input_ignores_unbound game events :
  Forall unbound events ->
  (forall i, i <> Input.NONE ->
     Game.inputs (Game.handle_input game events) i = Game.inputs game i)
  /\ Game.physics (Game.handle_input game events)
     = let* game' := Game.physics game in Ok (Game.handle_input game' events).
Proof.
  intros HF.
  assert (H : forall i, i <> Input.NONE ->
                fold_left Game.handle_event events (Game.inputs game) i
                = Game.inputs game i)
    by (intros i Hi; apply fold_unbound; assumption).
  split; [exact H|].
  unfold Game.handle_input at 1. rewrite (physics_inputs (Game.inputs game)) by exact H.
  destruct game as [inputs player map camera]. cbn [Game.inputs Game.player Game.map Game.camera].
  destruct (Game.physics _) as [game'|e] eqn:E; cbn [bind]; [|reflexivity].
  unfold Game.handle_input. do 2 f_equal.
  apply physics_inv in E. cbn zeta in E. destruct E as (ground & vx & st & _ & _ & ->).
  reflexivity.
Qed.

Lemma handle_input_ignores_unbound_witness :
  Game.physics
    (Game.handle_input falling_game [Event.mk SDL_KEYDOWN 120; Event.mk 1024 0])
  = let* game' := Game.physics falling_game in
    Ok (Game.handle_input game' [Event.mk SDL_KEYDOWN 120; Event.mk 1024 0]).
Proof.
  assert (HF : Forall unbound [Event.mk SDL_KEYDOWN 120; Event.mk 1024 0]).
  { repeat constructor; cbn; try discriminate;
      intros [H|H]; try discriminate; reflexivity. }
  exact (proj2 (handle_input_ignores_unbound falling_game _ HF)).
Defined.

(** * Further properties of the loader *)

Section LoaderShape.
Local Open Scope Z_scope.

Lemma readlines_app_newline a rest :
  readlines (a ++ String newline rest)
  = (readlines (a ++ String newline "") ++ readlines rest)%list.
Proof.
  induction a as [|c a IH].
  - change (readlines (String newline rest) = (readlines (String newline "") ++ readlines rest)%list).
    cbn [readlines]. rewrite Ascii.eqb_refl. reflexivity.
  - change (readlines (String c (a ++ String newline rest))
            = (readlines (String c (a ++ String newline "")) ++ readlines rest)%list).
    cbn [readlines]. destruct (Ascii.eqb c newline).
    + rewrite IH. reflexivity.
    + rewrite IH. destruct (readlines (a ++ String newline "")) as [|l ls] eqn:E.
      * exfalso. clear -E. destruct a as [|c' a].
        -- change (readlines (String newline "") = []) in E. cbn [readlines] in E.
           rewrite Ascii.eqb_refl in E. discriminate.
        -- change (readlines (String c' (a ++ String newline "")) = []) in E.
           cbn [readlines] in E. destruct (Ascii.eqb c' newline); [discriminate|].
           destruct (readlines _); discriminate.
      * reflexivity.
Qed.

(** The loader raises nothing but [ValueError] and [RuntimeError]. *)
Lemma scan_words_raises words : forall tiles width e,
  Map.scan_words words tiles width = Raise e -> e = ValueError.
Proof.
  induction words as [|word rest IH]; intros tiles width e H; cbn [Map.scan_words] in H.
  - discriminate.
  - destruct (is_empty word); [eapply IH; exact H|].
    unfold py_int_of_str in H.
    destruct (match rstrip (lstrip word) with
              | String "-" rest0 => (true, rest0)
              | String "+" rest0 => (false, rest0)
              | _ => (false, rstrip (lstrip word))
              end) as [negative digits].
    destruct (digits_value 0 false digits); cbn [bind] in H.
    + destruct (MAX_STR_DIGITS <? count_digits digits)%nat; cbn [bind] in H.
      * congruence.
      * eapply IH; exact H.
    + congruence.
Qed.

Lemma scan_lines_raises lines : forall self e,
  Map.scan_lines lines self = Raise e -> e = ValueError \/ e = RuntimeError.
Proof.
  induction lines as [|line rest IH]; intros self e H; cbn [Map.scan_lines] in H.
  - discriminate.
  - destruct (Map.scan_words _ _ _) as [[tiles' width']|e'] eqn:E; cbn [bind] in H.
    + destruct (_ && _); [right; congruence | eapply IH; exact H].
    + left. injection H as <-. eapply scan_words_raises; exact E.
Qed.

End LoaderShape.

(** X10: a map that loads is a full grid: [tiles] holds [width * height]
    ids, [height] is the number of lines of the file, and a map of two or
    more lines has a positive width. *)
Theorem load_grid_shape text self :
  Map.__init__ text = Ok self ->
  (Z.of_nat (length (Map.tiles self)) = Map.width self * Map.height self)%Z
  /\ Map.height self = Z.of_nat (length (readlines text))
  /\ (0 <= Map.width self)%Z
  /\ (1 < Map.height self -> 0 < Map.width self)%Z.
Proof.
  intros H. destruct (load_rows text self H) as (rows & HF & Ht & Hh & Hw).
  pose proof (Forall2_length _ _ _ HF) as Hlen.
  split; [rewrite Ht, (concat_length_uniform rows _ Hw), Hh; reflexivity|].
  split; [rewrite Hh, Hlen; reflexivity|].
  pose proof (readlines_terminated text) as Hterm.
  destruct (readlines text) as [|line lines] eqn:El.
  - unfold Map.__init__ in H. rewrite El in H. cbn in H. injection H as <-.
    cbn. lia.
  - inversion HF as [|? row ? rows' Hr HF' E1 E2]. subst rows.
    apply Forall_cons in Hw. destruct Hw as [Hw1 _]. rewrite <- Hw1.
    split; [lia|]. intros Hh1. cbn [length] in Hh.
    destruct Hterm as [Hterm _].
    assert (Hne : lines <> []).
    { intros ->. inversion HF'. subst. cbn in Hh. lia. }
    specialize (Hterm Hne). apply row_of_terminated in Hterm.
    destruct row; [congruence | cbn; lia].
Qed.

Lemma load_grid_shape_witness :
  exists self,
    Map.__init__ demo_text = Ok self
    /\ (Z.of_nat (length (Map.tiles self)) = Map.width self * Map.height self)%Z.
Proof.
  eexists.
  assert (E : Map.__init__ demo_text = Ok _) by (vm_compute; reflexivity).
  split; [exact E|]. exact (proj1 (load_grid_shape _ _ E)).
Defined.




(** X12: an empty line stops the loader: a file that starts with a newline,
    or has two newlines in a row, never loads; the exception is
    [ValueError] or, when an earlier line has another width,
    [RuntimeError]. *)
Theorem load_blank_line_raises :
  forall text,
    (exists b, text = String newline b)
    \/ (exists a b, text = (a ++ String newline (String newline b))%string) ->
    Map.__init__ text = Raise ValueError \/ Map.__init__ text = Raise RuntimeError.
Proof.
  intros text Htext.
  assert (Hin : In (String newline "") (readlines text)).
  { destruct Htext as [(b & ->)|(a & b & ->)].
    - cbn [readlines]. rewrite Ascii.eqb_refl. left. reflexivity.
    - rewrite readlines_app_newline. apply in_or_app. right.
      cbn [readlines]. rewrite Ascii.eqb_refl. left. reflexivity. }
  destruct (Map.__init__ text) as [self|e] eqn:E.
  - exfalso. destruct (load_rows text self E) as (rows & HF & _).
    clear -HF Hin. induction HF as [|line row lines rows Hr HF IH]; [contradiction|].
    destruct Hin as [->|Hin]; [|auto].
    vm_compute in Hr. discriminate.
  - destruct (scan_lines_raises _ _ _ E) as [->| ->]; auto.
Qed.

Lemma load_blank_line_raises_witness :
  Map.__init__ ("1 2" ++ String newline (String newline ""))%string = Raise ValueError.
Proof.
  assert (H : Map.__init__ ("1 2" ++ String newline (String newline ""))%string
              = Raise ValueError
              \/ Map.__init__ ("1 2" ++ String newline (String newline ""))%string
                 = Raise RuntimeError).
  { apply load_blank_line_raises. right. exists "1 2"%string, ""%string. reflexivity. }
  destruct H as [H|H]; [exact H|].
  exfalso. vm_compute in H. discriminate.
Defined.

(** ** The timer text *)

Section TimerText.
Local Open Scope Z_scope.

Lemma append_assoc (a b c : string) : ((a ++ b) ++ c = a ++ (b ++ c))%string.
Proof.
  induction a as [|ch a IH]; [reflexivity|].
  change (String ch ((a ++ b) ++ c) = String ch (a ++ (b ++ c)))%string.
  f_equal. exact IH.
Qed.

Lemma length_append (a b : string) :
  String.length (a ++ b) = (String.length a + String.length b)%nat.
Proof.
  induction a as [|ch a IH]; [reflexivity|].
  change (S (String.length (a ++ b)) = S (String.length a + String.length b)).
  f_equal. exact IH.
Qed.

(** The two-character rendering of the numbers below one hundred. *)
Definition two_digits (n : Z) : string :=
  String (ascii_of_nat (48 + Z.to_nat (n / 10)))
    (String (ascii_of_nat (48 + Z.to_nat (n mod 10))) EmptyString).

Lemma format_02_two_digits n : 0 <= n < 100 -> format_02 n = two_digits n.
Proof.
  intros Hn.
  assert (Hall : forallb (fun k => String.eqb (format_02 (Z.of_nat k)) (two_digits (Z.of_nat k)))
                   (seq 0 100) = true) by (vm_compute; reflexivity).
  rewrite forallb_forall in Hall.
  specialize (Hall (Z.to_nat n)). rewrite Z2Nat.id in Hall by lia.
  apply String.eqb_eq, Hall, in_seq. lia.
Qed.

Lemma format_time_fields ticks :
  0 <= ticks < 2 ^ 52 ->
  format_time ticks
  = Ok (format_02 (ticks / 3000) ++ ":" ++ format_02 ((ticks / 50) mod 60))%string.
Proof.
  intros Ht. unfold format_time.
  destruct (py_int_truediv_floor ticks 50 Ht ltac:(lia)) as (f & Hf & Hi).
  rewrite Hf. cbn [bind]. rewrite Hi. cbn [bind].
  assert (Hs : 0 <= ticks / 50 < 2 ^ 52).
  { split; [apply Z.div_pos; lia|]. apply Z.div_lt_upper_bound; lia. }
  destruct (py_int_truediv_floor (ticks / 50) 60 Hs ltac:(lia)) as (g & Hg & Hj).
  rewrite Hg. cbn [bind]. rewrite Hj. cbn [bind].
  rewrite Z.div_div by lia. reflexivity.
Qed.
End TimerText.

(** X13: the timer text of a tick count below [2^52] is the minutes, the
    seconds within the minute and the hundredths within the second, each
    written with [02], separated by colons; seconds stay below 60, the
    hundredths are even and below 100, and the three fields determine the
    tick count.  Below one hundred minutes the text has eight characters. *)
Theorem format_time_exact_fields ticks :
  (0 <= ticks < 2 ^ 52)%Z ->
  let mins := (ticks / 3000)%Z in
  let secs := ((ticks / 50) mod 60)%Z in
  let cents := ((ticks mod 50) * 2)%Z in
  format_time ticks = Ok (format_02 mins ++ ":" ++ format_02 secs)%string
  /\ format_time_exact ticks
     = Ok (format_02 mins ++ ":" ++ format_02 secs ++ ":" ++ format_02 cents)%string
  /\ (0 <= secs < 60)%Z /\ (0 <= cents < 100)%Z
  /\ (ticks = 50 * (60 * mins + secs) + cents / 2)%Z
  /\ ((ticks < 300000)%Z ->
      format_time_exact ticks
      = Ok (two_digits mins ++ ":" ++ two_digits secs ++ ":" ++ two_digits cents)%string).
Proof.
  intros Ht mins secs cents.
  pose proof (format_time_fields ticks Ht) as Hf. fold mins secs in Hf.
  assert (He : format_time_exact ticks
               = Ok (format_02 mins ++ ":" ++ format_02 secs ++ ":" ++ format_02 cents)%string).
  { unfold format_time_exact, py_mod. cbn [Z.eqb bind]. rewrite Hf. cbn [bind].
    fold cents. rewrite append_assoc. reflexivity. }
  assert (Hsecs : (0 <= secs < 60)%Z) by (apply Z.mod_pos_bound; lia).
  assert (Hcents : (0 <= cents < 100)%Z).
  { unfold cents. pose proof (Z.mod_pos_bound ticks 50 ltac:(lia)). lia. }
  split; [exact Hf|]. split; [exact He|]. split; [exact Hsecs|]. split; [exact Hcents|].
  split.
  - unfold mins, secs, cents. rewrite Z.div_mul by lia.
    replace (ticks / 3000)%Z with (ticks / 50 / 60)%Z
      by (rewrite Z.div_div by lia; reflexivity).
    pose proof (Z.div_mod (ticks / 50) 60 ltac:(lia)).
    pose proof (Z.div_mod ticks 50 ltac:(lia)). lia.
  - intros Hsmall. rewrite He.
    assert (Hmins : (0 <= mins < 100)%Z).
    { unfold mins. split; [apply Z.div_pos; lia|]. apply Z.div_lt_upper_bound; lia. }
    rewrite (format_02_two_digits mins Hmins), (format_02_two_digits secs ltac:(lia)),
      (format_02_two_digits cents Hcents). reflexivity.
Qed.

Lemma format_time_exact_fields_witness :
  format_time_exact 7349 = Ok "02:26:98"%string.
Proof.
  assert (H : (0 <= 7349 < 2 ^ 52)%Z) by lia.
  destruct (format_time_exact_fields 7349 H) as (_ & _ & _ & _ & _ & E).
  exact (E ltac:(lia)).
Defined.

(** ** The camera *)

Section Camera.

Lemma ltb_false_value (a b : float) :
  finite a -> finite b -> (a <? b)%float = false -> (F2Q b <= F2Q a)%Q.
Proof.
  intros Ha Hb E. apply Qnot_lt_le. intros H.
  apply (ltb_value a b Ha Hb) in H. congruence.
Qed.

Lemma py_max_spec (a b : float) :
  finite a -> finite b ->
  finite (py_max a b)
  /\ (F2Q a <= F2Q (py_max a b))%Q /\ (F2Q b <= F2Q (py_max a b))%Q
  /\ (py_max a b = a \/ py_max a b = b)
  /\ ((b <=? a)%float = true -> py_max a b = a).
Proof.
  intros Ha Hb. unfold py_max. destruct (a <? b)%float eqn:E.
  - pose proof (proj1 (ltb_value a b Ha Hb) E) as Hlt.
    split; [exact Hb|]. split; [lra|]. split; [lra|]. split; [auto|].
    intros Hle. apply (leb_value b a Hb Ha) in Hle. lra.
  - pose proof (ltb_false_value a b Ha Hb E).
    split; [exact Ha|]. split; [lra|]. split; [lra|]. auto.
Qed.

Lemma py_min_spec (a b : float) :
  finite a -> finite b ->
  finite (py_min a b)
  /\ (F2Q (py_min a b) <= F2Q a)%Q /\ (F2Q (py_min a b) <= F2Q b)%Q
  /\ (py_min a b = a \/ py_min a b = b)
  /\ ((a <=? b)%float = true -> py_min a b = a).
Proof.
  intros Ha Hb. unfold py_min. destruct (b <? a)%float eqn:E.
  - pose proof (proj1 (ltb_value b a Hb Ha) E) as Hlt.
    split; [exact Hb|]. split; [lra|]. split; [lra|]. split; [auto|].
    intros Hle. apply (leb_value a b Ha Hb) in Hle. lra.
  - pose proof (ltb_false_value b a Hb Ha E).
    split; [exact Ha|]. split; [lra|]. split; [lra|]. auto.
Qed.

(** The two edges of the band around the player are in order. *)
Lemma band_ordered (t : float) :
  finite (t - 100) -> finite (t + 100) ->
  finite t /\ (F2Q (t - 100) <= F2Q t)%Q /\ (F2Q t <= F2Q (t + 100))%Q.
Proof.
  intros HL HR.
  destruct (sub_nearest t 100 HL) as (Ht & _ & HnL).
  destruct (add_nearest t 100 HR) as (_ & _ & HnR).
  assert (H100 : (0 <= F2Q 100)%Q) by (vm_compute; discriminate).
  split; [exact Ht|]. split.
  - apply (nearer_le _ _ _ (HnL _ (F2Q_fgrid t))). lra.
  - apply (nearer_ge _ _ _ (HnR _ (F2Q_fgrid t))). lra.
Qed.
End Camera.

(** X14: [move_camera] brings the camera into the band of 100 units on
    either side of the player's window-centred position and leaves it alone
    when it is already there; applying it twice is the same as applying it
    once.  The band edges are assumed to be finite floats. *)
Theorem move_camera_keeps_band self :
  let p := Point2d.x (Player.pos (Game.player self)) in
  let c := Point2d.x (Game.camera self) in
  let left_area := (p - 640 - 100)%float in
  let right_area := (p - 640 + 100)%float in
  let c' := Point2d.x (Game.camera (Game.move_camera self)) in
  finite left_area -> finite right_area -> finite c ->
  (left_area <=? c')%float = true /\ (c' <=? right_area)%float = true
  /\ ((left_area <=? c)%float = true -> (c <=? right_area)%float = true -> c' = c)
  /\ Game.move_camera (Game.move_camera self) = Game.move_camera self.
Proof.
  intros p c L R c' HL HR Hc.
  assert (Ec : c' = py_min (py_max c L) R) by reflexivity.
  destruct (band_ordered (p - 640) HL HR) as (Ht & H1 & H2).
  fold L in H1. fold R in H2.
  destruct (py_max_spec c L Hc HL) as (Fm & M1 & M2 & M3 & M4).
  destruct (py_min_spec (py_max c L) R Fm HR) as (Fc & N1 & N2 & N3 & N4).
  assert (HLc : (F2Q L <= F2Q c')%Q).
  { rewrite Ec. destruct N3 as [-> | ->]; lra. }
  assert (Hband : (L <=? c')%float = true /\ (c' <=? R)%float = true).
  { rewrite Ec in *. split.
    - apply leb_value; assumption.
    - apply leb_value; assumption. }
  split; [apply Hband|]. split; [apply Hband|]. split.
  - intros B1 B2. rewrite Ec. rewrite (M4 B1) in N4 |- *. apply N4. exact B2.
  - assert (Ecam : Game.camera (Game.move_camera self)
                   = Point2d.mk c' (Point2d.y (Game.camera self))) by reflexivity.
    assert (Estep : Game.move_camera (Game.move_camera self)
                    = Game.mk (Game.inputs self) (Game.player self) (Game.map self)
                        (Point2d.mk (py_min (py_max c' L) R)
                                    (Point2d.y (Game.camera self)))) by reflexivity.
    rewrite Estep.
    destruct Hband as [B1 B2].
    rewrite Ec in B1, B2 |- *.
    destruct (py_max_spec (py_min (py_max c L) R) L Fc HL) as (_ & _ & _ & _ & M4').
    rewrite (M4' B1).
    destruct (py_min_spec (py_min (py_max c L) R) R Fc HR) as (_ & _ & _ & _ & N4').
    rewrite (N4' B2). reflexivity.
Qed.

(** A player at x = 1000 with the camera at the origin. *)
Definition scrolling_game : Game.t :=
  Game.mk (fun _ => false)
          (Player.mk Time.__init__ (Point2d.mk 1000 500) (Vector2d 0 0))
          demo_map (Point2d.mk 0 0).

Lemma move_camera_keeps_band_witness :
  Point2d.x (Game.camera (Game.move_camera scrolling_game)) = 260%float
  /\ Game.move_camera (Game.move_camera scrolling_game)
     = Game.move_camera scrolling_game.
Proof.
  assert (F1 : finite (1000 - 640 - 100)%float) by (vm_compute; exact I).
  assert (F2 : finite (1000 - 640 + 100)%float) by (vm_compute; exact I).
  assert (F3 : finite 0%float) by (vm_compute; exact I).
  split; [vm_compute; reflexivity|].
  exact (proj2 (proj2 (proj2 (move_camera_keeps_band scrolling_game F1 F2 F3)))).
Defined.

(** * Drawing the map *)

Section MapSprites.
Local Open Scope Z_scope.

(** The part of the tile sheet that holds tile [v]. *)
Definition clip_of (v : Z) : Rect.t := Rect.mk (v mod 16 * 64) (v / 16 * 64) 64 64.

(** The place on the screen of the tile at index [i] of a grid of width [w],
    for a camera at [(cx, cy)]. *)
Definition dest_of (w cx cy i : Z) : Rect.t :=
  Rect.mk (i mod w * 64 - cx) (i / w * 64 - cy) 64 64.

Fixpoint copies_from (w cx cy i : Z) (tiles : list Z) : list (Rect.t * Rect.t) :=
  match tiles with
  | [] => []
  | v :: rest =>
      if v =? 0 then copies_from w cx cy (i + 1) rest
      else (clip_of v, dest_of w cx cy i) :: copies_from w cx cy (i + 1) rest
  end.

Lemma render_tile_spec map camera cx cy i v :
  0 <= i < 2 ^ 52 -> 0 <= v < 2 ^ 52 -> v <> 0 ->
  0 < Map.width map <= 2 ^ 53 ->
  py_int (Point2d.x camera) = Ok cx -> py_int (Point2d.y camera) = Ok cy ->
  render_tile map camera i v
  = Ok (Some (clip_of v, dest_of (Map.width map) cx cy i)).
Proof.
  intros Hi Hv Hnz Hw Hcx Hcy. unfold render_tile.
  destruct (Z.eqb_spec v 0) as [|_]; [contradiction|].
  unfold py_mod, TILES_PER_ROW. cbn [Z.eqb bind].
  destruct (py_int_truediv_floor v 16 Hv ltac:(lia)) as (f & Hf & Hfi).
  rewrite Hf. cbn [bind]. rewrite Hfi. cbn [bind].
  destruct (Z.eqb_spec (Map.width map) 0) as [|_]; [lia|]. cbn [bind].
  rewrite Hcx. cbn [bind].
  destruct (py_int_truediv_floor i (Map.width map) Hi Hw) as (g & Hg & Hgi).
  rewrite Hg. cbn [bind]. rewrite Hgi. cbn [bind]. rewrite Hcy. reflexivity.
Qed.

Lemma render_tiles_spec map camera cx cy tiles : forall i,
  0 <= i -> i + Z.of_nat (length tiles) <= 2 ^ 52 ->
  Forall (fun v => 0 <= v < 2 ^ 52) tiles ->
  0 < Map.width map <= 2 ^ 53 ->
  py_int (Point2d.x camera) = Ok cx -> py_int (Point2d.y camera) = Ok cy ->
  render_tiles map camera i tiles
  = Ok (copies_from (Map.width map) cx cy i tiles).
Proof.
  induction tiles as [|v rest IH]; intros i Hi Hlen HF Hw Hcx Hcy; [reflexivity|].
  apply Forall_cons in HF. destruct HF as [Hv HF]. cbn [length] in Hlen.
  cbn [render_tiles copies_from].
  rewrite (IH (i + 1)) by (try assumption; lia).
  destruct (Z.eqb_spec v 0) as [->|Hnz].
  - reflexivity.
  - rewrite (render_tile_spec map camera cx cy i v) by (try assumption; lia).
    reflexivity.
Qed.

Lemma copies_from_length w cx cy tiles : forall i,
  length (copies_from w cx cy i tiles)
  = length (List.filter (fun v => negb (v =? 0)) tiles).
Proof.
  induction tiles as [|v rest IH]; intros i; [reflexivity|].
  cbn [copies_from List.filter]. destruct (v =? 0); cbn [negb length]; rewrite IH; reflexivity.
Qed.

Lemma copies_from_lookup w cx cy tiles : forall i k v,
  tiles !! k = Some v -> v <> 0 ->
  In (clip_of v, dest_of w cx cy (i + Z.of_nat k)) (copies_from w cx cy i tiles).
Proof.
  induction tiles as [|v0 rest IH]; intros i k v Hk Hnz; [discriminate|].
  cbn [copies_from]. destruct k as [|k].
  - injection Hk as ->. destruct (Z.eqb_spec v 0) as [|_]; [contradiction|].
    left. rewrite Z.add_0_r. reflexivity.
  - cbn in Hk. specialize (IH (i + 1) k v Hk Hnz).
    replace (i + 1 + Z.of_nat k) with (i + Z.of_nat (S k)) in IH by lia.
    destruct (v0 =? 0); [exact IH | right; exact IH].
Qed.
End MapSprites.

(** X15: [render_map] draws each tile other than 0 once, at the cell where
    the tile queries find it: for a loaded grid of less than [2^52] tiles
    with ids in [0, 2^52) and a camera at finite coordinates, the tile [v]
    of column [c] of row [r] is copied from the rectangle of the tile sheet
    at [(v mod 16 * 64, v / 16 * 64)] to the 64 by 64 rectangle at
    [(c * 64, r * 64)] less the truncated camera position, and [get_tile]
    returns [v] at every position that rounds into that cell; there are as
    many copies as tiles other than 0. *)
Theorem render_map_draws_cells self rows camera cx cy :
  loaded self rows ->
  (Z.of_nat (length (Map.tiles self)) < 2 ^ 52)%Z ->
  Forall (fun v => 0 <= v < 2 ^ 52)%Z (Map.tiles self) ->
  py_int (Point2d.x camera) = Ok cx -> py_int (Point2d.y camera) = Ok cy ->
  exists copies,
    render_map self camera = Ok copies
    /\ length copies
       = length (List.filter (fun v => negb (v =? 0)%Z) (Map.tiles self))
    /\ forall r c row v,
        rows !! r = Some row -> row !! c = Some v -> v <> 0%Z ->
        In (Rect.mk (v mod 16 * 64) (v / 16 * 64) 64 64,
            Rect.mk (Z.of_nat c * 64 - cx) (Z.of_nat r * 64 - cy) 64 64)%Z copies
        /\ forall pos X Y,
            py_round (Point2d.x pos) = Ok X -> py_round (Point2d.y pos) = Ok Y ->
            (64 * Z.of_nat c <= X < 64 * (Z.of_nat c + 1))%Z ->
            (64 * Z.of_nat r <= Y < 64 * (Z.of_nat r + 1))%Z ->
            Map.get_tile self pos = Ok v.
Proof.
  intros Hl Hlen HF Hcx Hcy. unfold render_map.
  destruct (Map.tiles self) as [|v0 rest] eqn:Et.
  - exists []. split; [reflexivity|]. split; [reflexivity|].
    intros r c row v Hr Hc Hnz. exfalso.
    destruct Hl as (Hl1 & _ & Hl3). rewrite Et in Hl1.
    pose proof (concat_lookup_uniform rows _ r c row v Hl3 Hr Hc) as Hk.
    rewrite <- Hl1 in Hk. discriminate.
  - rewrite <- Et in *.
    assert (Hw : (0 < Map.width self <= 2 ^ 53)%Z).
    { destruct Hl as (Hl1 & Hl2 & Hl3).
      pose proof (concat_length_uniform rows _ Hl3) as Hc. rewrite <- Hl1 in Hc.
      assert (0 < Z.of_nat (length (Map.tiles self)))%Z by (rewrite Et; cbn; lia).
      assert (0 <= Map.width self)%Z.
      { destruct Hl3 as [|row rows' Hrow _]; [cbn in Hc; lia | lia]. }
      pose proof (Nat2Z.is_nonneg (length rows)) as Hn.
      assert (1 <= Z.of_nat (length rows))%Z by nia.
      assert (0 < Map.width self)%Z by nia.
      split; [assumption|].
      assert (Map.width self <= Map.width self * Z.of_nat (length rows))%Z by nia.
      lia. }
    exists (copies_from (Map.width self) cx cy 0 (Map.tiles self)).
    split; [apply render_tiles_spec; try assumption; lia|].
    split; [apply copies_from_length|].
    intros r c row v Hr Hc Hnz. split.
    + destruct (loaded_nonempty _ _ _ _ _ _ Hl Hr Hc) as (_ & _ & Hcw).
      destruct Hl as (Hl1 & _ & Hl3).
      pose proof (concat_lookup_uniform rows _ r c row v Hl3 Hr Hc) as Hk.
      rewrite <- Hl1 in Hk.
      pose proof (copies_from_lookup (Map.width self) cx cy _ 0 _ _ Hk Hnz) as Hin.
      rewrite Z2Nat.id, Z.add_0_l in Hin by nia.
      unfold clip_of, dest_of in Hin.
      replace ((Z.of_nat r * Map.width self + Z.of_nat c) mod Map.width self)%Z
        with (Z.of_nat c) in Hin
        by (rewrite Z.add_comm, Z.mod_add, Z.mod_small by lia; reflexivity).
      replace ((Z.of_nat r * Map.width self + Z.of_nat c) / Map.width self)%Z
        with (Z.of_nat r) in Hin
        by (rewrite Z.add_comm, Z.div_add, Z.div_small by lia; reflexivity).
      exact Hin.
    + intros pos X Y HX HY HcX HrY.
      exact (get_tile_cell self rows r c row v pos X Y Hl Hr Hc HX HY HcX HrY).
Qed.

Lemma render_map_draws_cells_witness :
  exists copies,
    render_map demo_map (Point2d.mk 100 0) = Ok copies
    /\ In (Rect.mk (5 * 64) 0 64 64, Rect.mk (2 * 64 - 100) (2 * 64 - 0) 64 64)%Z copies.
Proof.
  assert (Hl : loaded demo_map
                 [[0; 0; 0; 0; 0; 0]; [0; 0; 0; 0; 0; 0];
                  [0; 78; 5; 0; 110; 0]; [1; 1; 1; 1; 1; 1]]%Z).
  { split; [reflexivity|]. split; [reflexivity|]. repeat constructor. }
  assert (Hlen : (Z.of_nat (length (Map.tiles demo_map)) < 2 ^ 52)%Z) by (cbn; lia).
  assert (HF : Forall (fun v => 0 <= v < 2 ^ 52)%Z (Map.tiles demo_map))
    by (repeat constructor; lia).
  assert (Hcx : py_int (Point2d.x (Point2d.mk 100 0)) = Ok 100%Z)
    by (vm_compute; reflexivity).
  assert (Hcy : py_int (Point2d.y (Point2d.mk 100 0)) = Ok 0%Z)
    by (vm_compute; reflexivity).
  destruct (render_map_draws_cells demo_map _ _ _ _ Hl Hlen HF Hcx Hcy)
    as (copies & E & _ & Hcell).
  exists copies. split; [exact E|].
  exact (proj1 (Hcell 2%nat 2%nat [0; 78; 5; 0; 110; 0]%Z 5%Z eq_refl eq_refl
                  ltac:(discriminate))).
Defined.

(** * The swept box and solid rows

    The resolver moves the box in sub-steps of at most two units along each
    axis when the speed is at most 64; the rounded corner coordinates then
    move by less than a tile, so that the box cannot skip a solid row. *)

Section SqrtBound.
Local Open Scope Z_scope.

Lemma sqrtrem_spec m :
  0 <= m ->
  let '(q, r) := Z.sqrtrem m in
  m = q * q + r /\ 0 <= r <= 2 * q /\ 0 <= q.
Proof.
  intros Hm. pose proof (Z.sqrtrem_spec m Hm) as H.
  destruct (Z.sqrtrem m) as [q r]. destruct H as [H1 H2]. repeat split; lia.
Qed.

(** An integer whose square is at most [m] is at most the root of [m]. *)
Lemma sqrt_lower q r m k :
  m = q * q + r -> 0 <= r <= 2 * q -> 0 <= k -> k * k <= m -> k <= q.
Proof. intros -> Hr Hk Hkk. nia. Qed.

Lemma pow2_square e : (pow2 (2 * e) == pow2 e * pow2 e)%Q.
Proof. replace (2 * e) with (e + e) by lia. apply pow2_add. Qed.

(** The square root is not below an integer whose square is not above
    the argument. *)
Theorem SFsqrt_ge (m : positive) (e K : Z) :
  0 < K < 2 ^ 26 ->
  (inject_Z (K * K) <= SV (Zpos m) e)%Q ->
  finite_SF (SFsqrt prec emax (S754_finite false m e)) ->
  (inject_Z K <= FV (SFsqrt prec emax (S754_finite false m e)))%Q.
Proof.
  intros HK HS. cbn [SFsqrt]. unfold SFsqrt_core_binary. cbn [Zdigits2].
  set (d := Zpos (digits2_pos m)).
  set (h := Z.div2 (d + e + 1)).
  set (e' := Z.min (fexp prec emax h) (Z.div2 e)).
  assert (Hh : 2 * h <= d + e + 1 <= 2 * h + 1).
  { unfold h. rewrite Z.div2_div.
    pose proof (Z.div_mod (d + e + 1) 2 ltac:(lia)).
    pose proof (Z.mod_pos_bound (d + e + 1) 2 ltac:(lia)). lia. }
  assert (He2 : 2 * Z.div2 e <= e).
  { rewrite Z.div2_div. pose proof (Z.div_mod e 2 ltac:(lia)).
    pose proof (Z.mod_pos_bound e 2 ltac:(lia)). lia. }
  assert (Hs : 0 <= e - 2 * e') by (unfold e'; lia).
  set (m' := match e - 2 * e' with
             | Zpos _ => Z.shiftl (Zpos m) (e - 2 * e')
             | Z0 => Zpos m
             | Zneg _ => 0
             end).
  assert (Hm' : m' = Zpos m * 2 ^ (e - 2 * e')).
  { unfold m'. destruct (e - 2 * e') as [|p|p] eqn:E; [lia| |lia].
    rewrite Z.shiftl_mul_pow2 by lia. reflexivity. }
  assert (Hp : 0 < 2 ^ (e - 2 * e')) by (apply Z.pow_pos_nonneg; lia).
  assert (Hm'pos : 0 < m') by (rewrite Hm'; lia).
  pose proof (sqrtrem_spec m' ltac:(lia)) as Hq.
  destruct (Z.sqrtrem m') as [q r]. destruct Hq as (Hqr & Hr & Hq0).
  assert (Hqpos : 0 < q) by nia.
  (* the digits of the root reach the target exponent *)
  pose proof (digits2_pos_bounds m) as [Hdl _]. fold d in Hdl.
  assert (Hd1 : 1 <= d) by (unfold d; lia).
  assert (Hdq : h - e' <= Zdigits2 q).
  { destruct (Z.le_gt_cases (h - e') 1) as [Hsmall|Hbig].
    - pose proof (Zdigits2_ge q 0 ltac:(lia) ltac:(simpl; lia)). lia.
    - set (j := h - e' - 1).
      assert (Hj : 0 < j) by (unfold j; lia).
      assert (Hmj : 2 ^ j * 2 ^ j <= m').
      { rewrite Hm', <- Z.pow_add_r by lia.
        assert (2 ^ (j + j) <= 2 ^ (d - 1 + (e - 2 * e')))
          by (apply Z.pow_le_mono_r; unfold j; lia).
        rewrite (Z.pow_add_r 2 (d - 1)) in H by lia. nia. }
      assert (0 < 2 ^ j) by (apply Z.pow_pos_nonneg; lia).
      pose proof (sqrt_lower q r m' (2 ^ j) Hqr Hr ltac:(lia) Hmj) as Hqj.
      pose proof (Zdigits2_ge q j ltac:(lia) Hqj). unfold j in *. lia. }
  assert (Hpre : e' <= fexp prec emax (Zdigits2 q + e')).
  { transitivity (fexp prec emax h); [unfold e'; lia | apply fexp_mono; lia]. }
  (* a rational with the location that the core computes *)
  set (l := if r =? 0 then loc_Exact
            else loc_Inexact (if r <=? q then Lt else Gt)).
  set (theta := (if r =? 0 then 0 else if r <=? q then 1 # 4 else 3 # 4)%Q).
  set (x := ((inject_Z q + theta) * pow2 e')%Q).
  pose proof (pow2_pos e') as Hpe.
  assert (Hin : inbetween q l (x / pow2 e')).
  { apply (inbetween_eq _ _ (inject_Z q + theta)%Q);
      [unfold x; field; lra|].
    unfold l, theta. destruct (r =? 0); cbn [inbetween]; [ring|].
    destruct (r <=? q); (split; [lra|]); (split; [lra|]);
      apply Qcompare_intro; lra. }
  intros Hfin.
  destruct (binary_round_aux_nearest false q e' l x ltac:(lia) Hin Hpre)
    as [Hinf|[Hshape Hn]]; [fold l in Hfin; rewrite Hinf in Hfin; contradiction|].
  fold l.
  assert (Hmag : FV (binary_round_aux prec emax false q e' l)
                 = mag (binary_round_aux prec emax false q e' l)).
  { destruct Hshape as [->|(m0 & e0 & ->)]; reflexivity. }
  rewrite Hmag.
  (* K is a binary64 value below x *)
  assert (HKgrid : grid (inject_Z K)).
  { destruct K as [|k|k]; try lia.
    assert (Hk53 : Zpos (digits2_pos k) <= 53).
    { apply digits2_pos_le; [lia|]. change (2 ^ 53) with (2 ^ 26 * 2 ^ 27). lia. }
    destruct (binary_round_small false k Hk53) as (mk & ek & _ & Hdk & Hek & Hvk).
    right. exists mk, ek.
    pose proof (Pos2Z.is_pos (digits2_pos k)).
    split; [apply valid_normal; [assumption | lia]|].
    pose proof (SV_shift (Zpos k) 0 ek ltac:(lia)) as Hsh.
    unfold SV in Hsh |- *. change (pow2 0) with 1%Q in Hsh.
    replace (0 - ek) with (- ek) in Hsh by lia. rewrite Hvk. lra. }
  apply (nearer_ge _ _ x (Hn _ HKgrid)).
  (* K <= q * 2^e' <= x *)
  assert (Hth : (0 <= theta)%Q)
    by (unfold theta; destruct (r =? 0); [|destruct (r <=? q)]; lra).
  assert (Hqx : (inject_Z q * pow2 e' <= x)%Q) by (unfold x; nra).
  assert (HKq : (inject_Z K <= inject_Z q * pow2 e')%Q); [|lra].
  destruct (Z.le_gt_cases e' 0) as [Hneg|Hposi].
  - (* scale K to the unit of the root *)
    assert (Hk' : K * 2 ^ (- e') <= q).
    { apply (sqrt_lower q r m'); [assumption | assumption | |].
      - assert (0 < 2 ^ (- e')) by (apply Z.pow_pos_nonneg; lia). nia.
      - rewrite Zle_Qle. rewrite Hm'.
        replace (K * 2 ^ (- e') * (K * 2 ^ (- e')))
          with ((K * K) * (2 ^ (- e') * 2 ^ (- e'))) by ring.
        rewrite !inject_Z_mult, <- !pow2_Z by lia.
        replace (e - 2 * e') with (e + (- e' + - e')) by lia.
        rewrite (pow2_add e). rewrite (pow2_add (- e') (- e')).
        unfold SV in HS. pose proof (pow2_pos (- e')). pose proof (pow2_pos e).
        assert (0 < pow2 (- e') * pow2 (- e'))%Q by nra.
        rewrite inject_Z_mult in HS. nra. }
    rewrite Zle_Qle, inject_Z_mult, <- pow2_Z in Hk' by lia.
    assert (Hone : (pow2 (- e') * pow2 e' == 1)%Q).
    { rewrite <- pow2_add. replace (- e' + e') with 0 by lia. reflexivity. }
    assert (Hmul : (inject_Z K * pow2 (- e') * pow2 e' <= inject_Z q * pow2 e')%Q)
      by (apply Qmult_le_compat_r; lra).
    assert (EK : (inject_Z K * pow2 (- e') * pow2 e' == inject_Z K)%Q)
      by (rewrite <- Qmult_assoc, Hone; ring).
    lra.
  - (* a large root: at least 2^53 *)
    assert (Hh54 : 54 <= h).
    { assert (0 < fexp prec emax h) by (unfold e' in Hposi; lia).
      rewrite fexp_eq in H. lia. }
    pose proof (Zdigits2_bounds q Hqpos) as [Hql _].
    pose proof (Zdigits2_ge q 0 ltac:(lia) ltac:(simpl; lia)) as Hdq1.
    assert (Hq2 : (pow2 (Zdigits2 q - 1) <= inject_Z q)%Q)
      by (rewrite pow2_Z by lia; rewrite <- Zle_Qle; exact Hql).
    assert (Hpp : (pow2 53 <= pow2 (Zdigits2 q - 1 + e'))%Q)
      by (apply pow2_le; lia).
    rewrite pow2_add in Hpp.
    assert (inject_Z K <= pow2 53)%Q.
    { rewrite pow2_Z by lia. rewrite <- Zle_Qle.
      change (2 ^ 53) with (2 ^ 26 * 2 ^ 27). lia. }
    pose proof (pow2_pos (Zdigits2 q - 1)). nra.
Qed.
End SqrtBound.

(** ** The displacement of one sub-step *)

Section Displacement.
Local Open Scope Z_scope.

Lemma sqrt_finite (a : float) : finite (sqrt a) -> finite a.
Proof.
  unfold finite. rewrite sqrt_spec. unfold SF64sqrt.
  destruct (Prim2SF a) as [s|[|]| |s m e]; cbn [SFsqrt finite_SF]; auto.
Qed.

Lemma sqrt_ge (a : float) K :
  0 < K < 2 ^ 26 -> (inject_Z (K * K) <= F2Q a)%Q -> finite (sqrt a) ->
  (inject_Z K <= F2Q (sqrt a))%Q.
Proof.
  intros HK Ha Hf. unfold finite in Hf. rewrite F2Q_FV in Ha |- *.
  rewrite sqrt_spec in Hf |- *. unfold SF64sqrt in *.
  assert (HKK : (0 < inject_Z (K * K))%Q)
    by (change 0%Q with (inject_Z 0); rewrite <- Zlt_Qlt; nia).
  destruct (Prim2SF a) as [s|s| |s m e]; cbn [FV] in Ha; try lra.
  destruct s.
  - cbn [cond_Zopp] in Ha. pose proof (SV_opp (Zpos m) e). pose proof (SV_pos m e). lra.
  - apply SFsqrt_ge; assumption.
Qed.

(** The length of a vector is not below the magnitude of its vertical
    component, as far as integers can tell. *)
Lemma len_ge vel d K :
  Point2d.len vel = Ok d -> finite d -> 0 < K < 2 ^ 26 ->
  (inject_Z K <= F2Q (Point2d.y vel) \/ F2Q (Point2d.y vel) <= - inject_Z K)%Q ->
  (inject_Z K <= F2Q d)%Q.
Proof.
  unfold Point2d.len, py_sqrt. destruct (_ <? 0)%float; [discriminate|].
  intros [= <-] Hd HK Hy.
  set (vx := Point2d.x vel) in *. set (vy := Point2d.y vel) in *.
  pose proof (sqrt_finite _ Hd) as Hs.
  destruct (add_nearest _ _ Hs) as (Hxx & Hyy & Hn).
  destruct (mul_nearest _ _ Hxx) as (_ & _ & Hnx).
  destruct (mul_nearest _ _ Hyy) as (_ & _ & Hny).
  assert (HK0 : (0 < inject_Z K)%Q)
    by (change 0%Q with (inject_Z 0); rewrite <- Zlt_Qlt; lia).
  assert (HgK : fgrid (inject_Z (K * K))).
  { apply fgrid_int. assert (K * K < 2 ^ 26 * 2 ^ 26) by nia.
    change (2 ^ 26 * 2 ^ 26) with (2 ^ 52) in H. lia. }
  assert (Hg0 : fgrid (inject_Z 0)) by (apply fgrid_int; lia).
  assert (Hsq : (inject_Z (K * K) <= F2Q vy * F2Q vy)%Q).
  { rewrite inject_Z_mult. destruct Hy; nra. }
  pose proof (nearer_ge _ _ _ (Hny _ HgK) Hsq) as Hyy2.
  assert (Hxx0 : (inject_Z 0 <= F2Q vx * F2Q vx)%Q)
    by (change (inject_Z 0) with 0%Q; nra).
  pose proof (nearer_ge _ _ _ (Hnx _ Hg0) Hxx0) as Hxx2.
  change (inject_Z 0) with 0%Q in Hxx2.
  assert (Hsum : (inject_Z (K * K) <= F2Q (vx * vx) + F2Q (vy * vy))%Q) by lra.
  pose proof (nearer_ge _ _ _ (Hn _ HgK) Hsum) as HS.
  apply sqrt_ge; assumption.
Qed.

Lemma F2Q_64 : (F2Q 64 == 64)%Q.
Proof. vm_compute. reflexivity. Qed.

Lemma F2Q_32 : (F2Q 32 == 32)%Q.
Proof. vm_compute. reflexivity. Qed.

Lemma F2Q_0 : (F2Q 0 == 0)%Q.
Proof. vm_compute. reflexivity. Qed.

(** With a length of at most 64, the vertical component is below the
    number of sub-steps. *)
Lemma vertical_below_count vel d n :
  Point2d.len vel = Ok d -> (d <=? 64)%float = true -> py_int d = Ok n ->
  0 <= n <= 64
  /\ (- inject_Z (n + 1) < F2Q (Point2d.y vel) < inject_Z (n + 1))%Q.
Proof.
  intros Hlen Hle Hn.
  pose proof (py_int_finite _ _ Hn) as Hd.
  assert (H64 : finite 64%float) by exact I.
  pose proof (proj1 (leb_value d 64 Hd H64) Hle) as Hd64. rewrite F2Q_64 in Hd64.
  destruct (py_int_floor d n (len_not_negative _ _ Hlen) Hn) as (Hn0 & Hn1 & Hn2).
  assert (Hn64 : n <= 64).
  { assert (inject_Z n <= inject_Z 64)%Q by (change (inject_Z 64) with 64%Q; lra).
    rewrite <- Zle_Qle in H. exact H. }
  split; [lia|].
  assert (HK : 0 < n + 1 < 2 ^ 26) by lia.
  assert (Hno : ~ (inject_Z (n + 1) <= F2Q (Point2d.y vel)
                   \/ F2Q (Point2d.y vel) <= - inject_Z (n + 1))%Q).
  { intros Hy. pose proof (len_ge vel d (n + 1) Hlen Hd HK Hy) as H.
    rewrite inject_Z_plus in H. change (inject_Z 1) with 1%Q in H. lra. }
  split; apply Qnot_le_lt; intros H; apply Hno; [right | left]; lra.
Qed.

(** The fractions [1 / (n + 1)] for up to 65 sub-steps. *)
Definition fraction_ok (n : nat) : bool :=
  match py_float (Z.of_nat n + 1) with
  | Ok denominator =>
      let fraction := (1 / denominator)%float in
      negb (denominator =? 0)%float
      && match Prim2SF fraction with
         | S754_zero _ | S754_finite _ _ _ => true
         | _ => false
         end
      && Qle_bool 0 (F2Q fraction)
      && Qle_bool (F2Q fraction * inject_Z (Z.of_nat n + 1)) 2
  | Raise _ => false
  end.

Lemma fractions_ok : forallb fraction_ok (seq 0 65) = true.
Proof. vm_compute. reflexivity. Qed.

Lemma fraction_spec n denominator :
  0 <= n <= 64 -> py_float (n + 1) = Ok denominator ->
  py_truediv 1 denominator = Ok (1 / denominator)%float
  /\ finite (1 / denominator)
  /\ (0 <= F2Q (1 / denominator))%Q
  /\ (F2Q (1 / denominator) * inject_Z (n + 1) <= 2)%Q.
Proof.
  intros Hn Hden. pose proof fractions_ok as H.
  rewrite forallb_forall in H. specialize (H (Z.to_nat n)).
  assert (Hin : In (Z.to_nat n) (seq 0 65)) by (apply in_seq; lia).
  specialize (H Hin). unfold fraction_ok in H.
  rewrite Z2Nat.id, Hden in H by lia. cbn zeta in H.
  apply andb_prop in H. destruct H as [H H4].
  apply andb_prop in H. destruct H as [H H3].
  apply andb_prop in H. destruct H as [H1 H2].
  apply Qle_bool_iff in H3, H4. apply negb_true_iff in H1.
  split; [unfold py_truediv; rewrite H1; reflexivity|].
  split; [|split; assumption].
  unfold finite. destruct (Prim2SF (1 / denominator)); try discriminate; exact I.
Qed.

(** A component of magnitude below [n + 1] moves by at most 2 in one of
    the [n + 1] sub-steps. *)
Lemma displacement_bound (v fraction : float) (K : Z) :
  (- inject_Z K < F2Q v < inject_Z K)%Q ->
  (0 <= F2Q fraction)%Q -> (F2Q fraction * inject_Z K <= 2)%Q ->
  finite (v * fraction) ->
  (- (2) <= F2Q (v * fraction) <= 2)%Q.
Proof.
  intros Hv Hf HfK Hfin.
  destruct (mul_nearest _ _ Hfin) as (_ & _ & Hn).
  assert (Hg2 : fgrid (inject_Z 2)) by (apply fgrid_int; lia).
  assert (Hgm : fgrid (inject_Z (-2))) by (apply fgrid_int; lia).
  change (inject_Z 2) with 2%Q in Hg2. change (inject_Z (-2)) with (-2 # 1)%Q in Hgm.
  split.
  - apply (nearer_ge _ _ _ (Hn _ Hgm)). nra.
  - apply (nearer_le _ _ _ (Hn _ Hg2)). nra.
Qed.
End Displacement.

(** ** How far a rounded corner can move in one sub-step *)

Section CornerJump.
Local Open Scope Z_scope.

(** Well-formed finite floats with the same non-zero value are the same
    float. *)
Lemma FV_inj s1 m1 e1 s2 m2 e2 :
  valid_binary (S754_finite s1 m1 e1) = true ->
  valid_binary (S754_finite s2 m2 e2) = true ->
  (FV (S754_finite s1 m1 e1) == FV (S754_finite s2 m2 e2))%Q ->
  S754_finite s1 m1 e1 = S754_finite s2 m2 e2.
Proof.
  intros V1 V2 H. cbn [FV] in H.
  assert (V1' : valid_binary (S754_finite false m1 e1) = true) by exact V1.
  assert (V2' : valid_binary (S754_finite false m2 e2) = true) by exact V2.
  pose proof (SV_pos m1 e1) as P1. pose proof (SV_pos m2 e2) as P2.
  pose proof (SV_opp (Zpos m1) e1) as O1. pose proof (SV_opp (Zpos m2) e2) as O2.
  assert (Hs : s1 = s2).
  { destruct s1, s2; cbn [cond_Zopp] in H; try reflexivity; exfalso; lra. }
  subst s2.
  assert (Hv : (SV (Zpos m1) e1 == SV (Zpos m2) e2)%Q).
  { destruct s1; cbn [cond_Zopp] in H; lra. }
  assert (He : e1 = e2).
  { destruct (Z.lt_trichotomy e1 e2) as [Hlt|[Heq|Hgt]]; [exfalso|exact Heq|exfalso].
    - pose proof (SV_lt_exponent _ _ _ _ V1' V2' Hlt). lra.
    - pose proof (SV_lt_exponent _ _ _ _ V2' V1' Hgt). lra. }
  subst e2. unfold SV in Hv. pose proof (pow2_pos e1) as Pe.
  apply Qmult_inj_r in Hv; [|lra].
  assert (Hm : Zpos m1 = Zpos m2) by (apply inject_Z_injective; exact Hv).
  injection Hm as ->. reflexivity.
Qed.

Lemma F2Q_inj (a b : float) :
  finite a -> finite b -> (F2Q a == F2Q b)%Q -> ~ (F2Q a == 0)%Q -> a = b.
Proof.
  intros Ha Hb H Hnz. apply Prim2SF_inj.
  pose proof (Prim2SF_valid a) as Va. pose proof (Prim2SF_valid b) as Vb.
  rewrite !F2Q_FV in H. rewrite F2Q_FV in Hnz. unfold finite in *.
  destruct (Prim2SF a) as [sa|sa| |sa ma ea]; cbn [finite_SF] in Ha; try contradiction.
  - exfalso. apply Hnz. reflexivity.
  - destruct (Prim2SF b) as [sb|sb| |sb mb eb]; cbn [finite_SF] in Hb; try contradiction.
    apply FV_inj; assumption.
Qed.

(** A float of magnitude [2^(53+j)] or more is a multiple of [2^(j+1)]. *)
Lemma large_multiple (f : float) j :
  0 <= j -> finite f ->
  (inject_Z (2 ^ (53 + j)) <= F2Q f \/ F2Q f <= - inject_Z (2 ^ (53 + j)))%Q ->
  exists k : Z, (F2Q f == inject_Z (k * 2 ^ (j + 1)))%Q.
Proof.
  intros Hj Hf Hbig. pose proof (Prim2SF_valid f) as Hv.
  pose proof (F2Q_FV f) as E.
  assert (Hbig' : (inject_Z (2 ^ (53 + j)) <= FV (Prim2SF f)
                   \/ FV (Prim2SF f) <= - inject_Z (2 ^ (53 + j)))%Q)
    by (destruct Hbig; [left | right]; lra).
  clear Hbig. rename Hbig' into Hbig. unfold finite in Hf.
  assert (Hpos : (0 < inject_Z (2 ^ (53 + j)))%Q).
  { change 0%Q with (inject_Z 0). rewrite <- Zlt_Qlt. apply Z.pow_pos_nonneg; lia. }
  destruct (Prim2SF f) as [s|s| |s m e]; cbn [finite_SF FV] in *; try contradiction.
  - exfalso. lra.
  - destruct (valid_bounds _ _ _ Hv) as (He & Hm & _).
    assert (Hmag : (inject_Z (2 ^ (53 + j)) <= SV (Zpos m) e)%Q).
    { pose proof (SV_opp (Zpos m) e). pose proof (SV_pos m e).
      destruct s; cbn [cond_Zopp] in Hbig; lra. }
    assert (Hej : j + 1 <= e).
    { destruct (Z.le_gt_cases (j + 1) e) as [|Hlt]; [assumption|exfalso].
      assert (Hp : (pow2 e <= pow2 j)%Q) by (apply pow2_le; lia).
      rewrite (pow2_Z j) in Hp by lia.
      assert (Hm' : (inject_Z (Zpos m) < inject_Z (2 ^ 53))%Q) by (rewrite <- Zlt_Qlt; lia).
      assert (Hsplit : (inject_Z (2 ^ (53 + j)) == inject_Z (2 ^ 53) * inject_Z (2 ^ j))%Q).
      { rewrite <- inject_Z_mult, <- Z.pow_add_r by lia. reflexivity. }
      unfold SV in Hmag. pose proof (pow2_pos e) as Pe.
      assert (H53 : (0 < inject_Z (2 ^ 53))%Q) by reflexivity.
      assert (S1 : (inject_Z (Zpos m) * pow2 e < inject_Z (2 ^ 53) * pow2 e)%Q)
        by (apply Qmult_lt_compat_r; assumption).
      assert (S2 : (inject_Z (2 ^ 53) * pow2 e <= inject_Z (2 ^ 53) * inject_Z (2 ^ j))%Q)
        by (apply Qmult_le_l; assumption).
      lra. }
    exists (cond_Zopp s (Zpos m) * 2 ^ (e - (j + 1))).
    rewrite E, (SV_shift _ e 0) by lia. unfold SV. change (pow2 0) with 1%Q.
    rewrite Qmult_1_r. rewrite Z.sub_0_r.
    assert (E2 : 2 ^ e = 2 ^ (e - (j + 1)) * 2 ^ (j + 1)).
    { rewrite <- Z.pow_add_r by lia. f_equal. lia. }
    rewrite E2, Z.mul_assoc. reflexivity.
Qed.

(** Below [2^56 + 36] in magnitude, a float nearest to a real is within
    16 of it. *)
Lemma nearest_within_16 (A a : Q) :
  (forall g, fgrid g -> nearer A g a) ->
  (- inject_Z (2 ^ 56 + 36) <= a <= inject_Z (2 ^ 56 + 36))%Q ->
  (a - 16 < A < a + 16)%Q.
Proof.
  intros Hn Ha.
  set (k := Qfloor (a / 16)).
  pose proof (Qfloor_le (a / 16)) as Hk1. pose proof (Qlt_floor (a / 16)) as Hk2.
  fold k in Hk1, Hk2. rewrite inject_Z_plus in Hk2. change (inject_Z 1) with 1%Q in Hk2.
  assert (E : (a / 16 * 16 == a)%Q) by field.
  assert (Hlo : (inject_Z k * 16 <= a)%Q) by lra.
  assert (Hhi : (a < inject_Z k * 16 + 16)%Q) by lra.
  assert (Hkb : Z.abs k < 2 ^ 53).
  { change (inject_Z (2 ^ 56 + 36)) with (72057594037927972 # 1)%Q in Ha.
    assert (H1 : (inject_Z k < inject_Z 4503599627370499)%Q)
      by (change (inject_Z 4503599627370499) with (4503599627370499 # 1)%Q; lra).
    assert (H2 : (inject_Z (-4503599627370500) < inject_Z k)%Q)
      by (change (inject_Z (-4503599627370500)) with (-4503599627370500 # 1)%Q; lra).
    rewrite <- Zlt_Qlt in H1, H2.
    change (2 ^ 53) with 9007199254740992. lia. }
  pose proof (fgrid_scaled k 4 Hkb ltac:(lia)) as Hg.
  change (2 ^ 4) with 16 in Hg. rewrite inject_Z_mult in Hg.
  change (inject_Z 16) with 16%Q in Hg.
  specialize (Hn _ Hg). apply nearer_elim in Hn. destruct Hn as [Hn _].
  destruct (Hn Hlo). lra.
Qed.
End CornerJump.

Section CornerJumpBound.
Local Open Scope Z_scope.

Lemma sum_near (y delta : float) :
  finite (y + delta) -> (- (2) <= F2Q delta <= 2)%Q ->
  finite y /\ (- (4) <= F2Q (y + delta) - F2Q y <= 4)%Q.
Proof.
  intros Hf Hd. destruct (add_nearest _ _ Hf) as (Hy & _ & Hn).
  split; [exact Hy|].
  specialize (Hn _ (F2Q_fgrid y)). apply nearer_elim in Hn. destruct Hn as [H1 H2].
  destruct (Qlt_le_dec (F2Q delta) 0) as [Hneg|Hpos].
  - destruct H2; lra.
  - destruct H1; lra.
Qed.

(** The rounded corner coordinate moves by at most 64 when the box moves
    by at most 4. *)
Lemma corner_jump (y y' A A' : float) (c : Q) (Y Y' : Z) :
  finite y -> finite y' ->
  (- (4) <= F2Q y' - F2Q y <= 4)%Q -> (- (32) <= c <= 32)%Q ->
  (forall g, fgrid g -> nearer (F2Q A) g (F2Q y + c)) ->
  (forall g, fgrid g -> nearer (F2Q A') g (F2Q y' + c)) ->
  (y' = y -> A' = A) ->
  py_round A = Ok Y -> py_round A' = Ok Y' ->
  -64 <= Y' - Y <= 64.
Proof.
  intros Hy Hy' Hd Hc Hn Hn' Hsame HY HY'.
  set (T := (72057594037927936 # 1)%Q).
  assert (HT : (inject_Z (2 ^ 56) == T)%Q) by reflexivity.
  destruct (Qlt_le_dec (F2Q y) T) as [Hlt|Hge];
    [destruct (Qlt_le_dec (- T) (F2Q y)) as [Hgt|Hle]|].
  - (* the small range *)
    assert (HC : (inject_Z (2 ^ 56 + 36) == T + 36)%Q) by reflexivity.
    assert (Ba : (- inject_Z (2 ^ 56 + 36) <= F2Q y + c <= inject_Z (2 ^ 56 + 36))%Q)
      by (rewrite HC; lra).
    assert (Ba' : (- inject_Z (2 ^ 56 + 36) <= F2Q y' + c <= inject_Z (2 ^ 56 + 36))%Q)
      by (rewrite HC; lra).
    pose proof (nearest_within_16 _ _ Hn Ba) as HA.
    pose proof (nearest_within_16 _ _ Hn' Ba') as HA'.
    destruct (py_round_nearest _ _ HY) as [HR _].
    destruct (py_round_nearest _ _ HY') as [HR' _].
    apply Qabs_Qle_condition in HR, HR'.
    assert (H1 : (inject_Z (Y' - Y) < inject_Z 38)%Q).
    { unfold Z.sub. rewrite inject_Z_plus, inject_Z_opp.
      change (inject_Z 38) with 38%Q. lra. }
    assert (H2 : (inject_Z (-38) < inject_Z (Y' - Y))%Q).
    { unfold Z.sub. rewrite inject_Z_plus, inject_Z_opp.
      change (inject_Z (-38)) with (-38 # 1)%Q. lra. }
    rewrite <- Zlt_Qlt in H1, H2. lia.
  - (* far below zero: the box does not move *)
    assert (Hbig : (inject_Z (2 ^ (53 + 3)) <= F2Q y \/ F2Q y <= - inject_Z (2 ^ (53 + 3)))%Q)
      by (right; change (inject_Z (2 ^ (53 + 3))) with T; lra).
    assert (Hbig' : (inject_Z (2 ^ (53 + 2)) <= F2Q y' \/ F2Q y' <= - inject_Z (2 ^ (53 + 2)))%Q).
    { right. change (inject_Z (2 ^ (53 + 2))) with (36028797018963968 # 1)%Q.
      unfold T in *. lra. }
    destruct (large_multiple y 3 ltac:(lia) Hy Hbig) as [k Hk].
    destruct (large_multiple y' 2 ltac:(lia) Hy' Hbig') as [k' Hk'].
    assert (Heq : k' * 2 ^ (2 + 1) = k * 2 ^ (3 + 1)).
    { rewrite Hk, Hk' in Hd. destruct Hd as [D1 D2].
      assert (E1 : (inject_Z (-4) <= inject_Z (k' * 2 ^ (2 + 1) - k * 2 ^ (3 + 1)))%Q).
      { unfold Z.sub. rewrite inject_Z_plus, inject_Z_opp.
        change (inject_Z (-4)) with (-4 # 1)%Q. lra. }
      assert (E2 : (inject_Z (k' * 2 ^ (2 + 1) - k * 2 ^ (3 + 1)) <= inject_Z 4)%Q).
      { unfold Z.sub. rewrite inject_Z_plus, inject_Z_opp.
        change (inject_Z 4) with 4%Q. lra. }
      rewrite <- Zle_Qle in E1, E2.
      change (2 ^ (2 + 1)) with 8 in *. change (2 ^ (3 + 1)) with 16 in *. lia. }
    assert (Hval : (F2Q y' == F2Q y)%Q) by (rewrite Hk, Hk', Heq; reflexivity).
    assert (Hnz : ~ (F2Q y' == 0)%Q) by (rewrite Hval; unfold T in *; lra).
    rewrite (Hsame (F2Q_inj y' y Hy' Hy Hval Hnz)) in HY'.
    rewrite HY in HY'. injection HY' as <-. lia.
  - (* far above zero: the box does not move *)
    assert (Hbig : (inject_Z (2 ^ (53 + 3)) <= F2Q y \/ F2Q y <= - inject_Z (2 ^ (53 + 3)))%Q)
      by (left; change (inject_Z (2 ^ (53 + 3))) with T; lra).
    assert (Hbig' : (inject_Z (2 ^ (53 + 2)) <= F2Q y' \/ F2Q y' <= - inject_Z (2 ^ (53 + 2)))%Q).
    { left. change (inject_Z (2 ^ (53 + 2))) with (36028797018963968 # 1)%Q.
      unfold T in *. lra. }
    destruct (large_multiple y 3 ltac:(lia) Hy Hbig) as [k Hk].
    destruct (large_multiple y' 2 ltac:(lia) Hy' Hbig') as [k' Hk'].
    assert (Heq : k' * 2 ^ (2 + 1) = k * 2 ^ (3 + 1)).
    { rewrite Hk, Hk' in Hd. destruct Hd as [D1 D2].
      assert (E1 : (inject_Z (-4) <= inject_Z (k' * 2 ^ (2 + 1) - k * 2 ^ (3 + 1)))%Q).
      { unfold Z.sub. rewrite inject_Z_plus, inject_Z_opp.
        change (inject_Z (-4)) with (-4 # 1)%Q. lra. }
      assert (E2 : (inject_Z (k' * 2 ^ (2 + 1) - k * 2 ^ (3 + 1)) <= inject_Z 4)%Q).
      { unfold Z.sub. rewrite inject_Z_plus, inject_Z_opp.
        change (inject_Z 4) with 4%Q. lra. }
      rewrite <- Zle_Qle in E1, E2.
      change (2 ^ (2 + 1)) with 8 in *. change (2 ^ (3 + 1)) with 16 in *. lia. }
    assert (Hval : (F2Q y' == F2Q y)%Q) by (rewrite Hk, Hk', Heq; reflexivity).
    assert (Hnz : ~ (F2Q y' == 0)%Q) by (rewrite Hval; unfold T in *; lra).
    rewrite (Hsame (F2Q_inj y' y Hy' Hy Hval Hnz)) in HY'.
    rewrite HY in HY'. injection HY' as <-. lia.
Qed.

(** The rounded coordinates of the two corners on one side of the box,
    before and after a vertical move of at most 2. *)
Lemma corners_jump (y delta : float) (Yt Yb Yt' Yb' : Z) :
  (finite (y + delta) -> (- (2) <= F2Q delta <= 2)%Q) ->
  py_round (y - 32) = Ok Yt -> py_round (y + 32) = Ok Yb ->
  py_round (y + delta - 32) = Ok Yt' -> py_round (y + delta + 32) = Ok Yb' ->
  -64 <= Yt' - Yt <= 64 /\ -64 <= Yb' - Yb <= 64.
Proof.
  intros Hdelta Ht Hb Ht' Hb'.
  pose proof (py_round_finite _ _ Ht) as Ft. pose proof (py_round_finite _ _ Hb) as Fb.
  pose proof (py_round_finite _ _ Ht') as Ft'. pose proof (py_round_finite _ _ Hb') as Fb'.
  destruct (sub_nearest _ _ Ft) as (Fy & _ & Nt).
  destruct (add_nearest _ _ Fb) as (_ & _ & Nb).
  destruct (sub_nearest _ _ Ft') as (Fy' & _ & Nt').
  destruct (add_nearest _ _ Fb') as (_ & _ & Nb').
  destruct (sum_near y delta Fy' (Hdelta Fy')) as (_ & Hd).
  pose proof F2Q_32 as E32.
  split.
  - apply (corner_jump y (y + delta) (y - 32) (y + delta - 32) (- (32)) Yt Yt');
      try assumption; try lra.
    + intros g Hg. eapply nearer_eq; [reflexivity | reflexivity | | exact (Nt g Hg)]. lra.
    + intros g Hg. eapply nearer_eq; [reflexivity | reflexivity | | exact (Nt' g Hg)]. lra.
    + intros ->. reflexivity.
  - apply (corner_jump y (y + delta) (y + 32) (y + delta + 32) 32 Yb Yb');
      try assumption; try lra.
    + intros g Hg. eapply nearer_eq; [reflexivity | reflexivity | | exact (Nb g Hg)]. lra.
    + intros g Hg. eapply nearer_eq; [reflexivity | reflexivity | | exact (Nb' g Hg)]. lra.
    + intros ->. reflexivity.
Qed.
End CornerJumpBound.

(** ** No passing through a solid row *)

Section SolidRow.
Local Open Scope Z_scope.
Variables (self : Map.t) (R : Z).
Hypothesis width_positive : 0 < Map.width self.
Hypothesis row_in_grid : 0 <= R < Map.height self.

(** Every tile of row [R] is solid. *)
Definition solid_row : Prop :=
  forall c, 0 <= c < Map.width self ->
    exists tile, Map.tiles self !! Z.to_nat (R * Map.width self + c) = Some tile
                 /\ solid tile = true.

Hypothesis row_solid : solid_row.

(** The rounded vertical coordinates of the upper and the lower corners of
    the player's box. *)
Definition corner_rows (y : float) (Yt Yb : Z) : Prop :=
  py_round (y - 32) = Ok Yt /\ py_round (y + 32) = Ok Yb.

(** The box is wholly above (below) row [R]. *)
Definition above (y : float) : Prop :=
  exists Yt Yb, corner_rows y Yt Yb /\ Yt < 64 * R /\ Yb < 64 * R.

Definition below (y : float) : Prop :=
  exists Yt Yb, corner_rows y Yt Yb /\ 64 * (R + 1) <= Yt /\ 64 * (R + 1) <= Yb.

Lemma or_else_false a b :
  Map.or_else a b = Ok false -> a = Ok false /\ b = Ok false.
Proof.
  unfold Map.or_else. destruct a as [[|]|e]; cbn [bind]; try discriminate. auto.
Qed.

(** A point that is not solid does not round into row [R]. *)
Lemma is_solid_off_row p :
  Map.is_solid self p = Ok false ->
  exists Y, py_round (Point2d.y p) = Ok Y /\ ~ (64 * R <= Y < 64 * (R + 1)).
Proof using width_positive row_in_grid row_solid.
  intros H. pose proof H as H'. unfold Map.is_solid in H'.
  bind_inv H'. bind_inv H'. rename v into X, v0 into Y.
  exists Y. split; [exact E0|]. intros HY.
  rewrite (is_solid_rounded self p X Y E E0) in H. unfold tile_pos in H.
  rewrite (clamp_in_cell Y R) in H by lia.
  pose proof (clamp_range (Z.quot X 64) _ width_positive) as Hc.
  destruct (row_solid (clamp (Z.quot X 64) (Map.width self)) ltac:(lia))
    as (tile & Hlk & Hs).
  unfold py_index in H.
  set (i := R * Map.width self + clamp (Z.quot X 64) (Map.width self)) in *.
  assert (Hi : 0 <= i) by (unfold i; nia).
  destruct (Z.ltb_spec i 0) as [|_]; [lia|].
  destruct (Z.ltb_spec i 0) as [|_]; [lia|].
  rewrite Hlk in H. cbn [bind] in H. rewrite Hs in H. discriminate.
Qed.

(** A free box has no corner in row [R]. *)
Lemma test_box_off_row q :
  Map.test_box self q PLAYER_SIZE = Ok false ->
  exists Yt Yb, corner_rows (Point2d.y q) Yt Yb
                /\ ~ (64 * R <= Yt < 64 * (R + 1))
                /\ ~ (64 * R <= Yb < 64 * (R + 1)).
Proof using width_positive row_in_grid row_solid.
  unfold Map.test_box. intros H.
  apply or_else_false in H. destruct H as [H1 H].
  apply or_else_false in H. destruct H as [_ H].
  apply or_else_false in H. destruct H as [H3 _].
  apply is_solid_off_row in H1, H3.
  destruct H1 as (Yt & Ht & Hnt). destruct H3 as (Yb & Hb & Hnb).
  exists Yt, Yb. split; [split; [exact Ht | exact Hb]|]. auto.
Qed.

Variables (fraction vy : float).
Hypothesis small_steps :
  forall v, v = vy \/ v = 0%float ->
    finite (v * fraction) -> (- (2) <= F2Q (v * fraction) <= 2)%Q.

(** One sub-step keeps the box on its side of the row. *)
Lemma sub_step_side st st' :
  Map.sub_step self PLAYER_SIZE fraction st = Ok st' ->
  kept_or_zero_y vy st ->
  (above (Point2d.y (Map.pos_of st)) -> above (Point2d.y (Map.pos_of st')))
  /\ (below (Point2d.y (Map.pos_of st)) -> below (Point2d.y (Map.pos_of st'))).
Proof using width_positive row_in_grid row_solid small_steps.
  intros H Hk. apply sub_step_cases in H. cbn zeta in H.
  set (p := Map.pos_of st) in *. set (v := Map.vel_of st) in *.
  set (c := Map.candidate fraction st) in *.
  assert (Hc : Point2d.y c = (Point2d.y p + Point2d.y v * fraction)%float) by reflexivity.
  assert (Hmove : forall q, Point2d.y q = Point2d.y c ->
            Map.test_box self q PLAYER_SIZE = Ok false ->
            (above (Point2d.y p) -> above (Point2d.y q))
            /\ (below (Point2d.y p) -> below (Point2d.y q))).
  { intros q Hq Hfree. apply test_box_off_row in Hfree.
    destruct Hfree as (Yt' & Yb' & [Ht' Hb'] & Hnt & Hnb).
    rewrite Hq, Hc in Ht', Hb'.
    assert (Hj : forall Yt Yb, corner_rows (Point2d.y p) Yt Yb ->
                   -64 <= Yt' - Yt <= 64 /\ -64 <= Yb' - Yb <= 64).
    { intros Yt Yb [Ht Hb].
      apply (corners_jump (Point2d.y p) (Point2d.y v * fraction)%float); try assumption.
      intros _. apply small_steps; [exact Hk|].
      pose proof (py_round_finite _ _ Ht') as F.
      destruct (sub_nearest _ _ F) as (F1 & _).
      destruct (add_nearest _ _ F1) as (_ & F2 & _). exact F2. }
    split; intros (Yt & Yb & Hrows & H1 & H2);
      destruct (Hj Yt Yb Hrows) as [J1 J2];
      exists Yt', Yb'; (split; [split; rewrite Hq, Hc; assumption|]); lia. }
  destruct H as [[Hfree ->] | [_ (hy & hx & Hy & Hx & ->)]].
  - cbn [Map.pos_of]. apply Hmove; [reflexivity | exact Hfree].
  - destruct hy, hx; cbn [Map.pos_of]; try (split; intros ?; assumption).
    apply (Hmove (Point2d.mk (Point2d.x p) (Point2d.y c))); [reflexivity | exact Hy].
Qed.

Lemma sub_steps_side n : forall st st',
  Map.sub_steps self PLAYER_SIZE fraction n st = Ok st' ->
  kept_or_zero_y vy st ->
  (above (Point2d.y (Map.pos_of st)) -> above (Point2d.y (Map.pos_of st')))
  /\ (below (Point2d.y (Map.pos_of st)) -> below (Point2d.y (Map.pos_of st'))).
Proof using width_positive row_in_grid row_solid small_steps.
  induction n as [|n IH]; intros st st' H Hk; cbn [Map.sub_steps] in H.
  - injection H as <-. auto.
  - bind_inv H.
    destruct (sub_step_side _ _ E Hk) as [A1 B1].
    pose proof (sub_step_kept_or_zero_y _ _ _ _ _ _ E Hk) as Hk'.
    destruct (IH _ _ H Hk') as [A2 B2]. auto.
Qed.
End SolidRow.

(** X16: no passing through a solid row at a speed of at most 64: on a grid
    whose row [R] is solid throughout, when the length of the velocity is at
    most 64, a box of the player's size whose corners are all above the row
    ends [move_box] with its corners above the row, and one whose corners
    are all below ends below; the corners are compared by their rounded
    coordinates, as the tile queries see them. *)
Theorem move_box_no_tunneling self R pos vel d st :
  (0 < Map.width self)%Z -> (0 <= R < Map.height self)%Z ->
  solid_row self R ->
  Point2d.len vel = Ok d -> (d <=? 64)%float = true ->
  Map.move_box self pos vel PLAYER_SIZE = Ok st ->
  (above R (Point2d.y pos) -> above R (Point2d.y (Map.pos_of st)))
  /\ (below R (Point2d.y pos) -> below R (Point2d.y (Map.pos_of st))).
Proof.
  intros Hw HR Hrow Hlen Hle H. unfold Map.move_box in H.
  rewrite Hlen in H. cbn [bind] in H. bind_inv H. rename v into n.
  rewrite (len_not_negative _ _ Hlen) in H. bind_inv H. rename v into denominator.
  destruct (vertical_below_count vel d n Hlen Hle E) as (Hn & Hvy).
  destruct (fraction_spec n denominator Hn E0) as (Hdiv & Hfin & Hf0 & HfK).
  rewrite Hdiv in H. cbn [bind] in H.
  apply (sub_steps_side self R Hw HR Hrow (1 / denominator)%float (Point2d.y vel)) in H.
  - exact H.
  - intros v [-> | ->] Hv.
    + apply (displacement_bound _ _ (n + 1)); assumption.
    + apply (displacement_bound _ _ (n + 1)); try assumption.
      rewrite F2Q_0. rewrite inject_Z_plus. change (inject_Z 1) with 1%Q.
      assert (0 <= inject_Z n)%Q by (change 0%Q with (inject_Z 0); rewrite <- Zle_Qle; lia).
      lra.
  - left. reflexivity.
Qed.

Lemma move_box_no_tunneling_witness :
  exists st,
    Map.move_box demo_map (Point2d.mk 300 100) (Vector2d 2 60) PLAYER_SIZE = Ok st
    /\ above 3 (Point2d.y (Map.pos_of st)).
Proof.
  eexists.
  assert (E : Map.move_box demo_map (Point2d.mk 300 100) (Vector2d 2 60) PLAYER_SIZE
              = Ok _) by (vm_compute; reflexivity).
  split; [exact E|].
  assert (Hlen : Point2d.len (Vector2d 2 60) = Ok (sqrt 3604)) by (vm_compute; reflexivity).
  assert (Hle : (sqrt 3604 <=? 64)%float = true) by (vm_compute; reflexivity).
  assert (Hrow : solid_row demo_map 3).
  { intros c Hc. exists 1%Z.
    assert (Hcases : (c = 0 \/ c = 1 \/ c = 2 \/ c = 3 \/ c = 4 \/ c = 5)%Z)
      by (change (Map.width demo_map) with 6%Z in Hc; lia).
    destruct Hcases as [-> | [-> | [-> | [-> | [-> | ->] ] ] ] ]; split; reflexivity. }
  refine (proj1 (move_box_no_tunneling demo_map 3 _ _ _ _ _ _ Hrow Hlen Hle E) _).
  - cbn. lia.
  - cbn. lia.
  - exists 68%Z, 132%Z. split; [split; vm_compute; reflexivity|]. lia.
Defined.

(** ** No passing through a solid row, for a box no higher than a tile *)

Section CornerJumpBox.
Local Open Scope Z_scope.

(** The rounded coordinates of the corners at distance [h] above and
    below the centre, before and after a vertical move of at most 2. *)
Lemma corners_jump_box (y delta h : float) (Yt Yb Yt' Yb' : Z) :
  (finite (y + delta) -> (- (2) <= F2Q delta <= 2)%Q) ->
  (- (32) <= F2Q h <= 32)%Q ->
  py_round (y - h) = Ok Yt -> py_round (y + h) = Ok Yb ->
  py_round (y + delta - h) = Ok Yt' -> py_round (y + delta + h) = Ok Yb' ->
  -64 <= Yt' - Yt <= 64 /\ -64 <= Yb' - Yb <= 64.
Proof.
  intros Hdelta Hh Ht Hb Ht' Hb'.
  pose proof (py_round_finite _ _ Ht) as Ft. pose proof (py_round_finite _ _ Hb) as Fb.
  pose proof (py_round_finite _ _ Ht') as Ft'. pose proof (py_round_finite _ _ Hb') as Fb'.
  destruct (sub_nearest _ _ Ft) as (Fy & _ & Nt).
  destruct (add_nearest _ _ Fb) as (_ & _ & Nb).
  destruct (sub_nearest _ _ Ft') as (Fy' & _ & Nt').
  destruct (add_nearest _ _ Fb') as (_ & _ & Nb').
  destruct (sum_near y delta Fy' (Hdelta Fy')) as (_ & Hd).
  split.
  - apply (corner_jump y (y + delta) (y - h) (y + delta - h) (- F2Q h) Yt Yt');
      try assumption; try lra; try (intros ->; reflexivity).
  - apply (corner_jump y (y + delta) (y + h) (y + delta + h) (F2Q h) Yb Yb');
      try assumption; try lra; try (intros ->; reflexivity).
Qed.
End CornerJumpBox.

Section SolidRowBox.
Local Open Scope Z_scope.
Variables (self : Map.t) (R : Z) (size : Point2d.t).
Hypothesis width_positive : 0 < Map.width self.
Hypothesis row_in_grid : 0 <= R < Map.height self.
Hypothesis row_solid : solid_row self R.
Hypothesis low_box : (- (32) <= F2Q (Point2d.y size * 0.5) <= 32)%Q.

(** The rounded vertical coordinates of the upper and the lower corners
    that [test_box] samples for a box of size [size] centred at height
    [y]. *)
Definition box_rows (y : float) (Yt Yb : Z) : Prop :=
  py_round (y - Point2d.y size * 0.5) = Ok Yt
  /\ py_round (y + Point2d.y size * 0.5) = Ok Yb.

(** The sampled corners are all above (below) row [R]. *)
Definition box_above (y : float) : Prop :=
  exists Yt Yb, box_rows y Yt Yb /\ Yt < 64 * R /\ Yb < 64 * R.

Definition box_below (y : float) : Prop :=
  exists Yt Yb, box_rows y Yt Yb /\ 64 * (R + 1) <= Yt /\ 64 * (R + 1) <= Yb.

(** A free box has no sampled corner in row [R]. *)
Lemma test_box_off_row_box q :
  Map.test_box self q size = Ok false ->
  exists Yt Yb, box_rows (Point2d.y q) Yt Yb
                /\ ~ (64 * R <= Yt < 64 * (R + 1))
                /\ ~ (64 * R <= Yb < 64 * (R + 1)).
Proof using width_positive row_in_grid row_solid.
  unfold Map.test_box. intros H.
  apply or_else_false in H. destruct H as [H1 H].
  apply or_else_false in H. destruct H as [_ H].
  apply or_else_false in H. destruct H as [H3 _].
  apply (is_solid_off_row self R width_positive row_in_grid row_solid) in H1, H3.
  destruct H1 as (Yt & Ht & Hnt). destruct H3 as (Yb & Hb & Hnb).
  exists Yt, Yb. split; [split; [exact Ht | exact Hb]|]. auto.
Qed.

Variables (fraction vy : float).
Hypothesis small_steps :
  forall v, v = vy \/ v = 0%float ->
    finite (v * fraction) -> (- (2) <= F2Q (v * fraction) <= 2)%Q.

(** One sub-step keeps the box on its side of the row. *)
Lemma sub_step_side_box st st' :
  Map.sub_step self size fraction st = Ok st' ->
  kept_or_zero_y vy st ->
  (box_above (Point2d.y (Map.pos_of st)) -> box_above (Point2d.y (Map.pos_of st')))
  /\ (box_below (Point2d.y (Map.pos_of st)) -> box_below (Point2d.y (Map.pos_of st'))).
Proof using width_positive row_in_grid row_solid low_box small_steps.
  intros H Hk. apply sub_step_cases in H. cbn zeta in H.
  set (p := Map.pos_of st) in *. set (v := Map.vel_of st) in *.
  set (c := Map.candidate fraction st) in *.
  assert (Hc : Point2d.y c = (Point2d.y p + Point2d.y v * fraction)%float) by reflexivity.
  assert (Hmove : forall q, Point2d.y q = Point2d.y c ->
            Map.test_box self q size = Ok false ->
            (box_above (Point2d.y p) -> box_above (Point2d.y q))
            /\ (box_below (Point2d.y p) -> box_below (Point2d.y q))).
  { intros q Hq Hfree. apply test_box_off_row_box in Hfree.
    destruct Hfree as (Yt' & Yb' & [Ht' Hb'] & Hnt & Hnb).
    rewrite Hq, Hc in Ht', Hb'.
    assert (Hj : forall Yt Yb, box_rows (Point2d.y p) Yt Yb ->
                   -64 <= Yt' - Yt <= 64 /\ -64 <= Yb' - Yb <= 64).
    { intros Yt Yb [Ht Hb].
      apply (corners_jump_box (Point2d.y p) (Point2d.y v * fraction)%float
               (Point2d.y size * 0.5)%float); try assumption.
      intros _. apply small_steps; [exact Hk|].
      pose proof (py_round_finite _ _ Ht') as F.
      destruct (sub_nearest _ _ F) as (F1 & _).
      destruct (add_nearest _ _ F1) as (_ & F2 & _). exact F2. }
    split; intros (Yt & Yb & Hrows & H1 & H2);
      destruct (Hj Yt Yb Hrows) as [J1 J2];
      exists Yt', Yb'; (split; [split; rewrite Hq, Hc; assumption|]); lia. }
  destruct H as [[Hfree ->] | [_ (hy & hx & Hy & Hx & ->)]].
  - cbn [Map.pos_of]. apply Hmove; [reflexivity | exact Hfree].
  - destruct hy, hx; cbn [Map.pos_of]; try (split; intros ?; assumption).
    apply (Hmove (Point2d.mk (Point2d.x p) (Point2d.y c))); [reflexivity | exact Hy].
Qed.

Lemma sub_steps_side_box n : forall st st',
  Map.sub_steps self size fraction n st = Ok st' ->
  kept_or_zero_y vy st ->
  (box_above (Point2d.y (Map.pos_of st)) -> box_above (Point2d.y (Map.pos_of st')))
  /\ (box_below (Point2d.y (Map.pos_of st)) -> box_below (Point2d.y (Map.pos_of st'))).
Proof using width_positive row_in_grid row_solid low_box small_steps.
  induction n as [|n IH]; intros st st' H Hk; cbn [Map.sub_steps] in H.
  - injection H as <-. auto.
  - bind_inv H.
    destruct (sub_step_side_box _ _ E Hk) as [A1 B1].
    pose proof (sub_step_kept_or_zero_y _ _ _ _ _ _ E Hk) as Hk'.
    destruct (IH _ _ H Hk') as [A2 B2]. auto.
Qed.
End SolidRowBox.

(** C4: no passing through a solid row at a speed of at most 64: on a grid
    whose row [R] is solid throughout, when the length of the velocity is at
    most 64, a box no higher than a tile (half its height at most 32, as
    the player's) whose sampled corners are all above the row ends
    [move_box] with its sampled corners above the row, neither in it nor
    past it, and one whose corners are all below ends below; the corners
    are compared by their rounded coordinates, as the tile queries see
    them. *)
Theorem move_box_never_passes_row self R pos vel size d st :
  (0 < Map.width self)%Z -> (0 <= R < Map.height self)%Z ->
  solid_row self R ->
  (- (32) <= F2Q (Point2d.y size * 0.5) <= 32)%Q ->
  Point2d.len vel = Ok d -> (d <=? 64)%float = true ->
  Map.move_box self pos vel size = Ok st ->
  (box_above R size (Point2d.y pos) -> box_above R size (Point2d.y (Map.pos_of st)))
  /\ (box_below R size (Point2d.y pos) -> box_below R size (Point2d.y (Map.pos_of st))).
Proof.
  intros Hw HR Hrow Hbox Hlen Hle H. unfold Map.move_box in H.
  rewrite Hlen in H. cbn [bind] in H. bind_inv H. rename v into n.
  rewrite (len_not_negative _ _ Hlen) in H. bind_inv H. rename v into denominator.
  destruct (vertical_below_count vel d n Hlen Hle E) as (Hn & Hvy).
  destruct (fraction_spec n denominator Hn E0) as (Hdiv & Hfin & Hf0 & HfK).
  rewrite Hdiv in H. cbn [bind] in H.
  apply (sub_steps_side_box self R size Hw HR Hrow Hbox
           (1 / denominator)%float (Point2d.y vel)) in H.
  - exact H.
  - intros v [-> | ->] Hv.
    + apply (displacement_bound _ _ (n + 1)); assumption.
    + apply (displacement_bound _ _ (n + 1)); try assumption.
      rewrite F2Q_0. rewrite inject_Z_plus. change (inject_Z 1) with 1%Q.
      assert (0 <= inject_Z n)%Q by (change 0%Q with (inject_Z 0); rewrite <- Zle_Qle; lia).
      lra.
  - left. reflexivity.
Qed.

Lemma move_box_never_passes_row_witness :
  exists st,
    Map.move_box demo_map (Point2d.mk 300 150) (Vector2d (-3) 63) (Point2d.mk 64 40) = Ok st
    /\ box_above 3 (Point2d.mk 64 40) (Point2d.y (Map.pos_of st)).
Proof.
  eexists.
  assert (E : Map.move_box demo_map (Point2d.mk 300 150) (Vector2d (-3) 63)
                (Point2d.mk 64 40) = Ok _) by (vm_compute; reflexivity).
  split; [exact E|].
  assert (Hlen : Point2d.len (Vector2d (-3) 63) = Ok (sqrt 3978)) by (vm_compute; reflexivity).
  assert (Hle : (sqrt 3978 <=? 64)%float = true) by (vm_compute; reflexivity).
  assert (Hrow : solid_row demo_map 3).
  { intros c Hc. exists 1%Z.
    assert (Hcases : (c = 0 \/ c = 1 \/ c = 2 \/ c = 3 \/ c = 4 \/ c = 5)%Z)
      by (change (Map.width demo_map) with 6%Z in Hc; lia).
    destruct Hcases as [-> | [-> | [-> | [-> | [-> | ->] ] ] ] ]; split; reflexivity. }
  assert (Hbox : (- (32) <= F2Q (Point2d.y (Point2d.mk 64 40) * 0.5) <= 32)%Q)
    by (vm_compute; split; discriminate).
  refine (proj1 (move_box_never_passes_row demo_map 3 _ _ (Point2d.mk 64 40) _ _ _ _
                  Hrow Hbox Hlen Hle E) _).
  - cbn. lia.
  - cbn. lia.
  - exists 130%Z, 170%Z. split; [split; vm_compute; reflexivity|]. lia.
Defined.

(** ** No passing through a solid column *)

Section HorizontalDisplacement.
Local Open Scope Z_scope.

Lemma len_ge_x vel d K :
  Point2d.len vel = Ok d -> finite d -> 0 < K < 2 ^ 26 ->
  (inject_Z K <= F2Q (Point2d.x vel) \/ F2Q (Point2d.x vel) <= - inject_Z K)%Q ->
  (inject_Z K <= F2Q d)%Q.
Proof.
  unfold Point2d.len, py_sqrt. destruct (_ <? 0)%float; [discriminate|].
  intros [= <-] Hd HK Hx.
  set (vx := Point2d.x vel) in *. set (vy := Point2d.y vel) in *.
  pose proof (sqrt_finite _ Hd) as Hs.
  destruct (add_nearest _ _ Hs) as (Hxx & Hyy & Hn).
  destruct (mul_nearest _ _ Hxx) as (_ & _ & Hnx).
  destruct (mul_nearest _ _ Hyy) as (_ & _ & Hny).
  assert (HK0 : (0 < inject_Z K)%Q)
    by (change 0%Q with (inject_Z 0); rewrite <- Zlt_Qlt; lia).
  assert (HgK : fgrid (inject_Z (K * K))).
  { apply fgrid_int. assert (K * K < 2 ^ 26 * 2 ^ 26) by nia.
    change (2 ^ 26 * 2 ^ 26) with (2 ^ 52) in H. lia. }
  assert (Hg0 : fgrid (inject_Z 0)) by (apply fgrid_int; lia).
  assert (Hsq : (inject_Z (K * K) <= F2Q vx * F2Q vx)%Q).
  { rewrite inject_Z_mult. destruct Hx; nra. }
  pose proof (nearer_ge _ _ _ (Hnx _ HgK) Hsq) as Hxx2.
  assert (Hyy0 : (inject_Z 0 <= F2Q vy * F2Q vy)%Q)
    by (change (inject_Z 0) with 0%Q; nra).
  pose proof (nearer_ge _ _ _ (Hny _ Hg0) Hyy0) as Hyy2.
  change (inject_Z 0) with 0%Q in Hyy2.
  assert (Hsum : (inject_Z (K * K) <= F2Q (vx * vx) + F2Q (vy * vy))%Q) by lra.
  pose proof (nearer_ge _ _ _ (Hn _ HgK) Hsum) as HS.
  apply sqrt_ge; assumption.
Qed.

Lemma horizontal_below_count vel d n :
  Point2d.len vel = Ok d -> (d <=? 64)%float = true -> py_int d = Ok n ->
  0 <= n <= 64
  /\ (- inject_Z (n + 1) < F2Q (Point2d.x vel) < inject_Z (n + 1))%Q.
Proof.
  intros Hlen Hle Hn.
  destruct (vertical_below_count vel d n Hlen Hle Hn) as [Hn64 _].
  split; [exact Hn64|].
  pose proof (py_int_finite _ _ Hn) as Hd.
  destruct (py_int_floor d n (len_not_negative _ _ Hlen) Hn) as (Hn0 & Hn1 & Hn2).
  assert (HK : 0 < n + 1 < 2 ^ 26) by lia.
  assert (Hno : ~ (inject_Z (n + 1) <= F2Q (Point2d.x vel)
                   \/ F2Q (Point2d.x vel) <= - inject_Z (n + 1))%Q).
  { intros Hx. pose proof (len_ge_x vel d (n + 1) Hlen Hd HK Hx) as H.
    rewrite inject_Z_plus in H. change (inject_Z 1) with 1%Q in H. lra. }
  split; apply Qnot_le_lt; intros H; apply Hno; [right | left]; lra.
Qed.
End HorizontalDisplacement.

Section SolidColumn.
Local Open Scope Z_scope.
Variables (self : Map.t) (C : Z).
Hypothesis height_positive : 0 < Map.height self.
Hypothesis column_in_grid : 0 <= C < Map.width self.

(** Every tile of column [C] is solid. *)
Definition solid_column : Prop :=
  forall r, 0 <= r < Map.height self ->
    exists tile, Map.tiles self !! Z.to_nat (r * Map.width self + C) = Some tile
                 /\ solid tile = true.

Hypothesis column_solid : solid_column.

(** The rounded horizontal coordinates of the left and the right corners
    of the player's box. *)
Definition corner_columns (x : float) (Xl Xr : Z) : Prop :=
  py_round (x - 32) = Ok Xl /\ py_round (x + 32) = Ok Xr.

(** The box is wholly to the left (right) of column [C]. *)
Definition left_of (x : float) : Prop :=
  exists Xl Xr, corner_columns x Xl Xr /\ Xl < 64 * C /\ Xr < 64 * C.

Definition right_of (x : float) : Prop :=
  exists Xl Xr, corner_columns x Xl Xr /\ 64 * (C + 1) <= Xl /\ 64 * (C + 1) <= Xr.

(** A point that is not solid does not round into column [C]. *)
Lemma is_solid_off_column p :
  Map.is_solid self p = Ok false ->
  exists X, py_round (Point2d.x p) = Ok X /\ ~ (64 * C <= X < 64 * (C + 1)).
Proof using height_positive column_in_grid column_solid.
  intros H. pose proof H as H'. unfold Map.is_solid in H'.
  bind_inv H'. bind_inv H'. rename v into X, v0 into Y.
  exists X. split; [exact E|]. intros HX.
  rewrite (is_solid_rounded self p X Y E E0) in H. unfold tile_pos in H.
  rewrite (clamp_in_cell X C) in H by lia.
  pose proof (clamp_range (Z.quot Y 64) _ height_positive) as Hr.
  destruct (column_solid (clamp (Z.quot Y 64) (Map.height self)) ltac:(lia))
    as (tile & Hlk & Hs).
  unfold py_index in H.
  set (i := clamp (Z.quot Y 64) (Map.height self) * Map.width self + C) in *.
  assert (Hi : 0 <= i) by (unfold i; nia).
  destruct (Z.ltb_spec i 0) as [|_]; [lia|].
  destruct (Z.ltb_spec i 0) as [|_]; [lia|].
  rewrite Hlk in H. cbn [bind] in H. rewrite Hs in H. discriminate.
Qed.

(** A free box has no corner in column [C]. *)
Lemma test_box_off_column q :
  Map.test_box self q PLAYER_SIZE = Ok false ->
  exists Xl Xr, corner_columns (Point2d.x q) Xl Xr
                /\ ~ (64 * C <= Xl < 64 * (C + 1))
                /\ ~ (64 * C <= Xr < 64 * (C + 1)).
Proof using height_positive column_in_grid column_solid.
  unfold Map.test_box. intros H.
  apply or_else_false in H. destruct H as [H1 H].
  apply or_else_false in H. destruct H as [H2 _].
  apply is_solid_off_column in H1, H2.
  destruct H1 as (Xl & Hl & Hnl). destruct H2 as (Xr & Hr & Hnr).
  exists Xl, Xr. split; [split; [exact Hl | exact Hr]|]. auto.
Qed.

Variables (fraction vx : float).
Hypothesis small_steps :
  forall v, v = vx \/ v = 0%float ->
    finite (v * fraction) -> (- (2) <= F2Q (v * fraction) <= 2)%Q.

(** One sub-step keeps the box on its side of the column. *)
Lemma sub_step_side_x st st' :
  Map.sub_step self PLAYER_SIZE fraction st = Ok st' ->
  kept_or_zero vx st ->
  (left_of (Point2d.x (Map.pos_of st)) -> left_of (Point2d.x (Map.pos_of st')))
  /\ (right_of (Point2d.x (Map.pos_of st)) -> right_of (Point2d.x (Map.pos_of st'))).
Proof using height_positive column_in_grid column_solid small_steps.
  intros H Hk. apply sub_step_cases in H. cbn zeta in H.
  set (p := Map.pos_of st) in *. set (v := Map.vel_of st) in *.
  set (c := Map.candidate fraction st) in *.
  assert (Hc : Point2d.x c = (Point2d.x p + Point2d.x v * fraction)%float) by reflexivity.
  assert (Hmove : forall q, Point2d.x q = Point2d.x c ->
            Map.test_box self q PLAYER_SIZE = Ok false ->
            (left_of (Point2d.x p) -> left_of (Point2d.x q))
            /\ (right_of (Point2d.x p) -> right_of (Point2d.x q))).
  { intros q Hq Hfree. apply test_box_off_column in Hfree.
    destruct Hfree as (Xl' & Xr' & [Hl' Hr'] & Hnl & Hnr).
    rewrite Hq, Hc in Hl', Hr'.
    assert (Hj : forall Xl Xr, corner_columns (Point2d.x p) Xl Xr ->
                   -64 <= Xl' - Xl <= 64 /\ -64 <= Xr' - Xr <= 64).
    { intros Xl Xr [Hl Hr].
      apply (corners_jump (Point2d.x p) (Point2d.x v * fraction)%float); try assumption.
      intros _. apply small_steps; [exact Hk|].
      pose proof (py_round_finite _ _ Hl') as F.
      destruct (sub_nearest _ _ F) as (F1 & _).
      destruct (add_nearest _ _ F1) as (_ & F2 & _). exact F2. }
    split; intros (Xl & Xr & Hcols & H1 & H2);
      destruct (Hj Xl Xr Hcols) as [J1 J2];
      exists Xl', Xr'; (split; [split; rewrite Hq, Hc; assumption|]); lia. }
  destruct H as [[Hfree ->] | [_ (hy & hx & Hy & Hx & ->)]].
  - cbn [Map.pos_of]. apply Hmove; [reflexivity | exact Hfree].
  - destruct hy, hx; cbn [Map.pos_of]; try (split; intros ?; assumption).
    apply (Hmove (Point2d.mk (Point2d.x c) (Point2d.y p))); [reflexivity | exact Hx].
Qed.

Lemma sub_steps_side_x n : forall st st',
  Map.sub_steps self PLAYER_SIZE fraction n st = Ok st' ->
  kept_or_zero vx st ->
  (left_of (Point2d.x (Map.pos_of st)) -> left_of (Point2d.x (Map.pos_of st')))
  /\ (right_of (Point2d.x (Map.pos_of st)) -> right_of (Point2d.x (Map.pos_of st'))).
Proof using height_positive column_in_grid column_solid small_steps.
  induction n as [|n IH]; intros st st' H Hk; cbn [Map.sub_steps] in H.
  - injection H as <-. auto.
  - bind_inv H.
    destruct (sub_step_side_x _ _ E Hk) as [A1 B1].
    pose proof (sub_step_kept_or_zero _ _ _ _ _ _ E Hk) as Hk'.
    destruct (IH _ _ H Hk') as [A2 B2]. auto.
Qed.
End SolidColumn.

(** X17: no passing through a solid column at a speed of at most 64: on a
    grid whose column [C] is solid throughout, when the length of the
    velocity is at most 64, a box of the player's size whose corners are all
    to the left of the column ends [move_box] with its corners to the left
    of it, and one whose corners are all to the right ends to the right. *)
Theorem move_box_no_tunneling_column self C pos vel d st :
  (0 < Map.height self)%Z -> (0 <= C < Map.width self)%Z ->
  solid_column self C ->
  Point2d.len vel = Ok d -> (d <=? 64)%float = true ->
  Map.move_box self pos vel PLAYER_SIZE = Ok st ->
  (left_of C (Point2d.x pos) -> left_of C (Point2d.x (Map.pos_of st)))
  /\ (right_of C (Point2d.x pos) -> right_of C (Point2d.x (Map.pos_of st))).
Proof.
  intros Hh HC Hcol Hlen Hle H. unfold Map.move_box in H.
  rewrite Hlen in H. cbn [bind] in H. bind_inv H. rename v into n.
  rewrite (len_not_negative _ _ Hlen) in H. bind_inv H. rename v into denominator.
  destruct (horizontal_below_count vel d n Hlen Hle E) as (Hn & Hvx).
  destruct (fraction_spec n denominator Hn E0) as (Hdiv & Hfin & Hf0 & HfK).
  rewrite Hdiv in H. cbn [bind] in H.
  apply (sub_steps_side_x self C Hh HC Hcol (1 / denominator)%float (Point2d.x vel)) in H.
  - exact H.
  - intros v [-> | ->] Hv.
    + apply (displacement_bound _ _ (n + 1)); assumption.
    + apply (displacement_bound _ _ (n + 1)); try assumption.
      rewrite F2Q_0. rewrite inject_Z_plus. change (inject_Z 1) with 1%Q.
      assert (0 <= inject_Z n)%Q by (change 0%Q with (inject_Z 0); rewrite <- Zle_Qle; lia).
      lra.
  - left. reflexivity.
Qed.

(** A map of six columns and three rows whose column 4 is solid. *)
Definition wall_map : Map.t :=
  Map.mk [0; 0; 0; 0; 1; 0;
          0; 0; 0; 0; 1; 0;
          0; 0; 0; 0; 1; 0]%Z 6 3.

Lemma move_box_no_tunneling_column_witness :
  exists st,
    Map.move_box wall_map (Point2d.mk 200 96) (Vector2d 60 1) PLAYER_SIZE = Ok st
    /\ left_of 4 (Point2d.x (Map.pos_of st)).
Proof.
  eexists.
  assert (E : Map.move_box wall_map (Point2d.mk 200 96) (Vector2d 60 1) PLAYER_SIZE
              = Ok _) by (vm_compute; reflexivity).
  split; [exact E|].
  assert (Hlen : Point2d.len (Vector2d 60 1) = Ok (sqrt 3601)) by (vm_compute; reflexivity).
  assert (Hle : (sqrt 3601 <=? 64)%float = true) by (vm_compute; reflexivity).
  assert (Hcol : solid_column wall_map 4).
  { intros r Hr. exists 1%Z.
    assert (Hcases : (r = 0 \/ r = 1 \/ r = 2)%Z)
      by (change (Map.height wall_map) with 3%Z in Hr; lia).
    destruct Hcases as [-> | [-> | ->] ]; split; reflexivity. }
  refine (proj1 (move_box_no_tunneling_column wall_map 4 _ _ _ _ _ _ Hcol Hlen Hle E) _).
  - cbn. lia.
  - cbn. lia.
  - exists 168%Z, 232%Z. split; [split; vm_compute; reflexivity|]. lia.
Defined.
